(** * A boundary-tag, best-fit memory allocator (myalloc.c)

    Shallow embedding of [src/myalloc.c] and proofs about it.

    - [int] is a 32-bit two's-complement integer: values are kept in [Z] and
      every arithmetic result is reduced with [wrap_int].
    - [sizeof(int)] is 4 and has type [size_t]; arithmetic that involves it is
      unsigned 64-bit ([to_size_t]), and a [size_t] stored into an [int] is
      reduced with [wrap_int].
    - Pointers are byte addresses in [Z]; the null pointer is address 0.
    - The pool is byte addressed.  An [int] access reads or writes four
      consecutive bytes (little endian) at any address: block sizes need not be
      multiples of four.
    - The [while] loop of [best_fit_block] takes fuel; [None] means that the
      fuel ran out. *)

From Stdlib Require Import ZArith List Lia Bool String.
Import ListNotations.
Open Scope Z_scope.

(** ** Machine integers *)

Definition INT_MAX : Z := 2147483647.
Definition INT_MIN : Z := -2147483648.

(** Reduction of an integer to the range of [int]. *)
Definition wrap_int (z : Z) : Z := (z + 2147483648) mod 4294967296 - 2147483648.

(** Conversion to [size_t]. *)
Definition to_size_t (z : Z) : Z := z mod 18446744073709551616.

Definition sizeof_int : Z := 4.

Definition add_int (a b : Z) : Z := wrap_int (a + b).
Definition mul_int (a b : Z) : Z := wrap_int (a * b).
(** [abs] from stdlib.h. *)
Definition c_abs (a : Z) : Z := wrap_int (Z.abs a).

Definition size_add (a b : Z) : Z := to_size_t (a + b).
Definition size_sub (a b : Z) : Z := to_size_t (a - b).
Definition size_mul (a b : Z) : Z := to_size_t (a * b).

(** ** Byte-addressed memory *)

Definition memory := Z -> Z.

(** Byte number [i] of the representation of [v]. *)
Definition byte_of (v i : Z) : Z := (v / 256 ^ i) mod 256.

Definition load_int (h : memory) (p : Z) : Z :=
  wrap_int (h p mod 256
            + 256 * (h (p + 1) mod 256)
            + 65536 * (h (p + 2) mod 256)
            + 16777216 * (h (p + 3) mod 256)).

Definition store_int (h : memory) (p v : Z) : memory :=
  fun a => if (p <=? a) && (a <? p + 4) then byte_of v (a - p) else h a.

(** ** Allocator state *)

(** A call of [fprintf(stderr, fmt, arg)]. *)
Inductive event : Type :=
| Fprintf (fmt : string) (arg : Z).

(** The globals [MEMORY_SIZE], [mem] and [end], the contents of memory, and
    what was written to [stderr]. *)
Record state : Type := mkState {
  MEMORY_SIZE : Z;
  mem : Z;
  end_ : Z;
  heap : memory;
  stderr : list event
}.

Definition load (st : state) (p : Z) : Z := load_int (heap st) p.

Definition store (st : state) (p v : Z) : state :=
  mkState (MEMORY_SIZE st) (mem st) (end_ st) (store_int (heap st) p v) (stderr st).

Definition log (st : state) (e : event) : state :=
  mkState (MEMORY_SIZE st) (mem st) (end_ st) (heap st) (stderr st ++ [e]).

(** ** The functions of myalloc.c *)

(** [init_myalloc]: [malloc_result] is what [malloc(MEMORY_SIZE)] returned and
    [h] the contents of memory at that time.  [None] is [abort()]. *)
Definition init_myalloc (memory_size malloc_result : Z) (h : memory) : option state :=
  if malloc_result =? 0 then None
  else
    let init := malloc_result in
    let h := store_int h init memory_size in
    let init := init + memory_size - sizeof_int in
    let h := store_int h init memory_size in
    let init := init + sizeof_int in
    Some (mkState memory_size malloc_result init h []).

Definition get_header (st : state) (footer : Z) : Z :=
  let size := c_abs (load st footer) in
  footer - size + sizeof_int.

Definition get_footer (st : state) (header : Z) : Z :=
  let size := c_abs (load st header) in
  header + size - sizeof_int.

Definition get_next_header (st : state) (header : Z) : Z :=
  let size := c_abs (load st header) in
  let header := header + size in
  if header >=? end_ st then 0 else header.

(** The test of line 93. *)
Definition fits (st : state) (size header : Z) : bool :=
  (c_abs (load st header) >=? add_int size 8) && (load st header >? 0).

(** The loop of [best_fit_block], started at [header] with [result]. *)
Fixpoint best_fit_loop (fuel : nat) (st : state) (size header result : Z) : option Z :=
  match fuel with
  | O => None
  | S fuel' =>
      if header =? 0 then Some result
      else
        let result :=
          if fits st size header then
            if (if result =? 0 then true
                else c_abs (load st header) <? c_abs (load st result))
            then header else result
          else result in
        best_fit_loop fuel' st size (get_next_header st header) result
  end.

Definition best_fit_block (fuel : nat) (st : state) (size : Z) : option Z :=
  best_fit_loop fuel st size (mem st) 0.

Definition cannot_service : string :=
  "myalloc: cannot service request of size %d
".

(** The padded size [(size + 2 * sizeof(int))], a [size_t]. *)
Definition padded (size : Z) : Z := size_add (to_size_t size) (2 * sizeof_int).

(** The test of line 151. *)
Definition splits (st : state) (size header : Z) : bool :=
  to_size_t (c_abs (load st header)) >=? size_add (to_size_t size) (4 * sizeof_int).

Definition myalloc (fuel : nat) (st : state) (size : Z) : option (state * Z) :=
  match best_fit_block fuel st size with
  | None => None
  | Some header =>
      if header =? 0 then Some (log st (Fprintf cannot_service size), 0)
      else
        let old_header := header in
        if splits st size header then
          let orig_size := c_abs (load st header) in
          let st := store st header (wrap_int (size_mul (padded size) (to_size_t (-1)))) in
          let header := get_footer st header in
          let st := store st header (wrap_int (size_mul (padded size) (to_size_t (-1)))) in
          let header := header + sizeof_int in
          let st := store st header (wrap_int (size_sub (to_size_t orig_size) (padded size))) in
          let header := get_footer st header in
          let st := store st header (wrap_int (size_sub (to_size_t orig_size) (padded size))) in
          Some (st, old_header + sizeof_int)
        else
          let st := store st header (mul_int (load st header) (-1)) in
          let header := get_footer st header in
          let st := store st header (mul_int (load st header) (-1)) in
          Some (st, old_header + sizeof_int)
  end.

(** [back_coalesce] returns the new state and the header of the merged block. *)
Definition back_coalesce (st : state) (header : Z) : state * Z :=
  let right := load st header in
  let header := header - sizeof_int in
  let left := load st header in
  let header := get_header st header in
  let st := store st header (add_int (load st header) right) in
  let header := get_footer st header in
  let st := store st header (add_int (load st header) left) in
  (st, get_header st header).

Definition fwd_coalesce (st : state) (header : Z) : state :=
  let left := load st header in
  let header := get_next_header st header in
  let right := load st header in
  let header := header - sizeof_int in
  let header := get_header st header in
  let st := store st header (add_int (load st header) right) in
  let header := get_footer st header in
  store st header (add_int (load st header) left).

Definition myfree (st : state) (oldptr : Z) : state :=
  let newptr := oldptr - sizeof_int in
  let st := store st newptr (mul_int (load st newptr) (-1)) in
  let newptr := get_footer st newptr in
  let st := store st newptr (mul_int (load st newptr) (-1)) in
  let newptr := get_header st newptr in
  let '(st, newptr) :=
    if negb (newptr =? mem st) then
      if load st (newptr - sizeof_int) >? 0 then back_coalesce st newptr
      else (st, newptr)
    else (st, newptr) in
  let newptr := get_next_header st newptr in
  if negb (newptr =? 0) then
    if load st newptr >? 0 then
      let newptr := newptr - sizeof_int in
      let newptr := get_header st newptr in
      fwd_coalesce st newptr
    else st
  else st.

(** ** Traversal of the pool *)

(** The blocks met by the traversal of [best_fit_block]: header address and
    tag of each. *)
Fixpoint walk (fuel : nat) (st : state) (header : Z) : option (list (Z * Z)) :=
  match fuel with
  | O => None
  | S fuel' =>
      if header =? 0 then Some []
      else
        match walk fuel' st (get_next_header st header) with
        | None => None
        | Some l => Some ((header, load st header) :: l)
        end
  end.

Definition blocks (fuel : nat) (st : state) : option (list (Z * Z)) :=
  walk fuel st (mem st).

(** * Layouts, reachable states and the vocabulary of the claims *)

(** ** The layout of the pool

    A layout is the list of the tags of the blocks, in address order.  A
    positive tag is a free block and a negative one an allocated block; the
    magnitude is the size of the block in bytes, tags included. *)

(** The sum of the sizes of the blocks. *)
Fixpoint total (bs : list Z) : Z :=
  match bs with
  | [] => 0
  | b :: bs' => Z.abs b + total bs'
  end.

(** The blocks of layout [bs] lie in memory from address [a] on, each with its
    tag in its first and in its last word. *)
Fixpoint seg (h : memory) (a : Z) (bs : list Z) : Prop :=
  match bs with
  | [] => True
  | b :: bs' =>
      8 <= Z.abs b /\ load_int h a = b /\ load_int h (a + Z.abs b - 4) = b /\
      seg h (a + Z.abs b) bs'
  end.

(** Header address and tag of each block of a layout that starts at [a]. *)
Fixpoint blocks_from (a : Z) (bs : list Z) : list (Z * Z) :=
  match bs with
  | [] => []
  | b :: bs' => (a, b) :: blocks_from (a + Z.abs b) bs'
  end.

(** No two neighbouring blocks of the layout are both free. *)
Fixpoint no_adjacent_free (bs : list Z) : Prop :=
  match bs with
  | [] => True
  | a :: bs' =>
      match bs' with
      | [] => True
      | b :: _ => ~ (0 < a /\ 0 < b)
      end /\ no_adjacent_free bs'
  end.

(** The payload pointers of the allocated blocks. *)
Fixpoint payloads (a : Z) (bs : list Z) : list Z :=
  match bs with
  | [] => []
  | b :: bs' =>
      (if b <? 0 then [a + 4] else []) ++ payloads (a + Z.abs b) bs'
  end.

(** The state is well formed with layout [bs]. *)
Record wf (st : state) (bs : list Z) : Prop := mkWf {
  wf_mem : 0 < mem st;
  wf_end : end_ st = mem st + MEMORY_SIZE st;
  wf_max : MEMORY_SIZE st <= INT_MAX;
  wf_total : total bs = MEMORY_SIZE st;
  wf_nonempty : bs <> [];
  wf_seg : seg (heap st) (mem st) bs;
  wf_naf : no_adjacent_free bs
}.

(** ** Best-fit search as a fold over the blocks *)

(** The test of line 93 on a tag, with [k] the value of [size + 8]. *)
Definition takes (k t : Z) : bool := (Z.abs t >=? k) && (t >? 0).

(** The loop of [best_fit_block] on the list of the blocks: [acc] is the block
    kept so far, replaced only by a block of strictly smaller size. *)
Fixpoint scan (k : Z) (bl : list (Z * Z)) (acc : option (Z * Z)) : option (Z * Z) :=
  match bl with
  | [] => acc
  | (p, t) :: bl' =>
      scan k bl'
        (if takes k t then
           match acc with
           | None => Some (p, t)
           | Some (_, u) => if Z.abs t <? Z.abs u then Some (p, t) else acc
           end
         else acc)
  end.

(** The pointer that stands for [acc]: null when no block is kept. *)
Definition ptr_of (acc : option (Z * Z)) : Z :=
  match acc with None => 0 | Some (p, _) => p end.

(** The accumulator of [scan] stands for the variable [result] of the loop. *)
Definition acc_ok (st : state) (acc : option (Z * Z)) : Prop :=
  match acc with
  | None => True
  | Some (p, u) => p <> 0 /\ load st p = u /\ Z.abs u <= INT_MAX
  end.

(** ** States and layouts after an operation *)

(** The state after the block at [hd] with tag [t] was split for [size]. *)
Definition split_state (st : state) (size hd t : Z) : state :=
  store (store (store (store st hd (- (size + 8)))
                      (hd + size + 4) (- (size + 8)))
               (hd + size + 8) (t - (size + 8)))
        (hd + t - 4) (t - (size + 8)).

(** The state after the block at [hd] with tag [t] was taken whole. *)
Definition taken_state (st : state) (hd t : Z) : state :=
  store (store st hd (- t)) (hd + t - 4) (- t).

(** The block at [hd] has tag [s] and the block before it tag [l], both free. *)
Definition merged_left (st : state) (hd s l : Z) : state :=
  store (store st (hd - l) (l + s)) (hd + s - 4) (s + l).

(** The block at [cur] has tag [m] and the block after it tag [r], both free. *)
Definition merged_right (st : state) (cur m r : Z) : state :=
  store (store st cur (m + r)) (cur + m + r - 4) (r + m).

(** The tag of the left neighbour as [myfree] reads it: 0 when there is none. *)
Definition left_tag (st : state) (hd : Z) : Z :=
  if hd =? mem st then 0 else load st (hd - 4).

(** The tag of the right neighbour as [myfree] reads it: 0 when there is none. *)
Definition right_tag (st : state) (hd s : Z) : Z :=
  if hd + s >=? end_ st then 0 else load st (hd + s).

(** The state after the allocated block at [hd] of size [s] was freed, with
    [l] and [r] the tags of its neighbours. *)
Definition freed_state (st : state) (hd s l r : Z) : state :=
  let st := store (store st hd s) (hd + s - 4) s in
  let st := if 0 <? l then merged_left st hd s l else st in
  let cur := if 0 <? l then hd - l else hd in
  let m := if 0 <? l then l + s else s in
  if 0 <? r then merged_right st cur m r else st.

(** The layout after the free block [t], found after the blocks [xs], was
    allocated for [size]. *)
Definition alloc_layout (size : Z) (xs : list Z) (t : Z) (ys : list Z) : list Z :=
  xs ++ (if size + 16 <=? t then [- (size + 8); t - (size + 8)] else [- t]) ++ ys.

(** The state after that allocation: the test of line 151 decides. *)
Definition alloc_state (st : state) (size hd t : Z) : state :=
  if size + 16 <=? t then split_state st size hd t else taken_state st hd t.

(** The blocks before and after the freed one that stay as they are. *)
Definition keep_left (xs : list Z) : list Z :=
  if 0 <? last xs 0 then removelast xs else xs.

Definition keep_right (ys : list Z) : list Z :=
  if 0 <? hd 0 ys then tl ys else ys.

(** The layout after the allocated block of size [s], found after the blocks
    [xs] and before the blocks [ys], was freed. *)
Definition free_layout (xs : list Z) (s : Z) (ys : list Z) : list Z :=
  keep_left xs ++ [Z.max 0 (last xs 0) + s + Z.max 0 (hd 0 ys)] ++ keep_right ys.

(** ** Reachable states *)

(** The traversal of [st] ends and meets the blocks [bl]. *)
Definition has_blocks (st : state) (bl : list (Z * Z)) : Prop :=
  forall fuel, (List.length bl < fuel)%nat -> blocks fuel st = Some bl.

(** [st0] is the state after a call of [init_myalloc] that returned, on a pool
    with room for the two tags of a block. *)
Definition initial (st0 : state) : Prop :=
  exists memory_size malloc_result h,
    8 <= memory_size <= INT_MAX /\ 0 < malloc_result /\
    init_myalloc memory_size malloc_result h = Some st0.

(** [reach st0 st live]: [st] is reached from [st0] by calls of [myalloc] with
    a positive size and calls of [myfree] on pointers that [myalloc] returned
    and that were not freed since; [live] lists these pointers. *)
Inductive reach (st0 : state) : state -> list Z -> Prop :=
| reach_init : reach st0 st0 []
| reach_alloc st live fuel size st' p :
    reach st0 st live -> 0 < size <= INT_MAX ->
    myalloc fuel st size = Some (st', p) ->
    reach st0 st' (if p =? 0 then live else p :: live)
| reach_free st live p :
    reach st0 st live -> In p live ->
    reach st0 (myfree st p) (remove Z.eq_dec p live).

(** The invariant of the reachable states. *)
Record inv (st0 st : state) (live : list Z) (bs : list Z) : Prop := mkInv {
  inv_wf : wf st bs;
  inv_live : forall q, In q live <-> In q (payloads (mem st) bs);
  inv_mem : mem st = mem st0;
  inv_size : MEMORY_SIZE st = MEMORY_SIZE st0
}.

(** ** Vocabulary of the claims *)

(** The blocks of the traversal tile the range from [a] to [e]. *)
Fixpoint tiles (a : Z) (bl : list (Z * Z)) (e : Z) : Prop :=
  match bl with
  | [] => a = e
  | (p, t) :: bl' => p = a /\ 0 < Z.abs t /\ tiles (a + Z.abs t) bl' e
  end.

(** A free block with room for [size] bytes between its two tags. *)
Definition eligible (size t : Z) : Prop := 0 < t /\ size + 2 * sizeof_int <= Z.abs t.

(** [a] is a byte of the header or of the footer of the block at [q]. *)
Definition tag_word (st : state) (q a : Z) : Prop :=
  q <= a < q + sizeof_int \/ get_footer st q <= a < get_footer st q + sizeof_int.

(** ** Example states *)

Definition zero_memory : memory := fun _ => 0.

(** The state after [init_myalloc] with [MEMORY_SIZE = capacity], when
    [malloc] returned address 4096 and the memory held zeros. *)
Definition pool (capacity : Z) : state :=
  match init_myalloc capacity 4096 zero_memory with
  | Some st => st
  | None => mkState 0 0 0 zero_memory []
  end.

(** The state after [myalloc(size)]. *)
Definition alloc_in (st : state) (fuel : nat) (size : Z) : state :=
  match myalloc fuel st size with
  | Some (st', _) => st'
  | None => st
  end.

(** A pool of 240 bytes with free blocks of 128, 64 and 16 bytes between
    allocated blocks: four calls of [myalloc], two of [myfree]. *)
Definition frag1 : state := alloc_in (pool 240) 6 120.
Definition frag2 : state := alloc_in frag1 6 8.
Definition frag3 : state := alloc_in frag2 6 56.
Definition frag4 : state := alloc_in frag3 6 8.
Definition frag5 : state := myfree frag4 4100.
Definition fragmented : state := myfree frag5 4244.

(** ** Vocabulary of the further properties *)

(** [reach_words st0 st live]: as [reach], with every requested size a
    multiple of [sizeof(int)]. *)
Inductive reach_words (st0 : state) : state -> list Z -> Prop :=
| words_init : reach_words st0 st0 []
| words_alloc st live fuel size st' p :
    reach_words st0 st live -> 0 < size <= INT_MAX -> (sizeof_int | size) ->
    myalloc fuel st size = Some (st', p) ->
    reach_words st0 st' (if p =? 0 then live else p :: live)
| words_free st live p :
    reach_words st0 st live -> In p live ->
    reach_words st0 (myfree st p) (remove Z.eq_dec p live).

(** Header address and tag of the allocated blocks of a layout. *)
Fixpoint allocs (a : Z) (bs : list Z) : list (Z * Z) :=
  match bs with
  | [] => []
  | b :: bs' => (if b <? 0 then [(a, b)] else []) ++ allocs (a + Z.abs b) bs'
  end.

(** The pool of 128 bytes after [myalloc(20)], with the tags of the allocated
    block made positive: two free blocks side by side, as inside [myfree]. *)
Definition two_free : state :=
  store (store (alloc_in (pool 128) 2 20) 4096 28) 4120 28.

(** * Lemmas *)

(** ** Facts about machine integers *)

Lemma wrap_int_range z : INT_MIN <= wrap_int z <= INT_MAX.
Proof.
  unfold wrap_int, INT_MIN, INT_MAX.
  pose proof (Z.mod_pos_bound (z + 2147483648) 4294967296). lia.
Qed.

Lemma wrap_int_id z : INT_MIN <= z <= INT_MAX -> wrap_int z = z.
Proof.
  unfold wrap_int, INT_MIN, INT_MAX. intros H.
  rewrite Z.mod_small by lia. lia.
Qed.

Lemma wrap_int_shift z k : wrap_int (z + k * 4294967296) = wrap_int z.
Proof.
  unfold wrap_int.
  replace (z + k * 4294967296 + 2147483648) with (z + 2147483648 + k * 4294967296) by lia.
  now rewrite Z.mod_add by lia.
Qed.

Lemma to_size_t_id z : 0 <= z < 18446744073709551616 -> to_size_t z = z.
Proof. intros H. unfold to_size_t. now rewrite Z.mod_small. Qed.

Lemma c_abs_id z : - INT_MAX <= z <= INT_MAX -> c_abs z = Z.abs z.
Proof. intros H. unfold c_abs. apply wrap_int_id. unfold INT_MIN, INT_MAX in *. lia. Qed.

Lemma padded_id size : 0 < size <= INT_MAX -> padded size = size + 8.
Proof.
  unfold INT_MAX. intros H. unfold padded, size_add, sizeof_int.
  rewrite (to_size_t_id size) by lia. apply to_size_t_id. lia.
Qed.

(** [(size + 2 * sizeof(int)) * -1] stored into an [int]. *)
Lemma neg_padded size :
  0 < size -> size + 8 <= INT_MAX ->
  wrap_int (size_mul (padded size) (to_size_t (-1))) = - (size + 8).
Proof.
  unfold INT_MAX. intros H1 H2.
  rewrite padded_id by (unfold INT_MAX; lia).
  unfold size_mul, to_size_t.
  change (-1 mod 18446744073709551616) with 18446744073709551615.
  replace ((size + 8) * 18446744073709551615)
    with (18446744073709551616 - (size + 8) + (size + 8 - 1) * 18446744073709551616) by lia.
  rewrite Z.mod_add by lia. rewrite Z.mod_small by lia.
  replace (18446744073709551616 - (size + 8))
    with (- (size + 8) + 4294967296 * 4294967296) by lia.
  rewrite wrap_int_shift. apply wrap_int_id. unfold INT_MIN, INT_MAX. lia.
Qed.

(** [orig_size - (size + 2 * sizeof(int))] stored into an [int]. *)
Lemma rest_padded size orig :
  0 < size -> size + 8 <= orig -> orig <= INT_MAX ->
  wrap_int (size_sub (to_size_t orig) (padded size)) = orig - (size + 8).
Proof.
  unfold INT_MAX. intros H1 H2 H3.
  rewrite padded_id by (unfold INT_MAX; lia).
  unfold size_sub. rewrite (to_size_t_id orig) by lia.
  rewrite to_size_t_id by lia.
  apply wrap_int_id. unfold INT_MIN, INT_MAX. lia.
Qed.

(** ** Facts about memory *)

Lemma load_int_range h p : INT_MIN <= load_int h p <= INT_MAX.
Proof. apply wrap_int_range. Qed.

Lemma store_int_other h p v a : a < p \/ p + 4 <= a -> store_int h p v a = h a.
Proof.
  intros H. unfold store_int.
  destruct (p <=? a) eqn:E1; destruct (a <? p + 4) eqn:E2; simpl; try reflexivity; lia.
Qed.

Lemma store_int_at h p v i : 0 <= i < 4 -> store_int h p v (p + i) = byte_of v i.
Proof.
  intros H. unfold store_int.
  destruct (p <=? p + i) eqn:E1; destruct (p + i <? p + 4) eqn:E2; simpl; try lia.
  f_equal. lia.
Qed.

Lemma load_int_ext h h' p :
  (forall a, p <= a < p + 4 -> h' a = h a) -> load_int h' p = load_int h p.
Proof.
  intros H. unfold load_int. rewrite !H by lia. reflexivity.
Qed.

Lemma bytes_of_int v :
  byte_of v 0 + 256 * byte_of v 1 + 65536 * byte_of v 2 + 16777216 * byte_of v 3
  = v mod 4294967296.
Proof.
  unfold byte_of. change (256 ^ 0) with 1. change (256 ^ 1) with 256.
  change (256 ^ 2) with 65536. change (256 ^ 3) with 16777216.
  rewrite Z.div_1_r.
  pose proof (Z.div_mod v 256 ltac:(lia)) as E1.
  pose proof (Z.mod_pos_bound v 256 ltac:(lia)) as B1.
  pose proof (Z.div_mod (v / 256) 256 ltac:(lia)) as E2.
  pose proof (Z.mod_pos_bound (v / 256) 256 ltac:(lia)) as B2.
  pose proof (Z.div_mod (v / 256 / 256) 256 ltac:(lia)) as E3.
  pose proof (Z.mod_pos_bound (v / 256 / 256) 256 ltac:(lia)) as B3.
  pose proof (Z.div_mod (v / 256 / 256 / 256) 256 ltac:(lia)) as E4.
  pose proof (Z.mod_pos_bound (v / 256 / 256 / 256) 256 ltac:(lia)) as B4.
  assert (D2 : v / 65536 = v / 256 / 256) by (rewrite Z.div_div by lia; reflexivity).
  assert (D3 : v / 16777216 = v / 256 / 256 / 256)
    by (rewrite !Z.div_div by lia; reflexivity).
  rewrite D2, D3.
  apply Z.mod_unique_pos with (q := v / 256 / 256 / 256 / 256); lia.
Qed.

Lemma load_store_same h p v : load_int (store_int h p v) p = wrap_int v.
Proof.
  unfold load_int.
  replace (store_int h p v p) with (store_int h p v (p + 0)) by (f_equal; lia).
  rewrite !store_int_at by lia.
  assert (M : forall i, byte_of v i mod 256 = byte_of v i).
  { intros i. unfold byte_of. apply Z.mod_mod. lia. }
  rewrite !M, bytes_of_int.
  pose proof (Z.div_mod v 4294967296 ltac:(lia)) as E.
  replace (v mod 4294967296) with (v + (- (v / 4294967296)) * 4294967296) by lia.
  apply wrap_int_shift.
Qed.

Lemma load_store_other h p v q :
  q + 4 <= p \/ p + 4 <= q -> load_int (store_int h p v) q = load_int h q.
Proof.
  intros H. apply load_int_ext. intros a Ha. apply store_int_other. lia.
Qed.

(** The same facts for states. *)

Lemma load_range st p : INT_MIN <= load st p <= INT_MAX.
Proof. apply load_int_range. Qed.

Lemma load_store st p v : INT_MIN <= v <= INT_MAX -> load (store st p v) p = v.
Proof. intros H. unfold load, store; simpl. rewrite load_store_same. now apply wrap_int_id. Qed.

Lemma load_store_far st p v q :
  q + 4 <= p \/ p + 4 <= q -> load (store st p v) q = load st q.
Proof. intros H. unfold load, store; simpl. now apply load_store_other. Qed.

(** ** Layouts *)

Lemma total_app xs ys : total (xs ++ ys) = total xs + total ys.
Proof. induction xs as [|x xs IH]; simpl; lia. Qed.

Lemma total_nonneg bs : 0 <= total bs.
Proof. induction bs as [|b bs IH]; simpl; lia. Qed.

Lemma seg_app h xs : forall a ys,
  seg h a (xs ++ ys) <-> seg h a xs /\ seg h (a + total xs) ys.
Proof.
  induction xs as [|x xs IH]; intros a ys; simpl.
  - rewrite Z.add_0_r. tauto.
  - rewrite IH. rewrite Z.add_assoc. tauto.
Qed.

Lemma seg_total_pos h a bs : seg h a bs -> bs <> [] -> 8 <= total bs.
Proof.
  destruct bs as [|b bs]; [congruence|]. simpl. intros (H & _) _.
  pose proof (total_nonneg bs). lia.
Qed.

Lemma seg_frame h h' bs : forall a,
  (forall x, a <= x < a + total bs -> h' x = h x) ->
  seg h a bs -> seg h' a bs.
Proof.
  induction bs as [|b bs IH]; intros a E; simpl; [tauto|].
  intros (H8 & Hh & Hf & Hs). simpl in E. pose proof (total_nonneg bs).
  repeat split; trivial.
  - rewrite (load_int_ext h h'); trivial. intros x Hx. apply E. lia.
  - rewrite (load_int_ext h h'); trivial. intros x Hx. apply E. lia.
  - apply IH; trivial. intros x Hx. apply E. lia.
Qed.

Lemma seg_In h bs : forall a b, seg h a bs -> In b bs -> 8 <= Z.abs b <= total bs.
Proof.
  induction bs as [|c bs IH]; intros a b Hs Hin; [contradiction|].
  simpl in *. destruct Hs as (H8 & _ & _ & Hs). pose proof (total_nonneg bs).
  destruct Hin as [->|Hin]; [lia|]. specialize (IH _ _ Hs Hin). lia.
Qed.

(** The footer of the last block of a segment is the word before its end. *)
Lemma seg_last h xs b : forall a,
  seg h a (xs ++ [b]) ->
  8 <= Z.abs b /\ load_int h (a + total xs) = b /\
  load_int h (a + total xs + Z.abs b - 4) = b.
Proof.
  intros a H. apply seg_app in H. destruct H as (_ & H). simpl in H. tauto.
Qed.

Lemma no_adjacent_free_app xs : forall y ys,
  no_adjacent_free (xs ++ y :: ys) <->
  no_adjacent_free (xs ++ [y]) /\ no_adjacent_free (y :: ys).
Proof.
  induction xs as [|x xs IH]; intros y ys.
  - simpl. tauto.
  - change ((x :: xs) ++ y :: ys) with (x :: (xs ++ y :: ys)).
    change ((x :: xs) ++ [y]) with (x :: (xs ++ [y])).
    cbn [no_adjacent_free]. rewrite IH.
    destruct xs as [|x' xs]; simpl; tauto.
Qed.

Lemma blocks_from_app xs : forall a ys,
  blocks_from a (xs ++ ys) = blocks_from a xs ++ blocks_from (a + total xs) ys.
Proof.
  induction xs as [|x xs IH]; intros a ys; simpl.
  - now rewrite Z.add_0_r.
  - rewrite IH. now rewrite Z.add_assoc.
Qed.

Lemma blocks_from_length a bs : List.length (blocks_from a bs) = List.length bs.
Proof. revert a; induction bs as [|b bs IH]; intros a; simpl; auto. Qed.

Lemma blocks_from_tags bs : forall a, map snd (blocks_from a bs) = bs.
Proof. induction bs as [|b bs IH]; intros a; simpl; [|rewrite IH]; reflexivity. Qed.

(** A block of the list comes from a position of the layout. *)
Lemma blocks_from_split bs : forall a l1 p t l2,
  blocks_from a bs = l1 ++ (p, t) :: l2 ->
  exists xs ys, bs = xs ++ t :: ys /\ p = a + total xs /\
                l1 = blocks_from a xs /\ l2 = blocks_from (p + Z.abs t) ys.
Proof.
  induction bs as [|b bs IH]; intros a l1 p t l2 E.
  - destruct l1; discriminate.
  - destruct l1 as [|c l1]; simpl in E.
    + injection E as <- <- <-. exists [], bs. simpl. rewrite Z.add_0_r. auto.
    + injection E as <- E. apply IH in E.
      destruct E as (xs & ys & -> & -> & -> & ->).
      exists (b :: xs), ys. simpl. rewrite Z.add_assoc. auto.
Qed.

(** ** The traversal on a well-formed pool *)

Section Traversal.

Variable st : state.

Lemma c_abs_tag b : Z.abs b <= INT_MAX -> c_abs b = Z.abs b.
Proof. intros H. apply c_abs_id. lia. Qed.

Lemma get_next_header_seg a b bs :
  seg (heap st) a (b :: bs) -> a + total (b :: bs) = end_ st ->
  total (b :: bs) <= INT_MAX ->
  get_next_header st a = match bs with [] => 0 | _ => a + Z.abs b end.
Proof.
  simpl. intros (H8 & Hh & _ & Hs) He Hm. pose proof (total_nonneg bs).
  unfold get_next_header, load. rewrite Hh, c_abs_tag by lia.
  destruct bs as [|c bs].
  - simpl in He. destruct (a + Z.abs b >=? end_ st) eqn:E; [reflexivity|lia].
  - assert (8 <= total (c :: bs)) by (eapply seg_total_pos; [eassumption|congruence]).
    destruct (a + Z.abs b >=? end_ st) eqn:E; [lia|reflexivity].
Qed.

Lemma walk_seg bs : forall a fuel,
  seg (heap st) a bs -> bs <> [] -> 0 < a -> a + total bs = end_ st ->
  total bs <= INT_MAX -> (List.length bs < fuel)%nat ->
  walk fuel st a = Some (blocks_from a bs).
Proof.
  induction bs as [|b bs IH]; intros a fuel Hs Hne Ha He Hm Hf; [congruence|].
  destruct fuel as [|fuel]; [simpl in Hf; lia|].
  cbn [walk]. destruct (a =? 0) eqn:E0; [lia|].
  rewrite (get_next_header_seg a b bs) by assumption.
  pose proof Hs as Hs'. simpl in Hs'. destruct Hs' as (H8 & Hh & _ & Hs').
  simpl in He, Hm, Hf. pose proof (total_nonneg bs).
  destruct bs as [|c bs].
  - destruct fuel as [|fuel]; [simpl in Hf; lia|]. simpl. unfold load. now rewrite Hh.
  - rewrite IH; try assumption; try congruence; try lia.
    cbn [blocks_from]. unfold load. now rewrite Hh.
Qed.

End Traversal.

Lemma wf_blocks st bs fuel :
  wf st bs -> (List.length bs < fuel)%nat ->
  blocks fuel st = Some (blocks_from (mem st) bs).
Proof.
  intros W Hf. destruct W. unfold blocks. apply walk_seg; trivial; lia.
Qed.

(** If the traversal ends, more fuel does not change what it returns. *)
Lemma walk_fuel st : forall fuel fuel' a l,
  walk fuel st a = Some l -> (fuel <= fuel')%nat -> walk fuel' st a = Some l.
Proof.
  induction fuel as [|fuel IH]; intros fuel' a l H Hle; [discriminate|].
  destruct fuel' as [|fuel']; [lia|]. cbn [walk] in *.
  destruct (a =? 0); trivial.
  destruct (walk fuel st (get_next_header st a)) as [l'|] eqn:E; [|discriminate].
  rewrite (IH fuel' _ l') by (trivial; lia). assumption.
Qed.

(** ** Best-fit search: the loop computes the fold *)

(** What [scan] returns: the accumulator, when no block of the list beats it,
    or the first block among those of least size that the test takes. *)
Lemma scan_spec k bl : forall acc,
  (scan k bl acc = acc /\
   forall p t, In (p, t) bl -> takes k t = true ->
               exists q u, acc = Some (q, u) /\ Z.abs u <= Z.abs t)
  \/
  (exists l1 p t l2,
     bl = l1 ++ (p, t) :: l2 /\ scan k bl acc = Some (p, t) /\ takes k t = true /\
     (forall q u, acc = Some (q, u) -> Z.abs t < Z.abs u) /\
     (forall p' t', In (p', t') l1 -> takes k t' = true -> Z.abs t < Z.abs t') /\
     (forall p' t', In (p', t') l2 -> takes k t' = true -> Z.abs t <= Z.abs t')).
Proof.
  induction bl as [|[p t] bl IH]; intros acc.
  - left. simpl. split; [reflexivity|contradiction].
  - cbn [scan].
    set (acc' := if takes k t then
                   match acc with
                   | None => Some (p, t)
                   | Some (_, u) => if Z.abs t <? Z.abs u then Some (p, t) else acc
                   end
                 else acc).
    assert (Hacc : (acc' = acc /\
                    (takes k t = true -> exists q u, acc = Some (q, u) /\ Z.abs u <= Z.abs t))
                   \/ (acc' = Some (p, t) /\ takes k t = true /\
                       forall q u, acc = Some (q, u) -> Z.abs t < Z.abs u)).
    { subst acc'. destruct (takes k t) eqn:Et.
      - destruct acc as [[q u]|].
        + destruct (Z.abs t <? Z.abs u) eqn:Elt.
          * right. repeat split; trivial. intros q' u' [= <- <-]. lia.
          * left. split; trivial. intros _. exists q, u. split; trivial. lia.
        + right. repeat split; trivial. intros q u [=].
      - left. split; trivial. intros [=]. }
    destruct (IH acc') as [(Es & Hall)|(l1 & p2 & t2 & l2 & Ebl & Es & Et2 & Hacc2 & Hl1 & Hl2)].
    + destruct Hacc as [(Ea & Hhd)|(Ea & Et & Hbeat)].
      * left. rewrite Es, Ea. split; trivial.
        intros p' t' [[= <- <-]|Hin] Ht'; [auto|].
        rewrite <- Ea. eauto.
      * right. exists [], p, t, bl. rewrite Es.
        split; [reflexivity|]. split; [assumption|]. split; [assumption|].
        split; [assumption|]. split; [intros p' t' []|].
        intros p' t' Hin Ht'. destruct (Hall _ _ Hin Ht') as (q & u & E & Hle).
        rewrite Ea in E. injection E as <- <-. assumption.
    + right. exists ((p, t) :: l1), p2, t2, l2.
      split; [now rewrite Ebl|]. split; [assumption|]. split; [assumption|].
      split; [|split; [|assumption]].
      * intros q u Eacc. destruct Hacc as [(Ea & _)|(Ea & _ & Hbeat)].
        -- apply (Hacc2 q u). congruence.
        -- specialize (Hacc2 _ _ Ea). specialize (Hbeat _ _ Eacc). lia.
      * intros p' t' [[= <- <-]|Hin] Ht'; [|eauto].
        destruct Hacc as [(Ea & Hhd)|(Ea & _ & _)].
        -- destruct (Hhd Ht') as (q & u & E & Hle).
           rewrite <- Ea in E. specialize (Hacc2 _ _ E). lia.
        -- specialize (Hacc2 _ _ Ea). lia.
Qed.

Lemma best_fit_loop_seg st size bs : forall a fuel acc,
  seg (heap st) a bs -> bs <> [] -> 0 < a -> a + total bs = end_ st ->
  total bs <= INT_MAX -> (List.length bs < fuel)%nat -> acc_ok st acc ->
  best_fit_loop fuel st size a (ptr_of acc)
  = Some (ptr_of (scan (add_int size 8) (blocks_from a bs) acc)).
Proof.
  induction bs as [|b bs IH]; intros a fuel acc Hs Hne Ha He Hm Hf Hacc; [congruence|].
  destruct fuel as [|fuel]; [simpl in Hf; lia|].
  cbn [best_fit_loop blocks_from scan]. destruct (a =? 0) eqn:E0; [lia|].
  rewrite (get_next_header_seg st a b bs) by assumption.
  pose proof Hs as Hs'. simpl in Hs'. destruct Hs' as (H8 & Hh & _ & Hs').
  simpl in He, Hm, Hf. pose proof (total_nonneg bs).
  assert (Hb : c_abs b = Z.abs b) by (apply c_abs_tag; lia).
  set (acc' := if takes (add_int size 8) b then
                 match acc with
                 | None => Some (a, b)
                 | Some (_, u) => if Z.abs b <? Z.abs u then Some (a, b) else acc
                 end
               else acc).
  assert (Hr : (if fits st size a then
                  if (if ptr_of acc =? 0 then true
                      else c_abs (load st a) <? c_abs (load st (ptr_of acc)))
                  then a else ptr_of acc
                else ptr_of acc) = ptr_of acc').
  { subst acc'. unfold fits, takes. change (load st a) with (load_int (heap st) a).
    rewrite Hh, Hb.
    destruct ((Z.abs b >=? add_int size 8) && (b >? 0)); [|reflexivity].
    destruct acc as [[p u]|]; cbn [ptr_of acc_ok] in *; [|reflexivity].
    destruct Hacc as (Hp & Hu & Hum).
    destruct (p =? 0) eqn:Ep; [lia|]. rewrite Hu, (c_abs_tag u) by assumption.
    destruct (Z.abs b <? Z.abs u); reflexivity. }
  rewrite Hr.
  assert (Hacc' : acc_ok st acc').
  { subst acc'. destruct (takes (add_int size 8) b); trivial.
    assert (acc_ok st (Some (a, b))) by (simpl; unfold load; repeat split; trivial; lia).
    destruct acc as [[p u]|]; trivial. destruct (Z.abs b <? Z.abs u); trivial. }
  destruct bs as [|c bs].
  - destruct fuel as [|fuel]; [simpl in Hf; lia|]. reflexivity.
  - apply IH; trivial; try congruence; lia.
Qed.

Lemma best_fit_block_wf st bs size fuel :
  wf st bs -> (List.length bs < fuel)%nat ->
  best_fit_block fuel st size
  = Some (ptr_of (scan (add_int size 8) (blocks_from (mem st) bs) None)).
Proof.
  intros W Hf. destruct W. unfold best_fit_block.
  apply (best_fit_loop_seg st size bs (mem st) fuel None); simpl; trivial; lia.
Qed.

(** The block that the search returns, located in the layout. *)
Lemma best_fit_block_cases st bs size fuel :
  wf st bs -> (List.length bs < fuel)%nat ->
  (best_fit_block fuel st size = Some 0 /\
   forall t, In t bs -> takes (add_int size 8) t = false)
  \/
  (exists xs t ys,
     bs = xs ++ t :: ys /\
     best_fit_block fuel st size = Some (mem st + total xs) /\
     takes (add_int size 8) t = true /\
     (forall t', In t' xs -> takes (add_int size 8) t' = true -> Z.abs t < Z.abs t') /\
     (forall t', In t' ys -> takes (add_int size 8) t' = true -> Z.abs t <= Z.abs t')).
Proof.
  intros W Hf. rewrite (best_fit_block_wf st bs size fuel W Hf).
  destruct (scan_spec (add_int size 8) (blocks_from (mem st) bs) None)
    as [(Es & Hall)|(l1 & p & t & l2 & Ebl & Es & Et & _ & Hl1 & Hl2)].
  - left. rewrite Es. split; [reflexivity|]. intros t Hin.
    destruct (takes (add_int size 8) t) eqn:Et; trivial.
    apply in_split in Hin. destruct Hin as (xs & ys & ->).
    destruct (Hall (mem st + total xs) t) as (q & u & [=] & _); trivial.
    rewrite blocks_from_app. apply in_or_app. right. left. reflexivity.
  - right. apply blocks_from_split in Ebl. destruct Ebl as (xs & ys & -> & -> & -> & ->).
    exists xs, t, ys. rewrite Es. repeat split; trivial.
    + intros t' Hin Ht'. apply in_split in Hin. destruct Hin as (x1 & x2 & ->).
      apply (Hl1 (mem st + total x1) t'); trivial.
      rewrite blocks_from_app. apply in_or_app. right. left. reflexivity.
    + intros t' Hin Ht'. apply in_split in Hin. destruct Hin as (y1 & y2 & ->).
      apply (Hl2 (mem st + total xs + Z.abs t + total y1) t'); trivial.
      rewrite blocks_from_app. apply in_or_app. right. left. reflexivity.
Qed.

(** ** [myalloc] in closed form *)

Ltac int_range := unfold INT_MIN, INT_MAX in *; lia.

Lemma get_footer_tag st p v :
  load st p = v -> Z.abs v <= INT_MAX -> get_footer st p = p + Z.abs v - 4.
Proof. intros H Hv. unfold get_footer, sizeof_int. now rewrite H, c_abs_tag. Qed.

Lemma get_header_tag st p v :
  load st p = v -> Z.abs v <= INT_MAX -> get_header st p = p - Z.abs v + 4.
Proof. intros H Hv. unfold get_header, sizeof_int. now rewrite H, c_abs_tag. Qed.

Lemma splits_tag st size hd t :
  load st hd = t -> 0 < t -> 0 < size <= INT_MAX ->
  splits st size hd = (size + 16 <=? t).
Proof.
  intros Hl Ht Hs. pose proof (load_range st hd).
  unfold splits, size_add, sizeof_int. rewrite Hl, c_abs_tag by int_range.
  rewrite Z.abs_eq by lia.
  rewrite (to_size_t_id t), (to_size_t_id size) by int_range.
  rewrite to_size_t_id by int_range.
  change (4 * 4) with 16.
  destruct (t >=? size + 16) eqn:E1; destruct (size + 16 <=? t) eqn:E2; trivial; lia.
Qed.

Lemma myalloc_found st size fuel hd t :
  best_fit_block fuel st size = Some hd -> hd <> 0 ->
  load st hd = t -> load st (hd + t - 4) = t -> 8 <= t ->
  0 < size <= INT_MAX ->
  myalloc fuel st size
  = Some (if size + 16 <=? t then split_state st size hd t else taken_state st hd t,
          hd + 4).
Proof.
  intros Hb Hnz Hh Hf Ht Hs. pose proof (load_range st hd) as Hr. rewrite Hh in Hr.
  unfold myalloc. rewrite Hb. destruct (hd =? 0) eqn:E0; [lia|].
  rewrite (splits_tag st size hd t) by (trivial; lia).
  destruct (size + 16 <=? t) eqn:Esp.
  - cbv zeta. unfold split_state.
    rewrite Hh, (c_abs_tag t), (Z.abs_eq t) by int_range.
    rewrite neg_padded by int_range.
    rewrite rest_padded by int_range.
    rewrite (get_footer_tag _ hd (- (size + 8)))
      by (try apply load_store; int_range).
    replace (hd + Z.abs (- (size + 8)) - 4) with (hd + size + 4) by lia.
    unfold sizeof_int.
    replace (hd + size + 4 + 4) with (hd + size + 8) by lia.
    rewrite (get_footer_tag _ (hd + size + 8) (t - (size + 8)))
      by (try apply load_store; int_range).
    replace (hd + size + 8 + Z.abs (t - (size + 8)) - 4) with (hd + t - 4) by lia.
    reflexivity.
  - cbv zeta. unfold taken_state, sizeof_int.
    rewrite Hh. unfold mul_int.
    replace (t * -1) with (- t) by lia. rewrite (wrap_int_id (- t)) by int_range.
    rewrite (get_footer_tag _ hd (- t)) by (try apply load_store; int_range).
    replace (hd + Z.abs (- t) - 4) with (hd + t - 4) by lia.
    rewrite load_store_far by lia. rewrite Hf.
    replace (t * -1) with (- t) by lia. rewrite (wrap_int_id (- t)) by int_range.
    reflexivity.
Qed.

Lemma myalloc_none st size fuel :
  best_fit_block fuel st size = Some 0 ->
  myalloc fuel st size = Some (log st (Fprintf cannot_service size), 0).
Proof. intros H. unfold myalloc. now rewrite H. Qed.

(** ** [myfree] in closed form *)

Ltac loads :=
  repeat first [ rewrite load_store by int_range
               | rewrite load_store_far by lia ].

Lemma back_coalesce_closed st hd s l :
  load st hd = s -> load st (hd + s - 4) = s -> 8 <= s ->
  load st (hd - 4) = l -> load st (hd - l) = l -> 8 <= l ->
  l + s <= INT_MAX ->
  back_coalesce st hd = (merged_left st hd s l, hd - l).
Proof.
  intros Hh Hf Hs Hlf Hlh Hl Hm.
  unfold back_coalesce, merged_left. cbv zeta. unfold sizeof_int.
  rewrite Hh, Hlf.
  rewrite (get_header_tag st (hd - 4) l) by (trivial; int_range).
  replace (hd - 4 - Z.abs l + 4) with (hd - l) by lia.
  rewrite Hlh. unfold add_int. rewrite (wrap_int_id (l + s)) by int_range.
  rewrite (get_footer_tag _ (hd - l) (l + s)) by (try apply load_store; int_range).
  replace (hd - l + Z.abs (l + s) - 4) with (hd + s - 4) by lia.
  rewrite (load_store_far st (hd - l)) by lia. rewrite Hf.
  rewrite (wrap_int_id (s + l)) by int_range.
  rewrite (get_header_tag _ (hd + s - 4) (s + l)) by (try apply load_store; int_range).
  f_equal. lia.
Qed.

Lemma fwd_coalesce_closed st cur m r :
  load st cur = m -> load st (cur + m - 4) = m -> 8 <= m ->
  cur + m < end_ st ->
  load st (cur + m) = r -> load st (cur + m + r - 4) = r -> 8 <= r ->
  m + r <= INT_MAX ->
  fwd_coalesce st cur = merged_right st cur m r.
Proof.
  intros Hh Hf Hm He Hrh Hrf Hr Hmax.
  assert (Hn : get_next_header st cur = cur + m).
  { unfold get_next_header. rewrite Hh, c_abs_tag, Z.abs_eq by int_range.
    destruct (cur + m >=? end_ st) eqn:E; [lia|reflexivity]. }
  unfold fwd_coalesce, merged_right. cbv zeta. unfold sizeof_int.
  rewrite Hn, Hh, Hrh.
  rewrite (get_header_tag st (cur + m - 4) m) by (trivial; int_range).
  replace (cur + m - 4 - Z.abs m + 4) with cur by lia.
  rewrite Hh. unfold add_int. rewrite (wrap_int_id (m + r)) by int_range.
  rewrite (get_footer_tag _ cur (m + r)) by (try apply load_store; int_range).
  replace (cur + Z.abs (m + r) - 4) with (cur + m + r - 4) by lia.
  rewrite (load_store_far st cur) by lia. rewrite Hrf.
  rewrite (wrap_int_id (r + m)) by int_range.
  reflexivity.
Qed.

Lemma myfree_closed st hd s :
  0 < hd ->
  load st hd = - s -> load st (hd + s - 4) = - s -> 8 <= s ->
  (0 < left_tag st hd ->
   8 <= left_tag st hd /\ load st (hd - left_tag st hd) = left_tag st hd) ->
  (0 < right_tag st hd s ->
   8 <= right_tag st hd s /\
   load st (hd + s + right_tag st hd s - 4) = right_tag st hd s) ->
  Z.max 0 (left_tag st hd) + s + Z.max 0 (right_tag st hd s) <= INT_MAX ->
  myfree st (hd + 4) = freed_state st hd s (left_tag st hd) (right_tag st hd s).
Proof.
  intros Hpos Hh Hf Hs HL HR Hmax.
  set (l := left_tag st hd) in *. set (r := right_tag st hd s) in *.
  unfold myfree, freed_state. cbv zeta. unfold sizeof_int.
  replace (hd + 4 - 4) with hd by lia.
  rewrite Hh. unfold mul_int.
  replace (- s * -1) with s by lia. rewrite (wrap_int_id s) by int_range.
  rewrite (get_footer_tag _ hd s) by (try apply load_store; int_range).
  replace (hd + Z.abs s - 4) with (hd + s - 4) by lia.
  rewrite (load_store_far st hd) by lia. rewrite Hf.
  replace (- s * -1) with s by lia. rewrite (wrap_int_id s) by int_range.
  set (st2 := store (store st hd s) (hd + s - 4) s).
  assert (H2h : load st2 hd = s) by (subst st2; loads; reflexivity).
  assert (H2f : load st2 (hd + s - 4) = s) by (subst st2; loads; reflexivity).
  rewrite (get_header_tag st2 (hd + s - 4) s) by (trivial; int_range).
  replace (hd + s - 4 - Z.abs s + 4) with hd by lia.
  change (mem st2) with (mem st).
  assert (Hl2 : (if negb (hd =? mem st)
                 then if load st2 (hd - 4) >? 0 then back_coalesce st2 hd else (st2, hd)
                 else (st2, hd))
                = (if 0 <? l then merged_left st2 hd s l else st2,
                   if 0 <? l then hd - l else hd)).
  { subst l. unfold left_tag in *. destruct (hd =? mem st) eqn:Em; simpl; [reflexivity|].
    assert (E : load st2 (hd - 4) = load st (hd - 4)) by (subst st2; loads; reflexivity).
    rewrite E. destruct (load st (hd - 4) >? 0) eqn:Eg;
      destruct (0 <? load st (hd - 4)) eqn:Eg'; try lia; [|reflexivity].
    destruct HL as (H8 & Hlh); [lia|].
    apply back_coalesce_closed; trivial.
    - subst st2. loads. assumption.
    - int_range. }
  rewrite Hl2. clear Hl2.
  set (stA := if 0 <? l then merged_left st2 hd s l else st2).
  set (cur := if 0 <? l then hd - l else hd).
  set (m := if 0 <? l then l + s else s).
  assert (HAh : load stA cur = m /\ load stA (cur + m - 4) = m /\ cur + m = hd + s /\
                8 <= m /\ m <= Z.max 0 l + s /\
                forall q, hd + s <= q -> load stA q = load st q).
  { subst stA cur m. destruct (0 <? l) eqn:El.
    - destruct HL as (H8 & Hlh); [lia|]. unfold merged_left.
      repeat split; try lia.
      + loads. lia.
      + replace (hd - l + (l + s) - 4) with (hd + s - 4) by lia. loads. lia.
      + intros q Hq. subst st2. loads. reflexivity.
    - repeat split; trivial; try lia. intros q Hq. subst st2. loads. reflexivity. }
  destruct HAh as (HAh & HAf & Hcm & Hm8 & Hmb & HAfar).
  assert (HAe : end_ stA = end_ st) by (subst stA; destruct (0 <? l); reflexivity).
  cbv beta iota.
  assert (Hn : get_next_header stA cur = if hd + s >=? end_ st then 0 else hd + s).
  { unfold get_next_header. rewrite HAh, c_abs_tag, Z.abs_eq, HAe, Hcm by int_range.
    reflexivity. }
  rewrite Hn. subst r. unfold right_tag in *.
  destruct (hd + s >=? end_ st) eqn:Ee; [reflexivity|].
  destruct (hd + s =? 0) eqn:E0; [lia|]. cbn [negb].
  rewrite (HAfar (hd + s)) by lia.
  destruct (load st (hd + s) >? 0) eqn:Eg;
    destruct (0 <? load st (hd + s)) eqn:Eg'; try lia; [|reflexivity].
  destruct HR as (H8 & Hrf); [lia|].
  rewrite <- Hcm.
  rewrite (get_header_tag stA (cur + m - 4) m) by (trivial; int_range).
  replace (cur + m - 4 - Z.abs m + 4) with cur by lia.
  rewrite Hcm.
  apply fwd_coalesce_closed; trivial; try lia;
    rewrite ?Hcm, ?HAfar by lia; trivial; int_range.
Qed.

(** ** Neighbours in a layout *)

Lemma naf_cons y ys :
  no_adjacent_free (y :: ys) <-> ~ (0 < y /\ 0 < hd 0 ys) /\ no_adjacent_free ys.
Proof. destruct ys as [|b ys]; simpl; intuition lia. Qed.

Lemma naf_snoc xs y :
  no_adjacent_free (xs ++ [y]) <-> no_adjacent_free xs /\ ~ (0 < last xs 0 /\ 0 < y).
Proof.
  induction xs as [|x xs IH].
  - simpl. intuition lia.
  - change ((x :: xs) ++ [y]) with (x :: (xs ++ [y])).
    rewrite naf_cons, IH, naf_cons.
    destruct xs as [|x' xs]; [simpl; intuition lia|].
    change (hd 0 ((x' :: xs) ++ [y])) with x'.
    change (hd 0 (x' :: xs)) with x'.
    change (last (x :: x' :: xs) 0) with (last (x' :: xs) 0). tauto.
Qed.

Lemma naf_middle xs m ys :
  no_adjacent_free (xs ++ m :: ys) <->
  no_adjacent_free xs /\ ~ (0 < last xs 0 /\ 0 < m) /\
  ~ (0 < m /\ 0 < hd 0 ys) /\ no_adjacent_free ys.
Proof. rewrite no_adjacent_free_app, naf_snoc, naf_cons. tauto. Qed.

(** A list is empty or ends with an element. *)
Lemma list_snoc_cases (xs : list Z) : xs = [] \/ exists xs' l, xs = xs' ++ [l].
Proof.
  destruct xs as [|x xs]; [now left|right].
  destruct (exists_last (l := x :: xs)) as (xs' & l & E); [discriminate|eauto].
Qed.

(** ** Payload pointers *)

Lemma payloads_app xs : forall a ys,
  payloads a (xs ++ ys) = payloads a xs ++ payloads (a + total xs) ys.
Proof.
  induction xs as [|x xs IH]; intros a ys; simpl.
  - now rewrite Z.add_0_r.
  - rewrite IH, <- app_assoc, Z.add_assoc. reflexivity.
Qed.

Lemma payloads_bounds bs : forall a p,
  In p (payloads a bs) -> a + 4 <= p < a + total bs + 4.
Proof.
  induction bs as [|b bs IH]; intros a p H; [contradiction|].
  simpl in H. pose proof (total_nonneg bs). apply in_app_or in H. destruct H as [H|H].
  - destruct (b <? 0) eqn:E; [|contradiction]. destruct H as [<-|[]]. simpl. lia.
  - apply IH in H. simpl. lia.
Qed.

Lemma payloads_In bs : forall a p,
  In p (payloads a bs) ->
  exists xs b ys, bs = xs ++ b :: ys /\ b < 0 /\ p = a + total xs + 4.
Proof.
  induction bs as [|b bs IH]; intros a p H; [contradiction|].
  simpl in H. apply in_app_or in H. destruct H as [H|H].
  - destruct (b <? 0) eqn:E; [|contradiction]. destruct H as [<-|[]].
    exists [], b, bs. simpl. repeat split; lia.
  - apply IH in H. destruct H as (xs & c & ys & -> & Hc & ->).
    exists (b :: xs), c, ys. simpl. repeat split; trivial; lia.
Qed.

(** ** Stores and the rest of memory *)

Lemma heap_store st p v a : a < p \/ p + 4 <= a -> heap (store st p v) a = heap st a.
Proof. intros H. unfold store; simpl. now apply store_int_other. Qed.

(** One part of the layout is rewritten, the bytes outside it are kept. *)
Lemma wf_replace st st' xs mid mid' ys :
  wf st (xs ++ mid ++ ys) ->
  mem st' = mem st -> end_ st' = end_ st -> MEMORY_SIZE st' = MEMORY_SIZE st ->
  total mid' = total mid -> mid' <> [] ->
  (forall a, a < mem st + total xs \/ mem st + total xs + total mid <= a ->
             heap st' a = heap st a) ->
  seg (heap st') (mem st + total xs) mid' ->
  no_adjacent_free (xs ++ mid' ++ ys) ->
  wf st' (xs ++ mid' ++ ys).
Proof.
  intros W Em Ee Es Et Hne Hframe Hseg Hnaf. destruct W as [Wm We Wx Wt _ Ws _].
  apply seg_app in Ws. destruct Ws as (Sx & Ws).
  apply seg_app in Ws. destruct Ws as (_ & Sy).
  rewrite !total_app in Wt.
  pose proof (total_nonneg xs). pose proof (total_nonneg mid). pose proof (total_nonneg ys).
  constructor; rewrite ?Em, ?Ee, ?Es; trivial.
  - rewrite !total_app. lia.
  - destruct xs; [destruct mid'; [congruence|discriminate]|discriminate].
  - apply seg_app. split.
    + apply (seg_frame (heap st)); trivial. intros x Hx. apply Hframe. lia.
    + apply seg_app. split; trivial. rewrite Et.
      apply (seg_frame (heap st)); trivial. intros x Hx. apply Hframe. lia.
Qed.

(** ** [myalloc] keeps the pool well formed *)

Ltac fold_load :=
  repeat match goal with
         | |- context [load_int (heap ?s) ?p] => change (load_int (heap s) p) with (load s p)
         end.

Lemma alloc_state_frame st size hd t a :
  0 < size -> 8 <= t ->
  a < hd \/ hd + t <= a -> heap (alloc_state st size hd t) a = heap st a.
Proof.
  intros Hs Ht Ha. unfold alloc_state, split_state, taken_state.
  destruct (size + 16 <=? t) eqn:E; rewrite !heap_store by lia; reflexivity.
Qed.

Lemma alloc_state_globals st size hd t :
  mem (alloc_state st size hd t) = mem st /\
  end_ (alloc_state st size hd t) = end_ st /\
  MEMORY_SIZE (alloc_state st size hd t) = MEMORY_SIZE st /\
  stderr (alloc_state st size hd t) = stderr st.
Proof. unfold alloc_state. destruct (size + 16 <=? t); repeat split. Qed.

Lemma alloc_wf st size xs t ys :
  wf st (xs ++ t :: ys) -> 0 < t -> 0 < size ->
  wf (alloc_state st size (mem st + total xs) t) (alloc_layout size xs t ys).
Proof.
  intros W Ht Hs. set (hd := mem st + total xs).
  assert (Hin : 8 <= Z.abs t <= total (xs ++ t :: ys)).
  { apply (seg_In (heap st) _ (mem st)); [apply W|]. apply in_or_app. right. now left. }
  assert (Hmax : t <= INT_MAX) by (destruct W; lia).
  pose proof (proj1 (naf_middle xs t ys) (wf_naf _ _ W)) as (Nx & Nl & Nr & Ny).
  destruct (alloc_state_globals st size hd t) as (Em & Ee & Ez & _).
  unfold alloc_layout.
  apply (wf_replace st _ xs [t]); trivial.
  - destruct (size + 16 <=? t) eqn:E; simpl; lia.
  - destruct (size + 16 <=? t); discriminate.
  - intros a Ha. apply alloc_state_frame; trivial; simpl in Ha; lia.
  - fold hd. unfold alloc_state. destruct (size + 16 <=? t) eqn:E.
    + unfold split_state. cbn [seg]. fold_load.
      replace (hd + Z.abs (- (size + 8)) - 4) with (hd + size + 4) by lia.
      replace (hd + Z.abs (- (size + 8))) with (hd + size + 8) by lia.
      replace (hd + size + 8 + Z.abs (t - (size + 8)) - 4) with (hd + t - 4) by lia.
      repeat split; try lia; loads; reflexivity.
    + unfold taken_state. cbn [seg]. fold_load.
      replace (hd + Z.abs (- t) - 4) with (hd + t - 4) by lia.
      repeat split; try lia; loads; reflexivity.
  - destruct (size + 16 <=? t) eqn:E.
    + change (xs ++ [- (size + 8); t - (size + 8)] ++ ys)
        with (xs ++ - (size + 8) :: (t - (size + 8)) :: ys).
      rewrite naf_middle, naf_cons. simpl. intuition lia.
    + change (xs ++ [- t] ++ ys) with (xs ++ - t :: ys).
      rewrite naf_middle. intuition lia.
Qed.

Lemma log_wf st bs e : wf st bs -> wf (log st e) bs.
Proof. intros W. destruct W. constructor; trivial. Qed.

(** What [myalloc] does on a well-formed pool. *)
Lemma myalloc_wf st bs size fuel :
  wf st bs -> (List.length bs < fuel)%nat -> 0 < size <= INT_MAX ->
  (myalloc fuel st size = Some (log st (Fprintf cannot_service size), 0) /\
   forall t, In t bs -> takes (add_int size 8) t = false)
  \/
  (exists xs t ys,
     bs = xs ++ t :: ys /\ 0 < t /\
     best_fit_block fuel st size = Some (mem st + total xs) /\
     myalloc fuel st size
     = Some (alloc_state st size (mem st + total xs) t, mem st + total xs + 4) /\
     wf (alloc_state st size (mem st + total xs) t) (alloc_layout size xs t ys) /\
     takes (add_int size 8) t = true /\
     (forall t', In t' xs -> takes (add_int size 8) t' = true -> Z.abs t < Z.abs t') /\
     (forall t', In t' ys -> takes (add_int size 8) t' = true -> Z.abs t <= Z.abs t')).
Proof.
  intros W Hf Hs.
  destruct (best_fit_block_cases st bs size fuel W Hf)
    as [(Hb & Hall)|(xs & t & ys & -> & Hb & Ht & H1 & H2)].
  - left. split; trivial. now apply myalloc_none.
  - right. exists xs, t, ys.
    assert (Hpos : 0 < t).
    { unfold takes in Ht. apply andb_prop in Ht. destruct Ht as (_ & Ht). lia. }
    pose proof (wf_seg _ _ W) as S. apply seg_app in S. destruct S as (_ & S).
    simpl in S. destruct S as (H8 & Hh & Hft & _). rewrite Z.abs_eq in Hft, H8 by lia.
    pose proof (total_nonneg xs). pose proof (wf_mem _ _ W).
    split; [reflexivity|]. split; [assumption|]. split; [assumption|].
    split; [|split; [|auto]].
    + unfold alloc_state. apply myalloc_found; trivial; lia.
    + apply alloc_wf; trivial; lia.
Qed.

(** ** [myfree] keeps the pool well formed *)

Lemma keep_left_eq xs :
  xs = keep_left xs ++ (if 0 <? last xs 0 then [last xs 0] else []).
Proof.
  unfold keep_left. destruct (0 <? last xs 0) eqn:E; [|now rewrite app_nil_r].
  apply app_removelast_last. intros ->. simpl in E. discriminate.
Qed.

Lemma keep_right_eq ys :
  ys = (if 0 <? hd 0 ys then [hd 0 ys] else []) ++ keep_right ys.
Proof.
  unfold keep_right. destruct (0 <? hd 0 ys) eqn:E; [|reflexivity].
  destruct ys; [discriminate|reflexivity].
Qed.

(** What [myfree] reads of the neighbours of the block at [hd]. *)
Lemma neighbours_wf st xs s ys (hd := mem st + total xs) :
  wf st (xs ++ - s :: ys) -> 0 < s ->
  left_tag st hd = last xs 0 /\ right_tag st hd s = List.hd 0 ys /\
  (0 < last xs 0 -> 8 <= last xs 0 /\ load st (hd - last xs 0) = last xs 0) /\
  (0 < List.hd 0 ys ->
   8 <= List.hd 0 ys /\ load st (hd + s + List.hd 0 ys - 4) = List.hd 0 ys) /\
  Z.max 0 (last xs 0) + s + Z.max 0 (List.hd 0 ys) <= INT_MAX.
Proof.
  intros W Hs. pose proof (wf_seg _ _ W) as S. pose proof (wf_total _ _ W) as T.
  pose proof (wf_max _ _ W) as M. pose proof (wf_end _ _ W) as E.
  apply seg_app in S. destruct S as (Sx & S). cbn [seg] in S.
  fold hd in S. destruct S as (H8 & Hh & Hf & Sy).
  assert (Ehd : hd = mem st + total xs) by reflexivity. clearbody hd.
  rewrite total_app in T. cbn [total] in T.
  replace (Z.abs (- s)) with s in * by lia.
  pose proof (total_nonneg xs). pose proof (total_nonneg ys).
  assert (L : left_tag st hd = last xs 0 /\ Z.max 0 (last xs 0) <= total xs /\
              (0 < last xs 0 -> 8 <= last xs 0 /\ load st (hd - last xs 0) = last xs 0)).
  { destruct (list_snoc_cases xs) as [->|(xs' & l & ->)].
    - unfold left_tag. simpl in Ehd. rewrite Z.add_0_r in Ehd. subst hd.
      rewrite Z.eqb_refl. simpl. repeat split; lia.
    - rewrite last_last. apply seg_last in Sx as Sl. destruct Sl as (Hl8 & Hlh & Hlf).
      rewrite total_app in *. cbn [total] in *. pose proof (total_nonneg xs').
      split; [|split; [lia|]].
      + unfold left_tag. destruct (hd =? mem st) eqn:Eq; [lia|].
        unfold load. rewrite <- Hlf. f_equal. lia.
      + intros Hl. split; [lia|]. unfold load. rewrite <- Hlh at 2. f_equal. lia. }
  assert (R : right_tag st hd s = List.hd 0 ys /\ Z.max 0 (List.hd 0 ys) <= total ys /\
              (0 < List.hd 0 ys ->
               8 <= List.hd 0 ys /\ load st (hd + s + List.hd 0 ys - 4) = List.hd 0 ys)).
  { destruct ys as [|r ys'].
    - unfold right_tag. simpl in *. destruct (hd + s >=? end_ st) eqn:Eq; [|lia].
      repeat split; lia.
    - cbn [List.hd seg total] in *. destruct Sy as (Hr8 & Hrh & Hrf & _).
      pose proof (total_nonneg ys').
      split; [|split; [lia|]].
      + unfold right_tag. destruct (hd + s >=? end_ st) eqn:Eq; [lia|].
        exact Hrh.
      + intros Hr. split; [lia|]. unfold load. rewrite <- Hrf at 2. f_equal. lia. }
  destruct L as (L1 & L2 & L3). destruct R as (R1 & R2 & R3).
  repeat split; trivial; try (apply L3; assumption); try (apply R3; assumption). lia.
Qed.

Section Freed.

Variables (st : state) (hd s l r : Z).
Hypothesis Hs : 8 <= s.
Hypothesis Hl : 0 < l -> 8 <= l.
Hypothesis Hr : 0 < r -> 8 <= r.

Lemma freed_state_globals :
  mem (freed_state st hd s l r) = mem st /\
  end_ (freed_state st hd s l r) = end_ st /\
  MEMORY_SIZE (freed_state st hd s l r) = MEMORY_SIZE st /\
  stderr (freed_state st hd s l r) = stderr st.
Proof.
  unfold freed_state. destruct (0 <? l); destruct (0 <? r); repeat split.
Qed.

(** [myfree] writes the tags of the freed block, the header of a free left
    neighbour and the footer of a free right neighbour, and nothing else. *)
Lemma freed_state_bytes a :
  (hd <= a < hd + 4) \/ (hd + s - 4 <= a < hd + s) \/
  (0 < l /\ hd - l <= a < hd - l + 4) \/
  (0 < r /\ hd + s + r - 4 <= a < hd + s + r) \/
  heap (freed_state st hd s l r) a = heap st a.
Proof.
  unfold freed_state, merged_left, merged_right. cbv zeta.
  destruct (0 <? l) eqn:El; destruct (0 <? r) eqn:Er.
  - destruct (Z_lt_le_dec a hd); destruct (Z_lt_le_dec a (hd + 4));
      destruct (Z_lt_le_dec a (hd + s - 4)); destruct (Z_lt_le_dec a (hd + s));
      destruct (Z_lt_le_dec a (hd - l)); destruct (Z_lt_le_dec a (hd - l + 4));
      destruct (Z_lt_le_dec a (hd + s + r - 4)); destruct (Z_lt_le_dec a (hd + s + r));
      try lia; do 4 right; rewrite !heap_store by lia; reflexivity.
  - destruct (Z_lt_le_dec a hd); destruct (Z_lt_le_dec a (hd + 4));
      destruct (Z_lt_le_dec a (hd + s - 4)); destruct (Z_lt_le_dec a (hd + s));
      destruct (Z_lt_le_dec a (hd - l)); destruct (Z_lt_le_dec a (hd - l + 4));
      try lia; do 4 right; rewrite !heap_store by lia; reflexivity.
  - destruct (Z_lt_le_dec a hd); destruct (Z_lt_le_dec a (hd + 4));
      destruct (Z_lt_le_dec a (hd + s - 4)); destruct (Z_lt_le_dec a (hd + s));
      destruct (Z_lt_le_dec a (hd + s + r - 4)); destruct (Z_lt_le_dec a (hd + s + r));
      try lia; do 4 right; rewrite !heap_store by lia; reflexivity.
  - destruct (Z_lt_le_dec a hd); destruct (Z_lt_le_dec a (hd + 4));
      destruct (Z_lt_le_dec a (hd + s - 4)); destruct (Z_lt_le_dec a (hd + s));
      try lia; do 4 right; rewrite !heap_store by lia; reflexivity.
Qed.

Lemma freed_state_frame a :
  a < hd - Z.max 0 l \/ hd + s + Z.max 0 r <= a ->
  heap (freed_state st hd s l r) a = heap st a.
Proof.
  intros Ha. destruct (freed_state_bytes a) as [H|[H|[H|[H|H]]]]; trivial; lia.
Qed.

Lemma freed_state_loads :
  Z.max 0 l + s + Z.max 0 r <= INT_MAX ->
  load (freed_state st hd s l r) (hd - Z.max 0 l) = Z.max 0 l + s + Z.max 0 r /\
  load (freed_state st hd s l r) (hd + s + Z.max 0 r - 4) = Z.max 0 l + s + Z.max 0 r.
Proof.
  intros Hmax. unfold freed_state, merged_left, merged_right. cbv zeta.
  destruct (0 <? l) eqn:El; destruct (0 <? r) eqn:Er.
  - rewrite !Z.max_r by lia.
    replace (hd - l + (l + s) + r - 4) with (hd + s + r - 4) by lia.
    split; loads; lia.
  - rewrite (Z.max_r 0 l), (Z.max_l 0 r) by lia.
    replace (hd + s + 0 - 4) with (hd + s - 4) by lia.
    split; loads; lia.
  - rewrite (Z.max_l 0 l), (Z.max_r 0 r) by lia.
    replace (hd - 0) with hd by lia.
    split; loads; lia.
  - rewrite !Z.max_l by lia.
    replace (hd - 0) with hd by lia. replace (hd + s + 0 - 4) with (hd + s - 4) by lia.
    split; loads; lia.
Qed.

End Freed.

Lemma free_layout_eq xs s ys :
  xs ++ - s :: ys
  = keep_left xs
    ++ ((if 0 <? last xs 0 then [last xs 0] else []) ++ [- s]
        ++ (if 0 <? hd 0 ys then [hd 0 ys] else []))
    ++ keep_right ys.
Proof.
  rewrite (keep_left_eq xs) at 1. rewrite (keep_right_eq ys) at 1.
  rewrite <- !app_assoc. reflexivity.
Qed.

Lemma keep_left_total xs : total (keep_left xs) = total xs - Z.max 0 (last xs 0).
Proof.
  rewrite (keep_left_eq xs) at 2. rewrite total_app.
  destruct (0 <? last xs 0) eqn:E; simpl; lia.
Qed.

Lemma keep_left_naf xs :
  no_adjacent_free xs ->
  no_adjacent_free (keep_left xs) /\ ~ 0 < last (keep_left xs) 0.
Proof.
  intros N. pose proof (keep_left_eq xs) as E. unfold keep_left in *.
  destruct (0 <? last xs 0) eqn:El.
  - rewrite E in N. apply naf_snoc in N. destruct N as (N & Hn). split; trivial. lia.
  - split; trivial. lia.
Qed.

Lemma keep_right_naf ys :
  no_adjacent_free ys ->
  no_adjacent_free (keep_right ys) /\ ~ 0 < hd 0 (keep_right ys).
Proof.
  intros N. unfold keep_right. destruct (0 <? hd 0 ys) eqn:Er.
  - destruct ys as [|r ys]; [discriminate|]. simpl in *.
    apply (naf_cons r ys) in N. destruct N as (Hn & N). split; trivial. lia.
  - split; trivial. lia.
Qed.

Lemma free_wf st xs s ys :
  wf st (xs ++ - s :: ys) -> 0 < s ->
  myfree st (mem st + total xs + 4)
  = freed_state st (mem st + total xs) s (last xs 0) (hd 0 ys) /\
  wf (myfree st (mem st + total xs + 4)) (free_layout xs s ys).
Proof.
  intros W Hs.
  destruct (neighbours_wf st xs s ys W Hs) as (El & Er & Hl & Hr & Hmax).
  pose proof (wf_seg _ _ W) as S. apply seg_app in S. destruct S as (_ & S).
  cbn [seg] in S. destruct S as (H8 & Hh & Hf & _).
  replace (Z.abs (- s)) with s in * by lia.
  pose proof (wf_mem _ _ W). pose proof (total_nonneg xs).
  assert (E : myfree st (mem st + total xs + 4)
              = freed_state st (mem st + total xs) s (last xs 0) (hd 0 ys)).
  { rewrite <- El, <- Er. apply myfree_closed; rewrite ?El, ?Er; trivial. lia. }
  split; trivial. rewrite E.
  set (hd0 := mem st + total xs) in *.
  set (l := last xs 0) in *. set (r := hd 0 ys) in *.
  destruct (freed_state_globals st hd0 s l r) as (Gm & Ge & Gs & _).
  destruct (freed_state_loads st hd0 s l r) as (Lh & Lf); trivial;
    try (intros; apply Hl; assumption); try (intros; apply Hr; assumption).
  pose proof (proj1 (naf_middle xs (- s) ys) (wf_naf _ _ W)) as (Nx & _ & _ & Ny).
  apply keep_left_naf in Nx. apply keep_right_naf in Ny.
  rewrite free_layout_eq in W. unfold free_layout. fold l r in W |- *.
  assert (T : total ((if 0 <? l then [l] else []) ++ [- s] ++ (if 0 <? r then [r] else []))
              = Z.max 0 l + s + Z.max 0 r).
  { destruct (0 <? l) eqn:E1; destruct (0 <? r) eqn:E2; simpl; lia. }
  assert (A : mem st + total (keep_left xs) = hd0 - Z.max 0 l).
  { rewrite keep_left_total. fold l. subst hd0. lia. }
  eapply wf_replace; try eassumption.
  - rewrite T. simpl. lia.
  - discriminate.
  - rewrite T, A. intros a Ha. apply freed_state_frame; trivial; try lia;
      try (intros; apply Hl; assumption); try (intros; apply Hr; assumption).
  - rewrite A. cbn [seg]. fold_load.
    replace (hd0 - Z.max 0 l + Z.abs (Z.max 0 l + s + Z.max 0 r) - 4)
      with (hd0 + s + Z.max 0 r - 4) by lia.
    repeat split; trivial. lia.
  - change (keep_left xs ++ [Z.max 0 l + s + Z.max 0 r] ++ keep_right ys)
      with (keep_left xs ++ (Z.max 0 l + s + Z.max 0 r) :: keep_right ys).
    rewrite naf_middle. intuition lia.
Qed.

(** ** Payload pointers before and after an operation *)

Lemma payloads_replace a xs mid ys q :
  In q (payloads a (xs ++ mid ++ ys)) <->
  In q (payloads a xs) \/ In q (payloads (a + total xs) mid) \/
  In q (payloads (a + total xs + total mid) ys).
Proof. rewrite !payloads_app, !in_app_iff. tauto. Qed.

Lemma alloc_payloads a size xs t ys q :
  0 < t -> 0 < size ->
  In q (payloads a (alloc_layout size xs t ys)) <->
  q = a + total xs + 4 \/ In q (payloads a (xs ++ t :: ys)).
Proof.
  intros Ht Hs. unfold alloc_layout.
  change (xs ++ t :: ys) with (xs ++ [t] ++ ys).
  rewrite (payloads_replace a xs [t]).
  rewrite (payloads_replace a xs
             (if size + 16 <=? t then [- (size + 8); t - (size + 8)] else [- t])).
  assert (T : total (if size + 16 <=? t then [- (size + 8); t - (size + 8)] else [- t])
              = total [t]).
  { destruct (size + 16 <=? t) eqn:E; simpl; lia. }
  rewrite T.
  assert (M : In q (payloads (a + total xs)
                      (if size + 16 <=? t then [- (size + 8); t - (size + 8)] else [- t]))
              <-> q = a + total xs + 4).
  { destruct (size + 16 <=? t) eqn:E; cbn [payloads].
    - destruct (- (size + 8) <? 0) eqn:E1; [|lia].
      destruct (t - (size + 8) <? 0) eqn:E2; [lia|]. simpl. intuition lia.
    - destruct (- t <? 0) eqn:E1; [|lia]. simpl. intuition lia. }
  rewrite M. cbn [payloads]. destruct (t <? 0) eqn:E; [lia|]. simpl. tauto.
Qed.

Lemma free_payloads a xs s ys q :
  0 < s ->
  In q (payloads a (free_layout xs s ys)) <->
  In q (payloads a (xs ++ - s :: ys)) /\ q <> a + total xs + 4.
Proof.
  intros Hs. rewrite free_layout_eq. unfold free_layout.
  set (l := last xs 0). set (r := hd 0 ys).
  rewrite (payloads_replace a (keep_left xs) [Z.max 0 l + s + Z.max 0 r]).
  rewrite (payloads_replace a (keep_left xs)
             ((if 0 <? l then [l] else []) ++ [- s] ++ (if 0 <? r then [r] else []))).
  assert (T : total ((if 0 <? l then [l] else []) ++ [- s] ++ (if 0 <? r then [r] else []))
              = Z.max 0 l + s + Z.max 0 r).
  { destruct (0 <? l) eqn:E1; destruct (0 <? r) eqn:E2; simpl; lia. }
  assert (A : a + total (keep_left xs) = a + total xs - Z.max 0 l).
  { rewrite keep_left_total. fold l. lia. }
  rewrite T, A.
  replace (total [Z.max 0 l + s + Z.max 0 r]) with (Z.max 0 l + s + Z.max 0 r)
    by (simpl; lia).
  assert (M : In q (payloads (a + total xs - Z.max 0 l)
                      ((if 0 <? l then [l] else []) ++ [- s]
                       ++ (if 0 <? r then [r] else [])))
              <-> q = a + total xs + 4).
  { destruct (0 <? l) eqn:E1; destruct (0 <? r) eqn:E2; cbn [payloads app];
      repeat match goal with
             | |- context [?x <? 0] => destruct (x <? 0) eqn:?; try lia
             end; simpl; intuition lia. }
  rewrite M. cbn [payloads].
  destruct (Z.max 0 l + s + Z.max 0 r <? 0) eqn:E; [lia|].
  pose proof (payloads_bounds (keep_left xs) a q) as B1.
  pose proof (payloads_bounds (keep_right ys)
                (a + total xs - Z.max 0 l + (Z.max 0 l + s + Z.max 0 r)) q) as B2.
  rewrite keep_left_total in B1. fold l in B1.
  simpl. intuition lia.
Qed.

(** ** Fuel *)

Lemma walk_length st : forall fuel a l,
  walk fuel st a = Some l -> (List.length l < fuel)%nat.
Proof.
  induction fuel as [|fuel IH]; intros a l H; [discriminate|].
  cbn [walk] in H. destruct (a =? 0).
  - injection H as <-. simpl. lia.
  - destruct (walk fuel st (get_next_header st a)) as [l'|] eqn:E; [|discriminate].
    injection H as <-. apply IH in E. simpl. lia.
Qed.

Lemma best_fit_loop_fuel st size : forall fuel fuel' header result r,
  best_fit_loop fuel st size header result = Some r -> (fuel <= fuel')%nat ->
  best_fit_loop fuel' st size header result = Some r.
Proof.
  induction fuel as [|fuel IH]; intros fuel' header result r H Hle; [discriminate|].
  destruct fuel' as [|fuel']; [lia|]. cbn [best_fit_loop] in *.
  destruct (header =? 0); trivial. apply IH; trivial. lia.
Qed.

Lemma myalloc_fuel st size fuel fuel' res :
  myalloc fuel st size = Some res -> (fuel <= fuel')%nat ->
  myalloc fuel' st size = Some res.
Proof.
  unfold myalloc, best_fit_block. intros H Hle.
  destruct (best_fit_loop fuel st size (mem st) 0) as [r|] eqn:E; [|discriminate].
  now rewrite (best_fit_loop_fuel st size fuel fuel' _ _ r E Hle).
Qed.

Lemma wf_has_blocks st bs : wf st bs -> has_blocks st (blocks_from (mem st) bs).
Proof.
  intros W fuel Hf. apply wf_blocks; trivial. now rewrite blocks_from_length in Hf.
Qed.

Lemma has_blocks_unique st bl fuel bl' :
  has_blocks st bl -> blocks fuel st = Some bl' -> bl' = bl.
Proof.
  intros H E. unfold blocks in *.
  pose proof (walk_fuel st fuel (Nat.max fuel (S (List.length bl))) _ _ E ltac:(lia)) as E1.
  specialize (H (Nat.max fuel (S (List.length bl))) ltac:(lia)). unfold blocks in H.
  congruence.
Qed.

(** ** The invariant of the reachable states *)

Lemma init_wf memory_size malloc_result h st0 :
  8 <= memory_size <= INT_MAX -> 0 < malloc_result ->
  init_myalloc memory_size malloc_result h = Some st0 ->
  wf st0 [memory_size] /\ mem st0 = malloc_result /\
  MEMORY_SIZE st0 = memory_size /\ stderr st0 = [].
Proof.
  intros HC Hb H. unfold init_myalloc in H.
  destruct (malloc_result =? 0) eqn:E; [lia|]. injection H as <-.
  unfold sizeof_int. split; [|repeat split].
  constructor; simpl; trivial; try lia; try discriminate.
  replace (malloc_result + Z.abs memory_size - 4)
    with (malloc_result + memory_size - 4) by lia.
  repeat split; try lia.
  - rewrite load_store_other, load_store_same by lia. apply wrap_int_id. int_range.
  - rewrite load_store_same. apply wrap_int_id. int_range.
Qed.

Lemma inv_alloc st0 st live bs fuel size st' p :
  inv st0 st live bs -> 0 < size <= INT_MAX ->
  myalloc fuel st size = Some (st', p) ->
  exists bs', inv st0 st' (if p =? 0 then live else p :: live) bs'.
Proof.
  intros I Hs Ha. destruct I as [W L Em Es].
  apply (myalloc_fuel _ _ _ (Nat.max fuel (S (List.length bs)))) in Ha; [|lia].
  destruct (myalloc_wf st bs size (Nat.max fuel (S (List.length bs))) W ltac:(lia) Hs)
    as [(E & _)|(xs & t & ys & -> & Ht & _ & E & W' & _)];
    rewrite E in Ha; injection Ha as <- <-.
  - exists bs. simpl. constructor; trivial. now apply log_wf.
  - exists (alloc_layout size xs t ys).
    pose proof (wf_mem _ _ W). pose proof (total_nonneg xs).
    destruct (mem st + total xs + 4 =? 0) eqn:E0; [lia|].
    destruct (alloc_state_globals st size (mem st + total xs) t) as (Gm & _ & Gs & _).
    constructor; trivial; try congruence.
    intros q. rewrite Gm, alloc_payloads by lia. simpl. rewrite L. intuition congruence.
Qed.

Lemma inv_free st0 st live bs p :
  inv st0 st live bs -> In p live ->
  exists bs', inv st0 (myfree st p) (remove Z.eq_dec p live) bs'.
Proof.
  intros I Hp. destruct I as [W L Em Es].
  apply L in Hp. apply payloads_In in Hp. destruct Hp as (xs & b & ys & -> & Hb & ->).
  replace b with (- (- b)) in * by lia.
  destruct (free_wf st xs (- b) ys W ltac:(lia)) as (E & W').
  exists (free_layout xs (- b) ys).
  assert (G : mem (myfree st (mem st + total xs + 4)) = mem st /\
              MEMORY_SIZE (myfree st (mem st + total xs + 4)) = MEMORY_SIZE st).
  { rewrite E. split; apply freed_state_globals. }
  destruct G as (Gm & Gs).
  constructor; trivial; try congruence.
  intros q. rewrite Gm, free_payloads by lia. rewrite <- L.
  split.
  - intros H. apply in_remove in H. tauto.
  - intros (H1 & H2). apply in_in_remove; trivial.
Qed.

Lemma reach_inv st0 st live :
  initial st0 -> reach st0 st live -> exists bs, inv st0 st live bs.
Proof.
  intros (C & base & h & HC & Hb & Hi) R.
  induction R as [|st live fuel size st' p R IH Hs Ha|st live p R IH Hp].
  - destruct (init_wf _ _ _ _ HC Hb Hi) as (W & _ & Es & _).
    exists [C]. constructor; trivial. simpl. destruct (C <? 0) eqn:E; [lia|]. simpl. tauto.
  - destruct IH as (bs & I). eapply inv_alloc; eassumption.
  - destruct IH as (bs & I). eapply inv_free; eassumption.
Qed.

(** ** Blocks of a well-formed pool *)

Lemma blocks_from_seg h bs : forall a p t,
  seg h a bs -> In (p, t) (blocks_from a bs) ->
  load_int h p = t /\ load_int h (p + Z.abs t - 4) = t /\ 8 <= Z.abs t /\
  In t bs /\ a <= p /\ p + Z.abs t <= a + total bs.
Proof.
  induction bs as [|b bs IH]; intros a p t S H; [contradiction|].
  cbn [seg blocks_from total] in *. destruct S as (H8 & Hh & Hf & S).
  pose proof (total_nonneg bs).
  destruct H as [[= <- <-]|H].
  - repeat split; trivial; try lia. now left.
  - destruct (IH _ _ _ S H) as (? & ? & ? & ? & ? & ?).
    repeat split; trivial; try lia. now right.
Qed.

Lemma wf_block st bs p t :
  wf st bs -> In (p, t) (blocks_from (mem st) bs) ->
  load st p = t /\ load st (p + Z.abs t - 4) = t /\ 8 <= Z.abs t <= INT_MAX /\
  In t bs /\ mem st <= p /\ p + Z.abs t <= end_ st.
Proof.
  intros W H. destruct (blocks_from_seg _ _ _ _ _ (wf_seg _ _ W) H) as (? & ? & ? & ? & ? & ?).
  destruct W. unfold load. repeat split; trivial; lia.
Qed.

Lemma blocks_from_tiles h bs : forall a,
  seg h a bs -> tiles a (blocks_from a bs) (a + total bs).
Proof.
  induction bs as [|b bs IH]; intros a S; cbn [seg blocks_from total tiles] in *.
  - lia.
  - destruct S as (H8 & _ & _ & S). repeat split; try lia.
    rewrite Z.add_assoc. now apply IH.
Qed.

(** ** Eligible blocks *)

Lemma takes_eligible size t :
  0 < size -> size + 8 <= INT_MAX ->
  takes (add_int size 8) t = true <-> eligible size t.
Proof.
  intros Hs Hm. unfold takes, eligible, sizeof_int, add_int.
  rewrite wrap_int_id by int_range.
  rewrite andb_true_iff. lia.
Qed.

Lemma fits_tag st size p t :
  load st p = t -> Z.abs t <= INT_MAX -> fits st size p = takes (add_int size 8) t.
Proof. intros H Ht. unfold fits, takes. now rewrite H, c_abs_tag. Qed.

Lemma eligible_bound st bs size t :
  wf st bs -> In t bs -> eligible size t -> size + 8 <= INT_MAX.
Proof.
  intros W Hin (_ & He). unfold sizeof_int in He.
  pose proof (seg_In _ _ _ _ (wf_seg _ _ W) Hin). destruct W. lia.
Qed.

Lemma blocks_from_middle a xs t ys :
  blocks_from a (xs ++ t :: ys)
  = blocks_from a xs ++ (a + total xs, t) :: blocks_from (a + total xs + Z.abs t) ys.
Proof. rewrite blocks_from_app. reflexivity. Qed.

Lemma blocks_from_In_tag bs : forall a p t, In (p, t) (blocks_from a bs) -> In t bs.
Proof.
  intros a p t H. apply (in_map snd) in H. now rewrite blocks_from_tags in H.
Qed.

Lemma blocks_from_In_addr bs : forall a p t, In (p, t) (blocks_from a bs) -> a <= p.
Proof.
  induction bs as [|b bs IH]; intros a p t H; [contradiction|].
  destruct H as [[= <- <-]|H]; [lia|]. apply IH in H. lia.
Qed.

(** ** The operations on reachable states *)

Lemma myalloc_best st size fuel res :
  myalloc fuel st size = Some res -> exists r, best_fit_block fuel st size = Some r.
Proof.
  unfold myalloc. destruct (best_fit_block fuel st size) as [r|]; [eauto|discriminate].
Qed.

(** A call of [myalloc] that returned a pointer, on a reachable state. *)
Lemma myalloc_reach st0 st live size fuel st' p :
  initial st0 -> reach st0 st live -> 0 < size <= INT_MAX ->
  myalloc fuel st size = Some (st', p) -> p <> 0 ->
  exists xs t ys,
    wf st (xs ++ t :: ys) /\ 0 < t /\ p = mem st + total xs + 4 /\
    best_fit_block fuel st size = Some (mem st + total xs) /\
    st' = alloc_state st size (mem st + total xs) t /\
    wf st' (alloc_layout size xs t ys) /\
    takes (add_int size 8) t = true.
Proof.
  intros I R Hs Ha Hp.
  destruct (reach_inv _ _ _ I R) as (bs & [W _ _ _]).
  destruct (myalloc_best _ _ _ _ Ha) as (r & Er).
  set (big := Nat.max fuel (S (List.length bs))).
  apply (myalloc_fuel _ _ _ big) in Ha; [|lia].
  apply (best_fit_loop_fuel _ _ _ big) in Er as Er'; [|lia].
  destruct (myalloc_wf st bs size big W ltac:(lia) Hs)
    as [(E & _)|(xs & t & ys & -> & Ht & Eb & E & W' & Et & _)];
    rewrite E in Ha; injection Ha as <- <-; [congruence|].
  exists xs, t, ys. unfold best_fit_block in *.
  repeat (split; trivial). congruence.
Qed.

(** On a reachable state [myalloc] returns, as soon as the fuel exceeds the
    number of blocks. *)
Lemma myalloc_returns st0 st live size :
  initial st0 -> reach st0 st live -> 0 < size <= INT_MAX ->
  exists bl,
    has_blocks st bl /\
    forall fuel, (List.length bl < fuel)%nat ->
                 exists st' p, myalloc fuel st size = Some (st', p).
Proof.
  intros I R Hs. destruct (reach_inv _ _ _ I R) as (bs & [W _ _ _]).
  exists (blocks_from (mem st) bs). split; [now apply wf_has_blocks|].
  intros fuel Hf. rewrite blocks_from_length in Hf.
  destruct (myalloc_wf st bs size fuel W Hf Hs)
    as [(E & _)|(xs & t & ys & _ & _ & _ & E & _)]; rewrite E; eauto.
Qed.

(** A call of [myfree] on a live pointer, on a reachable state. *)
Lemma myfree_reach st0 st live p :
  initial st0 -> reach st0 st live -> In p live ->
  exists xs s ys,
    wf st (xs ++ - s :: ys) /\ 0 < s /\ p = mem st + total xs + 4 /\
    left_tag st (p - 4) = last xs 0 /\ right_tag st (p - 4) s = hd 0 ys /\
    myfree st p = freed_state st (p - 4) s (last xs 0) (hd 0 ys) /\
    wf (myfree st p) (free_layout xs s ys).
Proof.
  intros I R Hp. destruct (reach_inv _ _ _ I R) as (bs & [W L _ _]).
  apply L in Hp. apply payloads_In in Hp. destruct Hp as (xs & b & ys & -> & Hb & ->).
  replace b with (- (- b)) in * by lia.
  destruct (free_wf st xs (- b) ys W ltac:(lia)) as (E & W').
  destruct (neighbours_wf st xs (- b) ys W ltac:(lia)) as (El & Er & _).
  exists xs, (- b), ys.
  replace (mem st + total xs + 4 - 4) with (mem st + total xs) by lia.
  repeat (split; trivial). lia.
Qed.

Lemma myfree_globals st p :
  mem (myfree st p) = mem st /\ end_ (myfree st p) = end_ st /\
  MEMORY_SIZE (myfree st p) = MEMORY_SIZE st /\ stderr (myfree st p) = stderr st.
Proof.
  unfold myfree, back_coalesce, fwd_coalesce. cbv zeta.
  repeat match goal with
         | |- context [if ?c then _ else _] => destruct c
         end; repeat split.
Qed.

(** A pool without allocated blocks is one free block. *)
Lemma all_free_single h a bs :
  seg h a bs -> bs <> [] -> no_adjacent_free bs -> payloads a bs = [] ->
  bs = [total bs] /\ 0 < total bs.
Proof.
  intros S Hne N P. destruct bs as [|b bs]; [congruence|].
  cbn [seg payloads total] in *. destruct S as (H8 & _ & _ & S).
  destruct (b <? 0) eqn:Eb; [discriminate|]. simpl in P.
  destruct bs as [|c bs].
  - simpl. split; [f_equal|]; lia.
  - exfalso. cbn [seg payloads] in *. destruct S as (H8' & _).
    destruct (c <? 0) eqn:Ec; [discriminate|].
    destruct N as (N & _). lia.
Qed.

(** ** What the operations write *)

Lemma alloc_state_bytes st size hd t a :
  hd <= a < hd + 4 \/
  (if size + 16 <=? t
   then hd + size + 4 <= a < hd + size + 12 \/ hd + t - 4 <= a < hd + t
   else hd + t - 4 <= a < hd + t) \/
  heap (alloc_state st size hd t) a = heap st a.
Proof.
  unfold alloc_state, split_state, taken_state.
  destruct (size + 16 <=? t) eqn:E.
  - destruct (Z_lt_le_dec a hd); destruct (Z_lt_le_dec a (hd + 4));
      destruct (Z_lt_le_dec a (hd + size + 4)); destruct (Z_lt_le_dec a (hd + size + 12));
      destruct (Z_lt_le_dec a (hd + t - 4)); destruct (Z_lt_le_dec a (hd + t));
      try lia; do 2 right; rewrite !heap_store by lia; reflexivity.
  - destruct (Z_lt_le_dec a hd); destruct (Z_lt_le_dec a (hd + 4));
      destruct (Z_lt_le_dec a (hd + t - 4)); destruct (Z_lt_le_dec a (hd + t));
      try lia; do 2 right; rewrite !heap_store by lia; reflexivity.
Qed.

(** Two blocks of a layout are the same block or do not overlap. *)
Lemma blocks_disjoint h bs : forall a q1 t1 q2 t2,
  seg h a bs -> In (q1, t1) (blocks_from a bs) -> In (q2, t2) (blocks_from a bs) ->
  (q1 = q2 /\ t1 = t2) \/ q1 + Z.abs t1 <= q2 \/ q2 + Z.abs t2 <= q1.
Proof.
  induction bs as [|b bs IH]; intros a q1 t1 q2 t2 S H1 H2; [contradiction|].
  cbn [seg blocks_from] in *. destruct S as (H8 & _ & _ & S).
  destruct H1 as [[= <- <-]|H1]; destruct H2 as [[= <- <-]|H2].
  - now left.
  - apply blocks_from_In_addr in H2. lia.
  - apply blocks_from_In_addr in H1. lia.
  - eapply IH; eassumption.
Qed.

(** ** Requests whose padded size is an [int]

    For a request with [size + 2 * sizeof(int) <= INT_MAX] the sum [size + 8]
    of line 93 does not wrap, and [myalloc] fails exactly when no block is
    eligible and returns room for [size] bytes when it succeeds. *)

Lemma exhaustion_in_range st0 st live size fuel bl :
  initial st0 -> reach st0 st live ->
  0 < size -> size + 2 * sizeof_int <= INT_MAX ->
  blocks fuel st = Some bl ->
  (forall p t, In (p, t) bl -> ~ eligible size t) ->
  myalloc fuel st size = Some (log st (Fprintf cannot_service size), 0) /\
  heap (log st (Fprintf cannot_service size)) = heap st /\
  stderr (log st (Fprintf cannot_service size))
  = stderr st ++ [Fprintf cannot_service size].
Proof.
  unfold sizeof_int. intros I R Hs Hm Hb Hno.
  destruct (reach_inv _ _ _ I R) as (bs & [W _ _ _]).
  pose proof (has_blocks_unique _ _ _ _ (wf_has_blocks _ _ W) Hb) as ->.
  assert (Hf : (List.length bs < fuel)%nat).
  { apply walk_length in Hb. now rewrite blocks_from_length in Hb. }
  split; [|split; reflexivity].
  assert (Hs' : 0 < size <= INT_MAX) by int_range.
  destruct (myalloc_wf st bs size fuel W Hf Hs')
    as [(E & _)|(xs & t & ys & -> & _ & _ & _ & _ & Et & _)]; trivial.
  exfalso. apply takes_eligible in Et; try lia.
  apply (Hno (mem st + total xs) t); trivial.
  rewrite blocks_from_middle. apply in_or_app. right. now left.
Qed.

Lemma payload_in_range st0 st live size fuel st' p :
  initial st0 -> reach st0 st live ->
  0 < size -> size + 2 * sizeof_int <= INT_MAX ->
  myalloc fuel st size = Some (st', p) -> p <> 0 ->
  best_fit_block fuel st size = Some (p - sizeof_int) /\
  load st' (p - sizeof_int) < 0 /\
  size <= get_footer st' (p - sizeof_int) - p.
Proof.
  unfold sizeof_int. intros I R Hs Hm Ha Hp.
  assert (Hs' : 0 < size <= INT_MAX) by int_range.
  destruct (myalloc_reach _ _ _ _ _ _ _ I R Hs' Ha Hp)
    as (xs & t & ys & W & Ht & -> & Eb & -> & _ & Et).
  apply takes_eligible in Et; try lia. destruct Et as (_ & Et). unfold sizeof_int in Et.
  set (hd := mem st + total xs) in *. replace (hd + 4 - 4) with hd by lia.
  assert (Hin : In (hd, t) (blocks_from (mem st) (xs ++ t :: ys))).
  { rewrite blocks_from_middle. apply in_or_app. right. now left. }
  destruct (wf_block _ _ _ _ W Hin) as (_ & _ & Hr & _).
  split; [assumption|]. unfold alloc_state.
  destruct (size + 16 <=? t) eqn:E.
  - assert (L : load (split_state st size hd t) hd = - (size + 8))
      by (unfold split_state; loads; reflexivity).
    rewrite (get_footer_tag _ hd (- (size + 8))) by (trivial; int_range). lia.
  - assert (L : load (taken_state st hd t) hd = - t)
      by (unfold taken_state; loads; reflexivity).
    rewrite (get_footer_tag _ hd (- t)) by (trivial; int_range). lia.
Qed.

(** The pointer that [myalloc] returns is one word after the header that
    [best_fit_block] returned, for every size. *)
Lemma pointer_after_header st size fuel st' p :
  myalloc fuel st size = Some (st', p) -> p <> 0 ->
  best_fit_block fuel st size = Some (p - sizeof_int).
Proof.
  unfold myalloc. intros H Hp.
  destruct (best_fit_block fuel st size) as [r|]; [|discriminate].
  destruct (r =? 0); [injection H as _ <-; congruence|].
  destruct (splits st size r); injection H as _ <-; f_equal; unfold sizeof_int; lia.
Qed.

(** ** Examples *)

Lemma pool_initial capacity : 8 <= capacity <= INT_MAX -> initial (pool capacity).
Proof. intros H. exists capacity, 4096, zero_memory. repeat split; try lia. Defined.

Lemma myalloc_alloc_in st fuel size p :
  option_map snd (myalloc fuel st size) = Some p ->
  myalloc fuel st size = Some (alloc_in st fuel size, p).
Proof.
  unfold alloc_in. destruct (myalloc fuel st size) as [[s q]|]; [|discriminate].
  simpl. intros [= ->]. reflexivity.
Defined.

(** [myalloc(20)] on a pool of 128 bytes. *)
Lemma reach_pool128_alloc20 : reach (pool 128) (alloc_in (pool 128) 2 20) [4100].
Proof.
  apply (reach_alloc (pool 128) (pool 128) [] 2 20 (alloc_in (pool 128) 2 20) 4100).
  - apply reach_init.
  - unfold INT_MAX. lia.
  - apply myalloc_alloc_in. vm_compute. reflexivity.
Defined.

(** [myalloc(16)] on a pool of 32 bytes: the free block that is left has no
    payload. *)
Lemma reach_pool32_alloc16 : reach (pool 32) (alloc_in (pool 32) 3 16) [4100].
Proof.
  apply (reach_alloc (pool 32) (pool 32) [] 3 16 (alloc_in (pool 32) 3 16) 4100).
  - apply reach_init.
  - unfold INT_MAX. lia.
  - apply myalloc_alloc_in. vm_compute. reflexivity.
Defined.

Lemma reach_frag4 : reach (pool 240) frag4 [4308; 4244; 4228; 4100].
Proof.
  apply (reach_alloc (pool 240) frag3 [4244; 4228; 4100] 6 8 frag4 4308).
  - apply (reach_alloc (pool 240) frag2 [4228; 4100] 6 56 frag3 4244).
    + apply (reach_alloc (pool 240) frag1 [4100] 6 8 frag2 4228).
      * apply (reach_alloc (pool 240) (pool 240) [] 6 120 frag1 4100).
        -- apply reach_init.
        -- unfold INT_MAX. lia.
        -- apply myalloc_alloc_in. vm_compute. reflexivity.
      * unfold INT_MAX. lia.
      * apply myalloc_alloc_in. vm_compute. reflexivity.
    + unfold INT_MAX. lia.
    + apply myalloc_alloc_in. vm_compute. reflexivity.
  - unfold INT_MAX. lia.
  - apply myalloc_alloc_in. vm_compute. reflexivity.
Defined.

Lemma reach_fragmented : reach (pool 240) fragmented [4308; 4228].
Proof.
  apply (reach_free (pool 240) frag5 [4308; 4244; 4228] 4244).
  - apply (reach_free (pool 240) frag4 [4308; 4244; 4228; 4100] 4100).
    + apply reach_frag4.
    + simpl. auto.
  - simpl. auto.
Defined.

Lemma fragmented_blocks :
  blocks 6 fragmented
  = Some [(4096, 128); (4224, -16); (4240, 64); (4304, -16); (4320, 16)].
Proof. vm_compute. reflexivity. Qed.

(** A pool of 128 bytes after [myalloc(20)] and [myfree] of its result. *)
Lemma reach_pool128_round :
  reach (pool 128) (myfree (alloc_in (pool 128) 2 20) 4100) [].
Proof.
  apply (reach_free (pool 128) (alloc_in (pool 128) 2 20) [4100] 4100).
  - apply reach_pool128_alloc20.
  - simpl. auto.
Defined.

(** * The claims *)

(** C1.  Best fit: on a reachable state whose traversal meets the blocks
    [bl], a call of [myalloc] with a positive [size] for which some block is
    eligible (free, and of size at least [size + 2 * sizeof(int)]) selects an
    eligible block of least size, and among those of that size the one at the
    lowest address; the test of [best_fit_block] holds of exactly the
    eligible blocks. *)
Theorem best_fit_selection st0 st live size fuel bl :
  initial st0 -> reach st0 st live -> 0 < size <= INT_MAX ->
  blocks fuel st = Some bl ->
  (exists p t, In (p, t) bl /\ eligible size t) ->
  exists p t st',
    best_fit_block fuel st size = Some p /\
    myalloc fuel st size = Some (st', p + sizeof_int) /\
    In (p, t) bl /\ eligible size t /\
    (forall p' t', In (p', t') bl -> eligible size t' ->
                   Z.abs t < Z.abs t' \/ (Z.abs t = Z.abs t' /\ p <= p')) /\
    (forall p' t', In (p', t') bl -> (fits st size p' = true <-> eligible size t')).
Proof.
  intros I R Hs Hb (p0 & t0 & Hin0 & He0).
  destruct (reach_inv _ _ _ I R) as (bs & [W _ _ _]).
  pose proof (has_blocks_unique _ _ _ _ (wf_has_blocks _ _ W) Hb) as ->.
  assert (Hf : (List.length bs < fuel)%nat).
  { apply walk_length in Hb. now rewrite blocks_from_length in Hb. }
  assert (Hm : size + 8 <= INT_MAX).
  { eapply eligible_bound; eauto. eapply blocks_from_In_tag; eauto. }
  destruct (myalloc_wf st bs size fuel W Hf Hs)
    as [(_ & Hall)|(xs & t & ys & -> & Ht & Eb & Ea & _ & Et & H1 & H2)].
  - apply blocks_from_In_tag in Hin0. apply Hall in Hin0.
    apply takes_eligible in He0; try lia. congruence.
  - exists (mem st + total xs), t, (alloc_state st size (mem st + total xs) t).
    split; [assumption|]. split; [assumption|].
    split; [rewrite blocks_from_middle; apply in_or_app; right; now left|].
    split; [apply takes_eligible; trivial; lia|]. split.
    + intros p' t' Hin He. apply takes_eligible in He; try lia.
      rewrite blocks_from_middle in Hin. apply in_app_or in Hin.
      destruct Hin as [Hin|[[= <- <-]|Hin]].
      * left. apply H1; trivial. eapply blocks_from_In_tag; eauto.
      * right. split; lia.
      * pose proof (blocks_from_In_addr _ _ _ _ Hin).
        apply blocks_from_In_tag in Hin. specialize (H2 _ Hin He). lia.
    + intros p' t' Hin. destruct (wf_block _ _ _ _ W Hin) as (Hl & _ & Hr & _).
      rewrite (fits_tag st size p' t') by (trivial; lia).
      apply takes_eligible; lia.
Qed.

(** Witness of C1: of the free blocks of 128 and 64 bytes, both eligible for
    a request of 50 bytes, the search takes the block of 64 bytes, which is
    at the higher address. *)
Lemma best_fit_selection_witness :
  best_fit_block 6 fragmented 50 = Some 4240 /\
  exists st', myalloc 6 fragmented 50 = Some (st', 4244).
Proof.
  destruct (best_fit_selection (pool 240) fragmented [4308; 4228] 50 6
              [(4096, 128); (4224, -16); (4240, 64); (4304, -16); (4320, 16)])
    as (p & t & st' & Hb & Ha & Hin & He & Hmin & _).
  - apply pool_initial. unfold INT_MAX. lia.
  - apply reach_fragmented.
  - unfold INT_MAX. lia.
  - apply fragmented_blocks.
  - exists 4240, 64. split; [simpl; auto|]. unfold eligible, sizeof_int. lia.
  - assert (E64 : eligible 50 64) by (unfold eligible, sizeof_int; lia).
    assert (Ep : p = 4240).
    { unfold eligible, sizeof_int in He.
      destruct Hin as [[= <- <-]|[[= <- <-]|[[= <- <-]|[[= <- <-]|[[= <- <-]|[]]]]]];
        try lia.
      destruct (Hmin 4240 64) as [H|H]; simpl; auto; lia. }
    subst p. split; [assumption|]. exists st'. exact Ha.
Defined.

(** C2.  Split threshold: a call of [myalloc] that returned the pointer [p]
    chose the free block at [p - sizeof(int)], of size [orig].  When
    [orig >= size + 4 * sizeof(int)] the block is split: the allocated block
    has [-(size + 2 * sizeof(int))] in its header and footer, and the block
    right after it has [orig - (size + 2 * sizeof(int))] in its header and in
    the footer of the chosen block.  Otherwise the chosen block is kept whole
    and its header and footer are negated.  The other blocks stay as they
    are. *)
Theorem split_threshold st0 st live size fuel st' p :
  initial st0 -> reach st0 st live -> 0 < size <= INT_MAX ->
  myalloc fuel st size = Some (st', p) -> p <> 0 ->
  exists l1 orig l2,
    let hd := p - sizeof_int in
    let need := size + 2 * sizeof_int in
    best_fit_block fuel st size = Some hd /\
    has_blocks st (l1 ++ (hd, orig) :: l2) /\ 0 < orig /\
    load st (get_footer st hd) = orig /\
    (splits st size hd = true <-> size + 4 * sizeof_int <= orig) /\
    (size + 4 * sizeof_int <= orig ->
     has_blocks st' (l1 ++ (hd, - need) :: (hd + need, orig - need) :: l2) /\
     load st' hd = - need /\ load st' (get_footer st' hd) = - need /\
     get_footer st' hd + sizeof_int = hd + need /\
     load st' (hd + need) = orig - need /\
     load st' (get_footer st' (hd + need)) = orig - need /\
     get_footer st' (hd + need) = get_footer st hd) /\
    (orig < size + 4 * sizeof_int ->
     has_blocks st' (l1 ++ (hd, - orig) :: l2) /\
     load st' hd = - orig /\ load st' (get_footer st' hd) = - orig /\
     get_footer st' hd = get_footer st hd).
Proof.
  intros I R Hs Ha Hp.
  destruct (myalloc_reach _ _ _ _ _ _ _ I R Hs Ha Hp)
    as (xs & t & ys & W & Ht & -> & Eb & -> & W' & _).
  set (hd := mem st + total xs) in *.
  exists (blocks_from (mem st) xs), t, (blocks_from (hd + Z.abs t) ys).
  cbv zeta. unfold sizeof_int.
  replace (hd + 4 - 4) with hd by lia.
  assert (Hin : In (hd, t) (blocks_from (mem st) (xs ++ t :: ys))).
  { rewrite blocks_from_middle. apply in_or_app. right. now left. }
  destruct (wf_block _ _ _ _ W Hin) as (Hh & Hf & Hr & _).
  rewrite Z.abs_eq in Hf, Hr by lia.
  assert (Gf : get_footer st hd = hd + t - 4).
  { rewrite (get_footer_tag st hd t), Z.abs_eq; trivial; lia. }
  pose proof (wf_has_blocks _ _ W') as B'.
  destruct (alloc_state_globals st size hd t) as (Gm & _).
  rewrite Gm in B'. unfold alloc_layout, alloc_state in *.
  split; [assumption|]. split.
  { rewrite <- blocks_from_middle. now apply wf_has_blocks. }
  split; [assumption|]. split; [now rewrite Gf|]. split.
  { rewrite (splits_tag st size hd t) by (trivial; lia). rewrite Z.leb_le. lia. }
  split.
  - intros Hsp. destruct (size + 16 <=? t) eqn:E; [|lia].
    change (xs ++ [- (size + 8); t - (size + 8)] ++ ys)
      with (xs ++ - (size + 8) :: ([t - (size + 8)] ++ ys)) in B'.
    rewrite blocks_from_middle in B'. cbn [app blocks_from] in B'. fold hd in B'.
    replace (hd + Z.abs (- (size + 8))) with (hd + (size + 2 * 4)) in B' by lia.
    replace (hd + (size + 2 * 4) + Z.abs (t - (size + 8))) with (hd + Z.abs t) in B' by lia.
    replace (- (size + 8)) with (- (size + 2 * 4)) in B' by lia.
    replace (t - (size + 8)) with (t - (size + 2 * 4)) in B' by lia.
    split; [assumption|].
    replace (size + 2 * 4) with (size + 8) by lia.
    assert (F1 : get_footer (split_state st size hd t) hd = hd + size + 4).
    { rewrite (get_footer_tag _ hd (- (size + 8))); [lia| |int_range].
      unfold split_state. loads. reflexivity. }
    assert (F2 : get_footer (split_state st size hd t) (hd + (size + 8)) = hd + t - 4).
    { rewrite (get_footer_tag _ _ (t - (size + 8))); [lia| |int_range].
      unfold split_state. replace (hd + (size + 8)) with (hd + size + 8) by lia.
      loads. reflexivity. }
    rewrite F1, F2, Gf. unfold split_state.
    replace (hd + (size + 8)) with (hd + size + 8) by lia.
    repeat split; loads; lia.
  - intros Hsp. destruct (size + 16 <=? t) eqn:E; [lia|].
    change (xs ++ [- t] ++ ys) with (xs ++ - t :: ys) in B'.
    rewrite blocks_from_middle in B'. fold hd in B'.
    replace (hd + Z.abs (- t)) with (hd + Z.abs t) in B' by lia.
    split; [assumption|].
    assert (F1 : get_footer (taken_state st hd t) hd = hd + t - 4).
    { rewrite (get_footer_tag _ hd (- t)); [lia| |int_range].
      unfold taken_state. loads. reflexivity. }
    rewrite F1, Gf. unfold taken_state. repeat split; loads; lia.
Qed.

(** Witness of C2: [myalloc(20)] splits the block of 128 bytes. *)
Lemma split_threshold_witness :
  has_blocks (alloc_in (pool 128) 2 20) [(4096, -28); (4124, 100)].
Proof.
  destruct (split_threshold (pool 128) (pool 128) [] 20 2 (alloc_in (pool 128) 2 20) 4100)
    as (l1 & orig & l2 & _ & HB & _ & Hf & _ & Hsplit & _).
  - apply pool_initial. unfold INT_MAX. lia.
  - apply reach_init.
  - unfold INT_MAX. lia.
  - apply myalloc_alloc_in. vm_compute. reflexivity.
  - lia.
  - assert (E : orig = 128) by (rewrite <- Hf; vm_compute; reflexivity).
    subst orig.
    assert (B : blocks 2 (pool 128) = Some [(4096, 128)]) by (vm_compute; reflexivity).
    apply (has_blocks_unique _ _ _ _ HB) in B.
    destruct l1 as [|x l1]; [|destruct l1; discriminate].
    destruct l2 as [|y l2]; [|discriminate].
    apply Hsplit. rewrite E. unfold sizeof_int. lia.
Defined.

(** C3.  No two neighbouring blocks of a reachable state are both free.  In
    particular, after [myfree] of a live pointer: the freed block and those of
    its two neighbours that were free are one free block of the new state,
    which starts at the left neighbour if it was free and ends with the right
    neighbour if it was free, and no two neighbouring blocks of the new state
    are both free. *)
Theorem no_two_adjacent_free st0 st live :
  initial st0 -> reach st0 st live ->
  (exists bl, has_blocks st bl /\ no_adjacent_free (map snd bl)) /\
  (forall p, In p live ->
     exists bl' s,
       has_blocks (myfree st p) bl' /\ no_adjacent_free (map snd bl') /\
       load st (p - sizeof_int) = - s /\ 0 < s /\
       let l := Z.max 0 (left_tag st (p - sizeof_int)) in
       let r := Z.max 0 (right_tag st (p - sizeof_int) s) in
       In (p - sizeof_int - l, l + s + r) bl').
Proof.
  intros I R. split.
  - destruct (reach_inv _ _ _ I R) as (bs & [W _ _ _]).
    exists (blocks_from (mem st) bs). split; [now apply wf_has_blocks|].
    rewrite blocks_from_tags. apply W.
  - intros p Hp. unfold sizeof_int.
    destruct (myfree_reach _ _ _ _ I R Hp) as (xs & s & ys & W & Hs & -> & El & Er & E & W').
    exists (blocks_from (mem (myfree st (mem st + total xs + 4))) (free_layout xs s ys)), s.
    split; [now apply wf_has_blocks|].
    split; [rewrite blocks_from_tags; apply W'|].
    replace (mem st + total xs + 4 - 4) with (mem st + total xs) in * by lia.
    assert (Hin : In (mem st + total xs, - s) (blocks_from (mem st) (xs ++ - s :: ys))).
    { rewrite blocks_from_middle. apply in_or_app. right. now left. }
    destruct (wf_block _ _ _ _ W Hin) as (Hh & _).
    split; [assumption|]. split; [assumption|]. cbv zeta.
    rewrite El, Er, E.
    destruct (freed_state_globals st (mem st + total xs) s (last xs 0) (hd 0 ys)) as (-> & _).
    unfold free_layout.
    change (keep_left xs ++ [Z.max 0 (last xs 0) + s + Z.max 0 (hd 0 ys)] ++ keep_right ys)
      with (keep_left xs ++ (Z.max 0 (last xs 0) + s + Z.max 0 (hd 0 ys)) :: keep_right ys).
    rewrite blocks_from_middle, keep_left_total.
    apply in_or_app. right. left. f_equal. lia.
Qed.

(** Witness of C3: after [myalloc(20)] and [myfree] the freed block and the
    free block after it are one block. *)
Lemma no_two_adjacent_free_witness :
  exists bl',
    has_blocks (myfree (alloc_in (pool 128) 2 20) 4100) bl' /\
    no_adjacent_free (map snd bl') /\ In (4096, 128) bl'.
Proof.
  destruct (no_two_adjacent_free (pool 128) (alloc_in (pool 128) 2 20) [4100])
    as (_ & HF).
  - apply pool_initial. unfold INT_MAX. lia.
  - apply reach_pool128_alloc20.
  - destruct (HF 4100 (or_introl eq_refl)) as (bl' & s & HB & HN & Hl & Hs & Hin).
    assert (E : s = 28).
    { assert (L : load (alloc_in (pool 128) 2 20) (4100 - sizeof_int) = -28)
        by (vm_compute; reflexivity).
      lia. }
    subst s. exists bl'. split; [assumption|]. split; [assumption|].
    exact Hin.
Defined.

(** C4.  The blocks met by the traversal of a reachable state tile the pool:
    the first starts where the pool starts, each next one starts where the
    one before it ends, the last ends where the pool ends, and the sizes add
    up to the capacity. *)
Theorem blocks_tile_the_pool st0 st live :
  initial st0 -> reach st0 st live ->
  exists bl,
    has_blocks st bl /\
    tiles (mem st0) bl (mem st0 + MEMORY_SIZE st0) /\
    total (map snd bl) = MEMORY_SIZE st0.
Proof.
  intros I R. destruct (reach_inv _ _ _ I R) as (bs & [W _ Em Es]).
  exists (blocks_from (mem st) bs). split; [now apply wf_has_blocks|].
  rewrite blocks_from_tags, <- Em, <- Es, <- (wf_total _ _ W).
  split; [|reflexivity]. apply (blocks_from_tiles (heap st)). apply W.
Qed.

(** Witness of C4. *)
Lemma blocks_tile_the_pool_witness :
  exists bl,
    has_blocks (alloc_in (pool 128) 2 20) bl /\
    tiles 4096 bl 4224 /\ total (map snd bl) = 128.
Proof.
  apply (blocks_tile_the_pool (pool 128) (alloc_in (pool 128) 2 20) [4100]).
  - apply pool_initial. unfold INT_MAX. lia.
  - apply reach_pool128_alloc20.
Defined.

(** C5.  Round trip: when every pointer that [myalloc] returned has been
    freed, the pool is one free block with the capacity in its header and in
    its footer, as it was after [init_myalloc].  With a capacity of 128:
    [myalloc(20)] returns the first payload address and leaves an allocated
    block of 28 bytes followed by a free block of 100 bytes, and [myfree] of
    that pointer leaves one free block of 128 bytes. *)
Theorem round_trip st0 st :
  initial st0 -> reach st0 st [] ->
  (has_blocks st [(mem st0, MEMORY_SIZE st0)] /\
   has_blocks st0 [(mem st0, MEMORY_SIZE st0)] /\
   load st (mem st0) = MEMORY_SIZE st0 /\
   load st (mem st0 + MEMORY_SIZE st0 - sizeof_int) = MEMORY_SIZE st0 /\
   mem st = mem st0 /\ end_ st = end_ st0 /\ MEMORY_SIZE st = MEMORY_SIZE st0) /\
  (MEMORY_SIZE st0 = 128 ->
   forall fuel, (1 < fuel)%nat ->
   exists st1,
     myalloc fuel st0 20 = Some (st1, mem st0 + sizeof_int) /\
     has_blocks st1 [(mem st0, -28); (mem st0 + 28, 100)] /\
     has_blocks (myfree st1 (mem st0 + sizeof_int)) [(mem st0, 128)]).
Proof.
  intros I R.
  assert (Single : forall s, reach st0 s [] ->
            wf s [MEMORY_SIZE st0] /\ mem s = mem st0 /\ MEMORY_SIZE s = MEMORY_SIZE st0).
  { intros s Rs. destruct (reach_inv _ _ _ I Rs) as (bs & [W L Em Es]).
    assert (P : payloads (mem s) bs = []).
    { destruct (payloads (mem s) bs) as [|q qs] eqn:E; trivial.
      exfalso. apply (L q). now left. }
    destruct (all_free_single _ _ _ (wf_seg _ _ W) (wf_nonempty _ _ W) (wf_naf _ _ W) P)
      as (E & _).
    rewrite (wf_total _ _ W), Es in E. rewrite E in W. auto. }
  destruct (Single st R) as (W & Em & Es).
  destruct (Single st0 (reach_init st0)) as (W0 & _ & _).
  split.
  - pose proof (wf_has_blocks _ _ W) as B. pose proof (wf_has_blocks _ _ W0) as B0.
    cbn [blocks_from] in B, B0. rewrite Em in B.
    assert (Hin : In (mem st, MEMORY_SIZE st0) (blocks_from (mem st) [MEMORY_SIZE st0]))
      by now left.
    destruct (wf_block _ _ _ _ W Hin) as (Hh & Hf & Hr & _).
    pose proof (wf_total _ _ W) as T. simpl in T.
    rewrite Z.abs_eq in Hf by lia. rewrite Em in Hh, Hf.
    repeat split; trivial.
    rewrite (wf_end _ _ W), (wf_end _ _ W0). congruence.
  - intros EC fuel Hfuel. rewrite EC in *. unfold sizeof_int.
    destruct (myalloc_wf st0 [128] 20 fuel W0 ltac:(simpl; lia) ltac:(int_range))
      as [(_ & Hall)|(xs & t & ys & Ebs & Ht & _ & Ea & W1 & _)].
    + specialize (Hall 128 ltac:(now left)). discriminate.
    + destruct xs as [|x xs]; [|destruct xs; discriminate].
      simpl in Ebs. injection Ebs as <- <-.
      simpl in Ea, W1. rewrite Z.add_0_r in Ea, W1.
      exists (alloc_state st0 20 (mem st0) 128). split; [assumption|].
      change (alloc_layout 20 [] 128 []) with ([] ++ -28 :: [100]) in W1.
      split.
      * pose proof (wf_has_blocks _ _ W1) as B. exact B.
      * destruct (free_wf _ [] 28 [100] W1 ltac:(lia)) as (_ & W2).
        pose proof (wf_has_blocks _ _ W2) as B. simpl in B.
        rewrite Z.add_0_r in B.
        rewrite (proj1 (myfree_globals _ _)) in B. exact B.
Qed.

(** Witness of C5. *)
Lemma round_trip_witness :
  has_blocks (myfree (alloc_in (pool 128) 2 20) 4100) [(4096, 128)] /\
  exists st1,
    myalloc 2 (pool 128) 20 = Some (st1, 4100) /\
    has_blocks st1 [(4096, -28); (4124, 100)] /\
    has_blocks (myfree st1 4100) [(4096, 128)].
Proof.
  destruct (round_trip (pool 128) (myfree (alloc_in (pool 128) 2 20) 4100))
    as ((H1 & _) & H2).
  - apply pool_initial. unfold INT_MAX. lia.
  - apply reach_pool128_round.
  - split; [exact H1|]. exact (H2 eq_refl 2%nat (Nat.lt_succ_diag_r 1)).
Defined.

(** C6 at the failing input [myalloc(2147483647)] on a pool of 128 bytes:
    [size + 8] wraps to a negative [int], the test of line 93 takes the free
    block of 128 bytes although it is not eligible, and [myalloc] returns a
    pointer, writes no diagnostic and changes the tags of the block. *)
Theorem exhaustion_missed_on_overflow :
  initial (pool 128) /\
  blocks 2 (pool 128) = Some [(4096, 128)] /\
  ~ eligible 2147483647 128 /\
  add_int 2147483647 8 = -2147483641 /\
  exists st',
    myalloc 2 (pool 128) 2147483647 = Some (st', 4100) /\
    stderr st' = [] /\
    blocks 2 st' = Some [(4096, -128)].
Proof.
  split; [apply pool_initial; unfold INT_MAX; lia|].
  split; [vm_compute; reflexivity|].
  split; [unfold eligible, sizeof_int; lia|].
  split; [vm_compute; reflexivity|].
  exists (alloc_in (pool 128) 2 2147483647).
  split; [apply myalloc_alloc_in; vm_compute; reflexivity|].
  split; vm_compute; reflexivity.
Qed.

(** C7, as the code has it.  Every block of a reachable state has room for
    its two tags: its size is at least [2 * sizeof(int)].  (A payload may be
    empty, and may be any number of bytes.) *)
Theorem blocks_hold_two_tags st0 st live :
  initial st0 -> reach st0 st live ->
  exists bl,
    has_blocks st bl /\
    Forall (fun b => 2 * sizeof_int <= Z.abs (snd b)) bl.
Proof.
  intros I R. destruct (reach_inv _ _ _ I R) as (bs & [W _ _ _]).
  exists (blocks_from (mem st) bs). split; [now apply wf_has_blocks|].
  apply Forall_forall. intros [p t] Hin. destruct (wf_block _ _ _ _ W Hin) as (_ & _ & Hr & _).
  unfold sizeof_int. simpl. lia.
Qed.

(** Witness of C7, as the code has it. *)
Lemma blocks_hold_two_tags_witness :
  exists bl,
    has_blocks (alloc_in (pool 32) 3 16) bl /\
    Forall (fun b => 2 * sizeof_int <= Z.abs (snd b)) bl.
Proof.
  apply (blocks_hold_two_tags (pool 32) (alloc_in (pool 32) 3 16) [4100]).
  - apply pool_initial. unfold INT_MAX. lia.
  - apply reach_pool32_alloc16.
Defined.

(** C7 as stated fails: after [init_myalloc] with 32 bytes and [myalloc(16)]
    the pool holds an allocated block of 24 bytes and a free block of 8
    bytes, which is less than three words. *)
Lemma block_of_two_words :
  initial (pool 32) /\
  reach (pool 32) (alloc_in (pool 32) 3 16) [4100] /\
  blocks 3 (alloc_in (pool 32) 3 16) = Some [(4096, -24); (4120, 8)] /\
  ~ Forall (fun b => 3 * sizeof_int <= Z.abs (snd b)) [(4096, -24); (4120, 8)].
Proof.
  split; [apply pool_initial; unfold INT_MAX; lia|].
  split; [apply reach_pool32_alloc16|].
  split; [vm_compute; reflexivity|].
  intros H. inversion H as [|b l H1 H2]; subst.
  inversion H2 as [|b' l' H3 H4]; subst.
  unfold sizeof_int in H3. simpl in H3. lia.
Qed.

(** C8 at the failing input [myalloc(2147483647)] on a pool of 128 bytes: the
    pointer is one word after the header of the chosen block, and the block
    has 120 bytes between its header and its footer. *)
Theorem oversized_request_gets_short_block :
  exists st',
    myalloc 2 (pool 128) 2147483647 = Some (st', 4096 + sizeof_int) /\
    best_fit_block 2 (pool 128) 2147483647 = Some 4096 /\
    load st' 4096 = -128 /\
    get_footer st' 4096 - (4096 + sizeof_int) = 120.
Proof.
  exists (alloc_in (pool 128) 2 2147483647).
  split; [apply myalloc_alloc_in; vm_compute; reflexivity|].
  repeat split; vm_compute; reflexivity.
Qed.

(** C9.  In a reachable state the header and the footer of every block hold
    the same tag (same magnitude, same sign), which is not zero, and the
    magnitude is the size of the block: the footer is the last word of the
    block and the blocks tile the pool. *)
Theorem header_footer_agree st0 st live :
  initial st0 -> reach st0 st live ->
  exists bl,
    has_blocks st bl /\ tiles (mem st) bl (end_ st) /\
    forall p t, In (p, t) bl ->
      load st p = t /\ load st (get_footer st p) = t /\ t <> 0 /\
      get_footer st p = p + Z.abs t - sizeof_int.
Proof.
  intros I R. destruct (reach_inv _ _ _ I R) as (bs & [W _ _ _]).
  exists (blocks_from (mem st) bs). split; [now apply wf_has_blocks|]. split.
  - rewrite (wf_end _ _ W), <- (wf_total _ _ W).
    apply (blocks_from_tiles (heap st)). apply W.
  - intros p t Hin. destruct (wf_block _ _ _ _ W Hin) as (Hh & Hf & Hr & _).
    rewrite (get_footer_tag st p t) by (trivial; lia).
    unfold sizeof_int. repeat split; trivial. lia.
Qed.

(** Witness of C9. *)
Lemma header_footer_agree_witness :
  exists bl,
    has_blocks (alloc_in (pool 128) 2 20) bl /\
    tiles 4096 bl 4224 /\
    forall p t, In (p, t) bl ->
      load (alloc_in (pool 128) 2 20) p = t /\
      load (alloc_in (pool 128) 2 20) (get_footer (alloc_in (pool 128) 2 20) p) = t /\
      t <> 0 /\
      get_footer (alloc_in (pool 128) 2 20) p = p + Z.abs t - sizeof_int.
Proof.
  apply (header_footer_agree (pool 128) (alloc_in (pool 128) 2 20) [4100]).
  - apply pool_initial. unfold INT_MAX. lia.
  - apply reach_pool128_alloc20.
Defined.

(** C10.  Frame.  A call of [myalloc] that returned a pointer changed only
    bytes of the header and footer of the allocated block and, when it split,
    of the header and footer of the block right after it; it changed no byte
    of a block that was allocated before.  A call of [myfree] on a live
    pointer changed only bytes of tags of the freed block and of those of its
    two neighbours that were free; it changed no payload byte of any block. *)
Theorem operations_write_tags_only st0 st live :
  initial st0 -> reach st0 st live ->
  exists bl,
    has_blocks st bl /\
    (forall fuel size st' p,
       0 < size <= INT_MAX -> myalloc fuel st size = Some (st', p) -> p <> 0 ->
       let hd := p - sizeof_int in
       (forall a,
          heap st' a = heap st a \/ tag_word st' hd a \/
          (size + 4 * sizeof_int <= load st hd /\
           tag_word st' (hd + size + 2 * sizeof_int) a)) /\
       (forall q t a,
          In (q, t) bl -> t < 0 -> q <= a < q + Z.abs t -> heap st' a = heap st a)) /\
    (forall p,
       In p live ->
       let hd := p - sizeof_int in
       (forall a,
          heap (myfree st p) a = heap st a \/
          exists q t,
            In (q, t) bl /\ tag_word st q a /\
            (q = hd \/ (0 < t /\ (q + t = hd \/ q = hd + Z.abs (load st hd))))) /\
       (forall q t a,
          In (q, t) bl -> q + sizeof_int <= a < get_footer st q ->
          heap (myfree st p) a = heap st a)).
Proof.
  intros I R. destruct (reach_inv _ _ _ I R) as (bs & [W _ _ _]).
  exists (blocks_from (mem st) bs). split; [now apply wf_has_blocks|]. split.
  - intros fuel size st' p Hs Ha Hp. cbv zeta. unfold tag_word, sizeof_int.
    destruct (myalloc_reach _ _ _ _ _ _ _ I R Hs Ha Hp)
      as (xs & t & ys & W1 & Ht & -> & _ & -> & W' & _).
    set (hd := mem st + total xs) in *.
    replace (hd + 4 - 4) with hd by lia.
    assert (Hin : In (hd, t) (blocks_from (mem st) (xs ++ t :: ys))).
    { rewrite blocks_from_middle. apply in_or_app. right. now left. }
    destruct (wf_block _ _ _ _ W1 Hin) as (Hh & _ & Hr & _).
    rewrite Z.abs_eq in Hr by lia. rewrite Hh. split.
    + intros a. destruct (alloc_state_bytes st size hd t a) as [H|[H|H]].
      * right. left. left. lia.
      * unfold alloc_state in *. destruct (size + 16 <=? t) eqn:E.
        -- assert (F1 : get_footer (split_state st size hd t) hd = hd + size + 4).
           { rewrite (get_footer_tag _ hd (- (size + 8))); [lia| |int_range].
             unfold split_state. loads. reflexivity. }
           assert (F2 : get_footer (split_state st size hd t) (hd + size + 2 * 4)
                        = hd + t - 4).
           { rewrite (get_footer_tag _ _ (t - (size + 8))); [lia| |int_range].
             unfold split_state. replace (hd + size + 2 * 4) with (hd + size + 8) by lia.
             loads. reflexivity. }
           rewrite F1, F2. right.
           destruct (Z_lt_le_dec a (hd + size + 8)); [left|right]; lia.
        -- assert (F1 : get_footer (taken_state st hd t) hd = hd + t - 4).
           { rewrite (get_footer_tag _ hd (- t)); [lia| |int_range].
             unfold taken_state. loads. reflexivity. }
           rewrite F1. right. left. right. lia.
      * now left.
    + intros q u a Hq Hu Ha'.
      assert (bs = xs ++ t :: ys) as ->.
      { pose proof (wf_has_blocks _ _ W) as B1. pose proof (wf_has_blocks _ _ W1) as B2.
        specialize (B2 _ (Nat.lt_succ_diag_r _)).
        apply (has_blocks_unique _ _ _ _ B1) in B2.
        apply (f_equal (map snd)) in B2. now rewrite !blocks_from_tags in B2. }
      destruct (blocks_disjoint _ _ _ _ _ _ _ (wf_seg _ _ W1) Hq Hin) as [(_ & ->)|D]; [lia|].
      apply alloc_state_frame; lia.
  - intros p Hp. cbv zeta. unfold tag_word, sizeof_int.
    destruct (myfree_reach _ _ _ _ I R Hp) as (xs & s & ys & W1 & Hs & -> & El & Er & E & _).
    assert (bs = xs ++ - s :: ys) as ->.
    { pose proof (wf_has_blocks _ _ W) as B1. pose proof (wf_has_blocks _ _ W1) as B2.
      specialize (B2 _ (Nat.lt_succ_diag_r _)).
      apply (has_blocks_unique _ _ _ _ B1) in B2.
      apply (f_equal (map snd)) in B2. now rewrite !blocks_from_tags in B2. }
    replace (mem st + total xs + 4 - 4) with (mem st + total xs) in * by lia.
    set (hd0 := mem st + total xs) in *.
    destruct (neighbours_wf st xs s ys W Hs) as (_ & _ & Hl & Hr & _). fold hd0 in Hl, Hr.
    assert (Hin : In (hd0, - s) (blocks_from (mem st) (xs ++ - s :: ys))).
    { rewrite blocks_from_middle. apply in_or_app. right. now left. }
    destruct (wf_block _ _ _ _ W Hin) as (Hh & _ & Hrg & _).
    replace (Z.abs (- s)) with s in Hrg by lia.
    assert (Written : forall a,
              heap (myfree st (hd0 + 4)) a = heap st a \/
              exists q t,
                In (q, t) (blocks_from (mem st) (xs ++ - s :: ys)) /\
                (q <= a < q + 4 \/ get_footer st q <= a < get_footer st q + 4) /\
                (q = hd0 \/ (0 < t /\ (q + t = hd0 \/ q = hd0 + Z.abs (load st hd0))))).
    { intros a. rewrite E, Hh. replace (Z.abs (- s)) with s by lia.
      destruct (freed_state_bytes st hd0 s (last xs 0) (hd 0 ys) ltac:(lia)
                  (fun H => proj1 (Hl H)) (fun H => proj1 (Hr H)) a)
        as [H|[H|[H|[H|H]]]]; [right|right|right|right|now left].
      - exists hd0, (- s). split; [assumption|]. split; [left; lia|now left].
      - exists hd0, (- s). split; [assumption|]. split; [|now left].
        right. rewrite (get_footer_tag st hd0 (- s)) by (trivial; lia). lia.
      - destruct H as (Hpos & H). destruct (Hl Hpos) as (Hl8 & _).
        exists (hd0 - last xs 0), (last xs 0). split; [|split; [left; lia|right; lia]].
        clear - Hpos. subst hd0.
        destruct (list_snoc_cases xs) as [->|(xs' & l & ->)]; [simpl in Hpos; lia|].
        rewrite last_last in *. rewrite <- app_assoc. cbn [app].
        rewrite blocks_from_middle. apply in_or_app. right. left. f_equal.
        rewrite total_app. simpl. lia.
      - destruct H as (Hpos & H). destruct (Hr Hpos) as (Hr8 & _).
        destruct ys as [|r ys]; [simpl in Hpos; lia|]. cbn [hd] in *.
        assert (Hinr : In (hd0 + s, r) (blocks_from (mem st) (xs ++ - s :: r :: ys))).
        { rewrite blocks_from_middle. apply in_or_app. right. right.
          fold hd0. replace (Z.abs (- s)) with s by lia. now left. }
        destruct (wf_block _ _ _ _ W Hinr) as (Hrh & _ & Hrr & _).
        exists (hd0 + s), r. split; [assumption|]. split; [|right; lia].
        right. rewrite (get_footer_tag st (hd0 + s) r) by (trivial; lia). lia. }
    split; [exact Written|].
    intros q t a Hq Ha. destruct (Written a) as [H|(q' & t' & Hq' & Hw & _)]; trivial.
    exfalso.
    destruct (wf_block _ _ _ _ W Hq) as (Hqh & _ & Hqr & _).
    destruct (wf_block _ _ _ _ W Hq') as (Hqh' & _ & Hqr' & _).
    rewrite (get_footer_tag st q t) in Ha by (trivial; lia).
    rewrite (get_footer_tag st q' t') in Hw by (trivial; lia).
    destruct (blocks_disjoint _ _ _ _ _ _ _ (wf_seg _ _ W) Hq Hq') as [(-> & ->)|D]; lia.
Qed.

(** Witness of C10: on the pool of 128 bytes after [myalloc(20)], for
    [myalloc(8)], which splits the free block at 4124, and for [myfree] of the
    allocated block. *)
Lemma operations_write_tags_only_witness :
  exists bl,
    has_blocks (alloc_in (pool 128) 2 20) bl /\
    ((forall a,
        heap (alloc_in (alloc_in (pool 128) 2 20) 3 8) a
        = heap (alloc_in (pool 128) 2 20) a \/
        tag_word (alloc_in (alloc_in (pool 128) 2 20) 3 8) 4124 a \/
        (8 + 4 * sizeof_int <= load (alloc_in (pool 128) 2 20) 4124 /\
         tag_word (alloc_in (alloc_in (pool 128) 2 20) 3 8) 4140 a)) /\
     (forall q t a,
        In (q, t) bl -> t < 0 -> q <= a < q + Z.abs t ->
        heap (alloc_in (alloc_in (pool 128) 2 20) 3 8) a
        = heap (alloc_in (pool 128) 2 20) a)) /\
    ((forall a,
        heap (myfree (alloc_in (pool 128) 2 20) 4100) a
        = heap (alloc_in (pool 128) 2 20) a \/
        exists q t,
          In (q, t) bl /\ tag_word (alloc_in (pool 128) 2 20) q a /\
          (q = 4096 \/
           (0 < t /\
            (q + t = 4096 \/
             q = 4096 + Z.abs (load (alloc_in (pool 128) 2 20) 4096))))) /\
     (forall q t a,
        In (q, t) bl ->
        q + sizeof_int <= a < get_footer (alloc_in (pool 128) 2 20) q ->
        heap (myfree (alloc_in (pool 128) 2 20) 4100) a
        = heap (alloc_in (pool 128) 2 20) a)).
Proof.
  destruct (operations_write_tags_only (pool 128) (alloc_in (pool 128) 2 20) [4100])
    as (bl & HB & HA & HF).
  - apply pool_initial. unfold INT_MAX. lia.
  - apply reach_pool128_alloc20.
  - exists bl. split; [exact HB|]. split.
    + apply (HA 3%nat 8 (alloc_in (alloc_in (pool 128) 2 20) 3 8) 4128).
      * unfold INT_MAX. lia.
      * apply myalloc_alloc_in. vm_compute. reflexivity.
      * lia.
    + apply (HF 4100). simpl. auto.
Defined.

(** * Further properties of the code *)

(** ** [init_myalloc] *)

(** X1.  [init_myalloc] on a pool with room for two tags: it returns when
    [malloc] did, the first and the last word of the pool hold the capacity,
    [end] is the address after the pool, nothing is written to [stderr], and
    every byte that is not in these two words keeps the content it had. *)
Theorem init_writes_two_tags memory_size malloc_result h :
  8 <= memory_size <= INT_MAX -> malloc_result <> 0 ->
  exists st,
    init_myalloc memory_size malloc_result h = Some st /\
    mem st = malloc_result /\ end_ st = malloc_result + memory_size /\
    MEMORY_SIZE st = memory_size /\ stderr st = [] /\
    load st (mem st) = memory_size /\
    load st (end_ st - sizeof_int) = memory_size /\
    forall a,
      ~ mem st <= a < mem st + sizeof_int ->
      ~ end_ st - sizeof_int <= a < end_ st ->
      heap st a = h a.
Proof.
  intros HC Hb. unfold init_myalloc.
  destruct (malloc_result =? 0) eqn:E; [lia|].
  eexists. split; [reflexivity|]. unfold sizeof_int, load. cbn [mem end_ MEMORY_SIZE stderr heap].
  split; [reflexivity|]. split; [lia|]. split; [reflexivity|]. split; [reflexivity|].
  split; [|split].
  - rewrite load_store_other, load_store_same by lia. apply wrap_int_id. int_range.
  - replace (malloc_result + memory_size - 4 + 4 - 4)
      with (malloc_result + memory_size - 4) by lia.
    rewrite load_store_same. apply wrap_int_id. int_range.
  - intros a H1 H2. rewrite !store_int_other by lia. reflexivity.
Qed.

Lemma init_writes_two_tags_witness :
  exists st,
    init_myalloc 128 4096 zero_memory = Some st /\
    mem st = 4096 /\ end_ st = 4096 + 128 /\
    MEMORY_SIZE st = 128 /\ stderr st = [] /\
    load st (mem st) = 128 /\
    load st (end_ st - sizeof_int) = 128 /\
    forall a,
      ~ mem st <= a < mem st + sizeof_int ->
      ~ end_ st - sizeof_int <= a < end_ st ->
      heap st a = zero_memory a.
Proof.
  apply (init_writes_two_tags 128 4096 zero_memory).
  - unfold INT_MAX. lia.
  - lia.
Defined.

(** The bytes of a load. *)
Lemma load_int_bytes h p b0 b1 b2 b3 :
  h p = b0 -> h (p + 1) = b1 -> h (p + 2) = b2 -> h (p + 3) = b3 ->
  load_int h p
  = wrap_int (b0 mod 256 + 256 * (b1 mod 256) + 65536 * (b2 mod 256)
              + 16777216 * (b3 mod 256)).
Proof. intros <- <- <- <-. reflexivity. Qed.

(** X2.  A pool of 5, 6 or 7 bytes is too small: the footer that
    [init_myalloc] writes overlaps the header, and the header no longer holds
    the capacity. *)
Theorem init_small_pool_overlaps memory_size malloc_result h st :
  4 < memory_size < 8 ->
  init_myalloc memory_size malloc_result h = Some st ->
  load st (mem st) <> memory_size /\
  load st (end_ st - sizeof_int) = memory_size.
Proof.
  intros HC H. unfold init_myalloc in H.
  destruct (malloc_result =? 0); [discriminate|]. injection H as <-.
  unfold sizeof_int, load. cbn [mem end_ heap].
  replace (malloc_result + memory_size - 4 + 4 - 4)
    with (malloc_result + memory_size - 4) by lia.
  split.
  - assert (C : memory_size = 5 \/ memory_size = 6 \/ memory_size = 7) by lia.
    set (b := malloc_result).
    destruct C as [->|[->| ->]].
    + rewrite (load_int_bytes _ b (byte_of 5 0) (byte_of 5 0) (byte_of 5 1) (byte_of 5 2)).
      * vm_compute. discriminate.
      * rewrite store_int_other by lia. replace b with (b + 0) at 2 by lia.
        rewrite store_int_at by lia. reflexivity.
      * replace (b + 1) with (b + 5 - 4 + 0) by lia. apply store_int_at. lia.
      * replace (b + 2) with (b + 5 - 4 + 1) by lia. apply store_int_at. lia.
      * replace (b + 3) with (b + 5 - 4 + 2) by lia. apply store_int_at. lia.
    + rewrite (load_int_bytes _ b (byte_of 6 0) (byte_of 6 1) (byte_of 6 0) (byte_of 6 1)).
      * vm_compute. discriminate.
      * rewrite store_int_other by lia. replace b with (b + 0) at 2 by lia.
        rewrite store_int_at by lia. reflexivity.
      * rewrite store_int_other by lia. apply store_int_at. lia.
      * replace (b + 2) with (b + 6 - 4 + 0) by lia. apply store_int_at. lia.
      * replace (b + 3) with (b + 6 - 4 + 1) by lia. apply store_int_at. lia.
    + rewrite (load_int_bytes _ b (byte_of 7 0) (byte_of 7 1) (byte_of 7 2) (byte_of 7 0)).
      * vm_compute. discriminate.
      * rewrite store_int_other by lia. replace b with (b + 0) at 2 by lia.
        rewrite store_int_at by lia. reflexivity.
      * rewrite store_int_other by lia. apply store_int_at. lia.
      * rewrite store_int_other by lia. apply store_int_at. lia.
      * replace (b + 3) with (b + 7 - 4 + 0) by lia. apply store_int_at. lia.
  - rewrite load_store_same. apply wrap_int_id. int_range.
Qed.

Lemma init_small_pool_overlaps_witness :
  load (pool 6) (mem (pool 6)) <> 6 /\
  load (pool 6) (end_ (pool 6) - sizeof_int) = 6.
Proof.
  apply (init_small_pool_overlaps 6 4096 zero_memory (pool 6)).
  - lia.
  - reflexivity.
Defined.

(** ** Navigation between blocks *)

(** Two neighbouring blocks of the traversal come from neighbouring tags of
    the layout. *)
Lemma blocks_from_pair bs : forall a l1 q u p t l2,
  blocks_from a bs = l1 ++ (q, u) :: (p, t) :: l2 ->
  exists xs ys, bs = xs ++ u :: t :: ys /\ q = a + total xs /\ p = q + Z.abs u.
Proof.
  intros a l1 q u p t l2 E. apply blocks_from_split in E.
  destruct E as (xs & ys & -> & -> & _ & E).
  destruct ys as [|t' ys]; [discriminate|]. simpl in E. injection E as -> -> _.
  exists xs, ys. auto.
Qed.

Lemma blocks_from_last bs : forall a l1 q u,
  blocks_from a bs = l1 ++ [(q, u)] ->
  exists xs, bs = xs ++ [u] /\ q = a + total xs.
Proof.
  intros a l1 q u E. apply blocks_from_split in E.
  destruct E as (xs & ys & -> & -> & _ & E).
  destruct ys; [|discriminate]. exists xs. auto.
Qed.

(** X3.  Navigation on a reachable state.  From the header of a block
    [get_footer] gives its last word and [get_header] leads back; from a block
    [get_next_header] gives the header of the block after it, and null from
    the last block; the word before a header is the footer of the block
    before it, from which [get_header] gives that block's header. *)
Theorem navigation st0 st live :
  initial st0 -> reach st0 st live ->
  exists bl,
    has_blocks st bl /\
    (forall p t, In (p, t) bl ->
       get_footer st p = p + Z.abs t - sizeof_int /\
       get_header st (get_footer st p) = p) /\
    (forall l1 q u p t l2, bl = l1 ++ (q, u) :: (p, t) :: l2 ->
       get_next_header st q = p /\ get_header st (p - sizeof_int) = q) /\
    (forall l1 q u, bl = l1 ++ [(q, u)] -> get_next_header st q = 0).
Proof.
  intros I R. destruct (reach_inv _ _ _ I R) as (bs & [W _ _ _]).
  exists (blocks_from (mem st) bs). split; [now apply wf_has_blocks|].
  unfold sizeof_int. split; [|split].
  - intros p t Hin. destruct (wf_block _ _ _ _ W Hin) as (Hh & Hf & Hr & _).
    rewrite (get_footer_tag st p t) by (trivial; lia). split; [reflexivity|].
    rewrite (get_header_tag st _ t) by (trivial; lia). lia.
  - intros l1 q u p t l2 E. apply blocks_from_pair in E as E'.
    destruct E' as (xs & ys & Ebs & Eq & Ep).
    assert (Hq : In (q, u) (blocks_from (mem st) bs))
      by (rewrite E; apply in_or_app; right; now left).
    assert (Hp : In (p, t) (blocks_from (mem st) bs))
      by (rewrite E; apply in_or_app; right; right; now left).
    destruct (wf_block _ _ _ _ W Hq) as (Hqh & Hqf & Hqr & _).
    destruct (wf_block _ _ _ _ W Hp) as (_ & _ & Hpr & _ & _ & Hpe).
    split.
    + unfold get_next_header. rewrite Hqh, c_abs_tag by lia.
      destruct (q + Z.abs u >=? end_ st) eqn:Ee; lia.
    + subst p.
      rewrite (get_header_tag st _ u) by (trivial; lia). lia.
  - intros l1 q u E. apply blocks_from_last in E as E'. destruct E' as (xs & Ebs & Eq).
    assert (Hq : In (q, u) (blocks_from (mem st) bs))
      by (rewrite E; apply in_or_app; right; now left).
    destruct (wf_block _ _ _ _ W Hq) as (Hqh & _ & Hqr & _).
    pose proof (wf_total _ _ W) as T. rewrite Ebs, total_app in T. simpl in T.
    pose proof (wf_end _ _ W).
    unfold get_next_header. rewrite Hqh, c_abs_tag by lia.
    destruct (q + Z.abs u >=? end_ st) eqn:Ee; lia.
Qed.

Lemma navigation_witness :
  exists bl,
    has_blocks (alloc_in (pool 128) 2 20) bl /\
    (forall p t, In (p, t) bl ->
       get_footer (alloc_in (pool 128) 2 20) p = p + Z.abs t - sizeof_int /\
       get_header (alloc_in (pool 128) 2 20) (get_footer (alloc_in (pool 128) 2 20) p) = p) /\
    (forall l1 q u p t l2, bl = l1 ++ (q, u) :: (p, t) :: l2 ->
       get_next_header (alloc_in (pool 128) 2 20) q = p /\
       get_header (alloc_in (pool 128) 2 20) (p - sizeof_int) = q) /\
    (forall l1 q u, bl = l1 ++ [(q, u)] ->
       get_next_header (alloc_in (pool 128) 2 20) q = 0).
Proof.
  apply (navigation (pool 128) (alloc_in (pool 128) 2 20) [4100]).
  - apply pool_initial. unfold INT_MAX. lia.
  - apply reach_pool128_alloc20.
Defined.

(** ** Termination of the search *)

Lemma seg_length h bs : forall a, seg h a bs -> 8 * Z.of_nat (List.length bs) <= total bs.
Proof.
  induction bs as [|b bs IH]; intros a S; [simpl; lia|].
  cbn [seg total List.length] in *. destruct S as (H8 & _ & _ & S).
  specialize (IH _ S). lia.
Qed.

(** X4.  The search is linear in the capacity: on a reachable state the loop
    of [best_fit_block] ends, and [myalloc] returns, within
    [MEMORY_SIZE / 8 + 1] iterations, whatever the positive size asked. *)
Theorem myalloc_terminates st0 st live size fuel :
  initial st0 -> reach st0 st live -> 0 < size <= INT_MAX ->
  (Z.to_nat (MEMORY_SIZE st0 / 8) < fuel)%nat ->
  (exists header, best_fit_block fuel st size = Some header) /\
  (exists st' p, myalloc fuel st size = Some (st', p)).
Proof.
  intros I R Hs Hf. destruct (reach_inv _ _ _ I R) as (bs & [W _ _ Es]).
  assert (Hl : (List.length bs < fuel)%nat).
  { pose proof (seg_length _ _ _ (wf_seg _ _ W)) as L.
    rewrite (wf_total _ _ W), Es in L.
    assert (Z.of_nat (List.length bs) <= MEMORY_SIZE st0 / 8)
      by (apply Z.div_le_lower_bound; lia).
    lia. }
  split.
  - rewrite (best_fit_block_wf st bs size fuel W Hl). eauto.
  - destruct (myalloc_wf st bs size fuel W Hl Hs)
      as [(E & _)|(xs & t & ys & _ & _ & _ & E & _)]; rewrite E; eauto.
Qed.

Lemma myalloc_terminates_witness :
  (exists header, best_fit_block 17 (alloc_in (pool 128) 2 20) 8 = Some header) /\
  (exists st' p, myalloc 17 (alloc_in (pool 128) 2 20) 8 = Some (st', p)).
Proof.
  apply (myalloc_terminates (pool 128) (alloc_in (pool 128) 2 20) [4100] 8 17).
  - apply pool_initial. unfold INT_MAX. lia.
  - apply reach_pool128_alloc20.
  - unfold INT_MAX. lia.
  - vm_compute. lia.
Defined.

(** X5.  A header that holds zero stops the search for ever: from such a
    header inside the pool [get_next_header] returns the same header, so the
    loop of [best_fit_block] does not end, whatever the fuel. *)
Theorem zero_header_loops st size header result fuel :
  load st header = 0 -> header <> 0 -> header < end_ st ->
  get_next_header st header = header /\
  best_fit_loop fuel st size header result = None.
Proof.
  intros Hz Hn He.
  assert (N : get_next_header st header = header).
  { unfold get_next_header. rewrite Hz. change (c_abs 0) with 0.
    rewrite Z.add_0_r. destruct (header >=? end_ st) eqn:E; [lia|reflexivity]. }
  split; [exact N|].
  induction fuel as [|fuel IH]; [reflexivity|].
  cbn [best_fit_loop]. destruct (header =? 0) eqn:E0; [lia|].
  rewrite N. unfold fits. rewrite Hz. change (0 >? 0) with false.
  rewrite andb_false_r. exact IH.
Qed.

Lemma zero_header_loops_witness :
  get_next_header (store (pool 128) 4096 0) 4096 = 4096 /\
  best_fit_loop 1000 (store (pool 128) 4096 0) 20 4096 0 = None.
Proof.
  apply (zero_header_loops (store (pool 128) 4096 0) 20 4096 0 1000).
  - vm_compute. reflexivity.
  - lia.
  - vm_compute. reflexivity.
Defined.

(** ** [myalloc] and [myfree] on a well-formed pool, whatever the fuel *)

Lemma myalloc_cases st bs size fuel st' p :
  wf st bs -> 0 < size <= INT_MAX -> myalloc fuel st size = Some (st', p) ->
  (p = 0 /\ st' = log st (Fprintf cannot_service size) /\
   forall t, In t bs -> takes (add_int size 8) t = false)
  \/
  (exists xs t ys,
     bs = xs ++ t :: ys /\ 0 < t /\ p = mem st + total xs + 4 /\ p <> 0 /\
     st' = alloc_state st size (mem st + total xs) t /\
     wf st' (alloc_layout size xs t ys) /\
     takes (add_int size 8) t = true).
Proof.
  intros W Hs Ha.
  set (big := Nat.max fuel (S (List.length bs))).
  apply (myalloc_fuel _ _ _ big) in Ha; [|lia].
  destruct (myalloc_wf st bs size big W ltac:(lia) Hs)
    as [(E & Hall)|(xs & t & ys & -> & Ht & _ & E & W' & Et & _)];
    rewrite E in Ha; injection Ha as <- <-.
  - left. auto.
  - right. exists xs, t, ys. pose proof (wf_mem _ _ W). pose proof (total_nonneg xs).
    repeat (split; trivial). lia.
Qed.

Lemma hd_le_total ys : Z.max 0 (hd 0 ys) <= total ys.
Proof. destruct ys as [|r ys]; simpl; [lia|]. pose proof (total_nonneg ys). lia. Qed.

(** X6.  Exhaustion, for a request whose padded size is an [int]
    ([size + 8 <= INT_MAX]): on a reachable state [myalloc] returns null
    exactly when no block is eligible; it then leaves memory as it is and
    appends one diagnostic with the size to [stderr]; when it returns a
    pointer it writes nothing to [stderr]. *)
Theorem myalloc_null_iff_exhausted st0 st live size fuel st' p :
  initial st0 -> reach st0 st live ->
  0 < size -> size + 2 * sizeof_int <= INT_MAX ->
  myalloc fuel st size = Some (st', p) ->
  exists bl,
    has_blocks st bl /\
    (p = 0 <-> forall q t, In (q, t) bl -> ~ eligible size t) /\
    (p = 0 ->
     heap st' = heap st /\
     stderr st' = stderr st ++ [Fprintf cannot_service size]) /\
    (p <> 0 -> stderr st' = stderr st).
Proof.
  unfold sizeof_int. intros I R Hs Hm Ha.
  destruct (reach_inv _ _ _ I R) as (bs & [W _ _ _]).
  exists (blocks_from (mem st) bs). split; [now apply wf_has_blocks|].
  assert (Hs' : 0 < size <= INT_MAX) by int_range.
  destruct (myalloc_cases _ _ _ _ _ _ W Hs' Ha)
    as [(-> & -> & Hall)|(xs & t & ys & -> & Ht & -> & Hp & -> & _ & Et)].
  - split; [|split; [auto|congruence]]. split; [|reflexivity].
    intros _ q t Hin He. apply blocks_from_In_tag in Hin.
    apply takes_eligible in He; try lia. rewrite (Hall _ Hin) in He. discriminate.
  - split; [|split; [congruence|]].
    + split; [congruence|]. intros Hno. exfalso.
      apply (Hno (mem st + total xs) t).
      * rewrite blocks_from_middle. apply in_or_app. right. now left.
      * apply takes_eligible; trivial; lia.
    + intros _. apply alloc_state_globals.
Qed.

Lemma myalloc_null_iff_exhausted_witness :
  exists bl,
    has_blocks (alloc_in (pool 128) 2 20) bl /\
    (0 = 0 <-> forall q t, In (q, t) bl -> ~ eligible 100 t) /\
    (0 = 0 ->
     heap (alloc_in (alloc_in (pool 128) 2 20) 3 100) = heap (alloc_in (pool 128) 2 20) /\
     stderr (alloc_in (alloc_in (pool 128) 2 20) 3 100)
     = stderr (alloc_in (pool 128) 2 20) ++ [Fprintf cannot_service 100]) /\
    (0 <> 0 ->
     stderr (alloc_in (alloc_in (pool 128) 2 20) 3 100)
     = stderr (alloc_in (pool 128) 2 20)).
Proof.
  apply (myalloc_null_iff_exhausted (pool 128) (alloc_in (pool 128) 2 20) [4100] 100 3).
  - apply pool_initial. unfold INT_MAX. lia.
  - apply reach_pool128_alloc20.
  - lia.
  - unfold sizeof_int, INT_MAX. lia.
  - apply myalloc_alloc_in. vm_compute. reflexivity.
Defined.

(** X7.  Room in the block, for a request whose padded size is an [int]: the
    allocated block has at least [size] bytes between its header and its
    footer, and fewer than [size + 2 * sizeof(int)]: eight bytes of tags per
    block, and less than eight bytes lost when the block is not split. *)
Theorem payload_room st0 st live size fuel st' p :
  initial st0 -> reach st0 st live ->
  0 < size -> size + 2 * sizeof_int <= INT_MAX ->
  myalloc fuel st size = Some (st', p) -> p <> 0 ->
  load st' (p - sizeof_int) < 0 /\
  size <= get_footer st' (p - sizeof_int) - p < size + 2 * sizeof_int /\
  (size + 4 * sizeof_int <= load st (p - sizeof_int) ->
   get_footer st' (p - sizeof_int) - p = size).
Proof.
  unfold sizeof_int. intros I R Hs Hm Ha Hp.
  assert (Hs' : 0 < size <= INT_MAX) by int_range.
  destruct (myalloc_reach _ _ _ _ _ _ _ I R Hs' Ha Hp)
    as (xs & t & ys & W & Ht & -> & Eb & -> & _ & Et).
  apply takes_eligible in Et; try lia. destruct Et as (_ & Et). unfold sizeof_int in Et.
  set (hd := mem st + total xs) in *. replace (hd + 4 - 4) with hd by lia.
  assert (Hin : In (hd, t) (blocks_from (mem st) (xs ++ t :: ys))).
  { rewrite blocks_from_middle. apply in_or_app. right. now left. }
  destruct (wf_block _ _ _ _ W Hin) as (Hh & _ & Hr & _).
  rewrite Hh. unfold alloc_state.
  destruct (size + 16 <=? t) eqn:E.
  - assert (L : load (split_state st size hd t) hd = - (size + 8))
      by (unfold split_state; loads; reflexivity).
    rewrite (get_footer_tag _ hd (- (size + 8))) by (trivial; int_range). lia.
  - assert (L : load (taken_state st hd t) hd = - t)
      by (unfold taken_state; loads; reflexivity).
    rewrite (get_footer_tag _ hd (- t)) by (trivial; int_range). lia.
Qed.

Lemma payload_room_witness :
  load (alloc_in (pool 128) 2 20) (4100 - sizeof_int) < 0 /\
  20 <= get_footer (alloc_in (pool 128) 2 20) (4100 - sizeof_int) - 4100
     < 20 + 2 * sizeof_int /\
  (20 + 4 * sizeof_int <= load (pool 128) (4100 - sizeof_int) ->
   get_footer (alloc_in (pool 128) 2 20) (4100 - sizeof_int) - 4100 = 20).
Proof.
  apply (payload_room (pool 128) (pool 128) [] 20 2 (alloc_in (pool 128) 2 20) 4100).
  - apply pool_initial. unfold INT_MAX. lia.
  - apply reach_init.
  - lia.
  - unfold sizeof_int, INT_MAX. lia.
  - apply myalloc_alloc_in. vm_compute. reflexivity.
  - lia.
Defined.

(** X8.  [myfree] undoes [myalloc]: freeing the pointer that [myalloc] just
    returned gives back the blocks that the pool had before the call. *)
Theorem free_undoes_alloc st0 st live size fuel st1 p :
  initial st0 -> reach st0 st live -> 0 < size <= INT_MAX ->
  myalloc fuel st size = Some (st1, p) -> p <> 0 ->
  exists bl, has_blocks st bl /\ has_blocks (myfree st1 p) bl.
Proof.
  intros I R Hs Ha Hp.
  destruct (myalloc_reach _ _ _ _ _ _ _ I R Hs Ha Hp)
    as (xs & t & ys & W & Ht & -> & _ & -> & W1 & _).
  exists (blocks_from (mem st) (xs ++ t :: ys)). split; [now apply wf_has_blocks|].
  pose proof (proj1 (naf_middle xs t ys) (wf_naf _ _ W)) as (_ & Nl & Nr & _).
  destruct (alloc_state_globals st size (mem st + total xs) t) as (Gm & _).
  set (st1 := alloc_state st size (mem st + total xs) t) in *.
  assert (KL : keep_left xs = xs /\ Z.max 0 (last xs 0) = 0).
  { unfold keep_left. destruct (0 <? last xs 0) eqn:E; [lia|]. split; [reflexivity|lia]. }
  destruct KL as (KL & ML).
  unfold alloc_layout in W1. rewrite <- Gm.
  destruct (size + 16 <=? t) eqn:E.
  - change (xs ++ [- (size + 8); t - (size + 8)] ++ ys)
      with (xs ++ - (size + 8) :: (t - (size + 8)) :: ys) in W1.
    destruct (free_wf st1 xs (size + 8) ((t - (size + 8)) :: ys) W1 ltac:(lia)) as (_ & W2).
    unfold free_layout, keep_right in W2. rewrite KL, ML in W2. cbn [hd tl] in W2.
    destruct (0 <? t - (size + 8)) eqn:E2; [|lia].
    replace (0 + (size + 8) + Z.max 0 (t - (size + 8))) with t in W2 by lia.
    pose proof (wf_has_blocks _ _ W2) as B.
    rewrite (proj1 (myfree_globals _ _)) in B. exact B.
  - change (xs ++ [- t] ++ ys) with (xs ++ - t :: ys) in W1.
    destruct (free_wf st1 xs t ys W1 Ht) as (_ & W2).
    unfold free_layout, keep_right in W2. rewrite KL, ML in W2.
    destruct (0 <? hd 0 ys) eqn:E2; [lia|].
    replace (0 + t + Z.max 0 (hd 0 ys)) with t in W2 by lia.
    pose proof (wf_has_blocks _ _ W2) as B.
    rewrite (proj1 (myfree_globals _ _)) in B. exact B.
Qed.

Lemma free_undoes_alloc_witness :
  exists bl,
    has_blocks fragmented bl /\
    has_blocks (myfree (alloc_in fragmented 6 50) 4244) bl.
Proof.
  apply (free_undoes_alloc (pool 240) fragmented [4308; 4228] 50 6).
  - apply pool_initial. unfold INT_MAX. lia.
  - apply reach_fragmented.
  - unfold INT_MAX. lia.
  - apply myalloc_alloc_in. vm_compute. reflexivity.
  - lia.
Defined.

(** X9.  Freed room can be allocated again: after [myfree] of a live pointer
    whose block has [s] bytes, [myalloc] returns a pointer for every request
    of at most [s - 2 * sizeof(int)] bytes. *)
Theorem freed_room_is_reusable st0 st live p size :
  initial st0 -> reach st0 st live -> In p live ->
  0 < size -> size + 2 * sizeof_int <= - load st (p - sizeof_int) ->
  exists bl,
    has_blocks (myfree st p) bl /\
    forall fuel, (List.length bl < fuel)%nat ->
      exists st' q, myalloc fuel (myfree st p) size = Some (st', q) /\ q <> 0.
Proof.
  unfold sizeof_int. intros I R Hp Hs Hroom.
  destruct (myfree_reach _ _ _ _ I R Hp) as (xs & s & ys & W & Hs0 & -> & _ & _ & _ & W').
  replace (mem st + total xs + 4 - 4) with (mem st + total xs) in Hroom by lia.
  assert (Hin : In (mem st + total xs, - s) (blocks_from (mem st) (xs ++ - s :: ys))).
  { rewrite blocks_from_middle. apply in_or_app. right. now left. }
  destruct (wf_block _ _ _ _ W Hin) as (Hh & _ & Hr & _). rewrite Hh in Hroom.
  set (st1 := myfree st (mem st + total xs + 4)) in *.
  exists (blocks_from (mem st1) (free_layout xs s ys)). split; [now apply wf_has_blocks|].
  intros fuel Hf. rewrite blocks_from_length in Hf.
  assert (Hs' : 0 < size <= INT_MAX) by int_range.
  destruct (myalloc_wf st1 _ size fuel W' Hf Hs')
    as [(_ & Hall)|(xs' & t & ys' & _ & _ & _ & E & _)].
  - exfalso.
    specialize (Hall (Z.max 0 (last xs 0) + s + Z.max 0 (hd 0 ys))).
    assert (T : takes (add_int size 8) (Z.max 0 (last xs 0) + s + Z.max 0 (hd 0 ys)) = true).
    { apply takes_eligible; try int_range. unfold eligible, sizeof_int. lia. }
    rewrite Hall in T; [discriminate|].
    unfold free_layout. apply in_or_app. right. now left.
  - rewrite E. eexists. eexists. split; [reflexivity|].
    pose proof (wf_mem _ _ W'). pose proof (total_nonneg xs'). lia.
Qed.

Lemma freed_room_is_reusable_witness :
  exists bl,
    has_blocks (myfree (alloc_in (pool 128) 2 20) 4100) bl /\
    forall fuel, (List.length bl < fuel)%nat ->
      exists st' q,
        myalloc fuel (myfree (alloc_in (pool 128) 2 20) 4100) 20 = Some (st', q) /\ q <> 0.
Proof.
  apply (freed_room_is_reusable (pool 128) (alloc_in (pool 128) 2 20) [4100] 4100 20).
  - apply pool_initial. unfold INT_MAX. lia.
  - apply reach_pool128_alloc20.
  - simpl. auto.
  - lia.
  - vm_compute. discriminate.
Defined.

(** X10.  The operations write inside the pool only: on a reachable state a
    call of [myalloc], whatever it returns, and a call of [myfree] on a live
    pointer leave every byte outside the pool as it was. *)
Theorem writes_stay_in_pool st0 st live :
  initial st0 -> reach st0 st live ->
  (forall fuel size st' p a,
     0 < size <= INT_MAX -> myalloc fuel st size = Some (st', p) ->
     a < mem st \/ end_ st <= a -> heap st' a = heap st a) /\
  (forall p a,
     In p live -> a < mem st \/ end_ st <= a -> heap (myfree st p) a = heap st a).
Proof.
  intros I R. split.
  - intros fuel size st' p a Hs Ha Hout.
    destruct (reach_inv _ _ _ I R) as (bs & [W _ _ _]).
    destruct (myalloc_cases _ _ _ _ _ _ W Hs Ha)
      as [(_ & -> & _)|(xs & t & ys & -> & Ht & _ & _ & -> & _)]; [reflexivity|].
    assert (Hin : In (mem st + total xs, t) (blocks_from (mem st) (xs ++ t :: ys))).
    { rewrite blocks_from_middle. apply in_or_app. right. now left. }
    destruct (wf_block _ _ _ _ W Hin) as (_ & _ & Hr & _ & Hlo & Hhi).
    apply alloc_state_frame; lia.
  - intros p a Hp Hout.
    destruct (myfree_reach _ _ _ _ I R Hp) as (xs & s & ys & W & Hs0 & -> & _ & _ & E & _).
    rewrite E. replace (mem st + total xs + 4 - 4) with (mem st + total xs) by lia.
    destruct (neighbours_wf st xs s ys W Hs0) as (_ & _ & Hl & Hr & _).
    pose proof (wf_total _ _ W) as T. rewrite total_app in T. cbn [total] in T.
    pose proof (wf_end _ _ W). pose proof (wf_seg _ _ W) as S.
    apply seg_app in S. destruct S as (_ & S). cbn [seg] in S. destruct S as (H8 & _).
    pose proof (keep_left_total xs). pose proof (total_nonneg (keep_left xs)).
    pose proof (hd_le_total ys).
    apply freed_state_frame; lia.
Qed.

Lemma writes_stay_in_pool_witness :
  (forall a, a < 4096 \/ 4224 <= a ->
     heap (alloc_in (alloc_in (pool 128) 2 20) 3 8) a = heap (alloc_in (pool 128) 2 20) a) /\
  (forall a, a < 4096 \/ 4224 <= a ->
     heap (myfree (alloc_in (pool 128) 2 20) 4100) a = heap (alloc_in (pool 128) 2 20) a).
Proof.
  destruct (writes_stay_in_pool (pool 128) (alloc_in (pool 128) 2 20) [4100]) as (HA & HF).
  - apply pool_initial. unfold INT_MAX. lia.
  - apply reach_pool128_alloc20.
  - split.
    + intros a Ha.
      apply (HA 3%nat 8 (alloc_in (alloc_in (pool 128) 2 20) 3 8) 4128 a).
      * unfold INT_MAX. lia.
      * apply myalloc_alloc_in. vm_compute. reflexivity.
      * exact Ha.
    + intros a Ha. apply (HF 4100 a); [simpl; auto|exact Ha].
Defined.

(** X11.  [myalloc] never hands out room that is in use: the pointer it
    returns is not a live pointer, and the block it allocates overlaps no
    block that was allocated before the call. *)
Theorem allocated_block_is_fresh st0 st live size fuel st' p :
  initial st0 -> reach st0 st live -> 0 < size <= INT_MAX ->
  myalloc fuel st size = Some (st', p) -> p <> 0 ->
  ~ In p live /\
  exists bl,
    has_blocks st bl /\
    forall q t, In (q, t) bl -> t < 0 ->
      q + Z.abs t <= p - sizeof_int \/
      p - sizeof_int + Z.abs (load st' (p - sizeof_int)) <= q.
Proof.
  unfold sizeof_int. intros I R Hs Ha Hp.
  destruct (reach_inv _ _ _ I R) as (bs & [W L _ _]).
  destruct (myalloc_cases _ _ _ _ _ _ W Hs Ha)
    as [(-> & _)|(xs & t & ys & -> & Ht & -> & _ & -> & _ & _)]; [congruence|].
  set (hd := mem st + total xs) in *.
  assert (Hin : In (hd, t) (blocks_from (mem st) (xs ++ t :: ys))).
  { rewrite blocks_from_middle. apply in_or_app. right. now left. }
  destruct (wf_block _ _ _ _ W Hin) as (_ & _ & Hr & _).
  split.
  - rewrite L. change (xs ++ t :: ys) with (xs ++ [t] ++ ys).
    rewrite payloads_replace. cbn [payloads]. destruct (t <? 0) eqn:E; [lia|].
    intros [H|[H|H]]; [|contradiction|]; apply payloads_bounds in H; simpl in H; lia.
  - exists (blocks_from (mem st) (xs ++ t :: ys)). split; [now apply wf_has_blocks|].
    intros q u Hq Hu. replace (hd + 4 - 4) with hd by lia.
    assert (B : Z.abs (load (alloc_state st size hd t) hd) <= t).
    { unfold alloc_state. destruct (size + 16 <=? t) eqn:E.
      - unfold split_state. loads. lia.
      - unfold taken_state. loads. lia. }
    destruct (blocks_disjoint _ _ _ _ _ _ _ (wf_seg _ _ W) Hq Hin) as [(_ & ->)|D]; lia.
Qed.

Lemma allocated_block_is_fresh_witness :
  ~ In 4128 [4100] /\
  exists bl,
    has_blocks (alloc_in (pool 128) 2 20) bl /\
    forall q t, In (q, t) bl -> t < 0 ->
      q + Z.abs t <= 4128 - sizeof_int \/
      4128 - sizeof_int
      + Z.abs (load (alloc_in (alloc_in (pool 128) 2 20) 3 8) (4128 - sizeof_int)) <= q.
Proof.
  apply (allocated_block_is_fresh (pool 128) (alloc_in (pool 128) 2 20) [4100] 8 3).
  - apply pool_initial. unfold INT_MAX. lia.
  - apply reach_pool128_alloc20.
  - unfold INT_MAX. lia.
  - apply myalloc_alloc_in. vm_compute. reflexivity.
  - lia.
Defined.

Lemma payloads_blocks bs : forall a q,
  In q (payloads a bs) <-> exists t, In (q - 4, t) (blocks_from a bs) /\ t < 0.
Proof.
  induction bs as [|b bs IH]; intros a q; cbn [payloads blocks_from].
  - split; [contradiction|]. intros (t & [] & _).
  - rewrite in_app_iff, IH. split.
    + intros [H|(t & H & Ht)].
      * destruct (b <? 0) eqn:E; [|contradiction]. destruct H as [<-|[]].
        exists b. split; [left; f_equal; lia|lia].
      * exists t. split; [now right|assumption].
    + intros (t & [[= E1 E2]|H] & Ht).
      * left. subst t. destruct (b <? 0) eqn:E; [|lia]. left. lia.
      * right. eauto.
Qed.

(** X12.  No block is lost and none is invented: in a reachable state the
    live pointers are exactly the payload pointers of the allocated blocks of
    the pool. *)
Theorem live_pointers_are_allocated_blocks st0 st live :
  initial st0 -> reach st0 st live ->
  exists bl,
    has_blocks st bl /\
    forall q, In q live <-> exists t, In (q - sizeof_int, t) bl /\ t < 0.
Proof.
  intros I R. destruct (reach_inv _ _ _ I R) as (bs & [W L _ _]).
  exists (blocks_from (mem st) bs). split; [now apply wf_has_blocks|].
  intros q. rewrite L. apply payloads_blocks.
Qed.

Lemma live_pointers_are_allocated_blocks_witness :
  exists bl,
    has_blocks fragmented bl /\
    forall q, In q [4308; 4228] <-> exists t, In (q - sizeof_int, t) bl /\ t < 0.
Proof.
  apply (live_pointers_are_allocated_blocks (pool 240) fragmented [4308; 4228]).
  - apply pool_initial. unfold INT_MAX. lia.
  - apply reach_fragmented.
Defined.

(** ** [myfree] on a block that is free *)

(** [myfree] negates the tags; on a free block whose neighbours are not free
    it does what [myalloc] does when it takes a block whole. *)
Lemma myfree_of_free_closed st hd t :
  0 < hd -> load st hd = t -> load st (hd + t - 4) = t -> 8 <= t ->
  left_tag st hd <= 0 -> right_tag st hd t <= 0 ->
  myfree st (hd + 4) = taken_state st hd t.
Proof.
  intros Hpos Hh Hf Ht HL HR. pose proof (load_range st hd) as Hr. rewrite Hh in Hr.
  unfold myfree, taken_state. cbv zeta. unfold sizeof_int.
  replace (hd + 4 - 4) with hd by lia.
  rewrite Hh. unfold mul_int.
  replace (t * -1) with (- t) by lia. rewrite (wrap_int_id (- t)) by int_range.
  rewrite (get_footer_tag _ hd (- t)) by (try apply load_store; int_range).
  replace (hd + Z.abs (- t) - 4) with (hd + t - 4) by lia.
  rewrite (load_store_far st hd) by lia. rewrite Hf.
  replace (t * -1) with (- t) by lia. rewrite (wrap_int_id (- t)) by int_range.
  set (st2 := store (store st hd (- t)) (hd + t - 4) (- t)).
  assert (H2h : load st2 hd = - t) by (subst st2; loads; reflexivity).
  assert (H2f : load st2 (hd + t - 4) = - t) by (subst st2; loads; reflexivity).
  rewrite (get_header_tag st2 (hd + t - 4) (- t)) by (trivial; int_range).
  replace (hd + t - 4 - Z.abs (- t) + 4) with hd by lia.
  change (mem st2) with (mem st).
  assert (Hl2 : (if negb (hd =? mem st)
                 then if load st2 (hd - 4) >? 0 then back_coalesce st2 hd else (st2, hd)
                 else (st2, hd)) = (st2, hd)).
  { unfold left_tag in HL. destruct (hd =? mem st) eqn:Em; simpl; [reflexivity|].
    assert (E : load st2 (hd - 4) = load st (hd - 4)) by (subst st2; loads; reflexivity).
    rewrite E. destruct (load st (hd - 4) >? 0) eqn:Eg; [lia|reflexivity]. }
  rewrite Hl2. cbv beta iota.
  unfold get_next_header. rewrite H2h, c_abs_tag by int_range.
  replace (hd + Z.abs (- t)) with (hd + t) by lia.
  change (end_ st2) with (end_ st). unfold right_tag in HR.
  destruct (hd + t >=? end_ st) eqn:Ee; [reflexivity|].
  destruct (hd + t =? 0) eqn:E0; [lia|]. cbn [negb].
  assert (E : load st2 (hd + t) = load st (hd + t)) by (subst st2; loads; reflexivity).
  rewrite E. destruct (load st (hd + t) >? 0) eqn:Eg; [lia|reflexivity].
Qed.

(** X13.  [myfree] does not notice a second free.  Called on the payload
    pointer of a block that is free, it negates the tags again: the block
    becomes an allocated block of the same size, nothing is merged and the
    other blocks stay as they are. *)
Theorem free_of_free_block_allocates st0 st live l1 q t l2 :
  initial st0 -> reach st0 st live ->
  has_blocks st (l1 ++ (q, t) :: l2) -> 0 < t ->
  has_blocks (myfree st (q + sizeof_int)) (l1 ++ (q, - t) :: l2) /\
  load (myfree st (q + sizeof_int)) q = - t.
Proof.
  unfold sizeof_int. intros I R HB Ht.
  destruct (reach_inv _ _ _ I R) as (bs & [W _ _ _]).
  pose proof (wf_has_blocks _ _ W) as B.
  specialize (HB _ (Nat.lt_succ_diag_r _)).
  apply (has_blocks_unique _ _ _ _ B) in HB. symmetry in HB.
  apply blocks_from_split in HB. destruct HB as (xs & ys & -> & -> & -> & ->).
  set (hd := mem st + total xs) in *.
  assert (Hin : In (hd, t) (blocks_from (mem st) (xs ++ t :: ys))).
  { rewrite blocks_from_middle. apply in_or_app. right. now left. }
  destruct (wf_block _ _ _ _ W Hin) as (Hh & Hf & Hr & _).
  rewrite Z.abs_eq in Hf, Hr by lia.
  pose proof (proj1 (naf_middle xs t ys) (wf_naf _ _ W)) as (_ & Nl & Nr & _).
  (* the neighbours, read as [myfree] reads them *)
  assert (HL : left_tag st hd <= 0).
  { unfold left_tag. destruct (hd =? mem st) eqn:E; [lia|].
    destruct (list_snoc_cases xs) as [->|(xs' & l & ->)].
    - subst hd. simpl in E. lia.
    - rewrite last_last in Nl.
      pose proof (wf_seg _ _ W) as S. apply seg_app in S. destruct S as (S & _).
      apply seg_last in S. destruct S as (_ & _ & Sf).
      unfold load. subst hd. rewrite total_app. cbn [total].
      replace (mem st + (total xs' + (Z.abs l + 0)) - 4)
        with (mem st + total xs' + Z.abs l - 4) by lia.
      rewrite Sf. lia. }
  assert (HR : right_tag st hd t <= 0).
  { unfold right_tag. destruct (hd + t >=? end_ st) eqn:E; [lia|].
    destruct ys as [|r ys].
    - pose proof (wf_total _ _ W) as T. rewrite total_app in T. simpl in T.
      pose proof (wf_end _ _ W). subst hd. lia.
    - pose proof (wf_seg _ _ W) as S. apply seg_app in S.
      destruct S as (_ & S). cbn [seg] in S. destruct S as (_ & _ & _ & _ & Sr & _).
      fold hd in Sr. rewrite Z.abs_eq in Sr by lia. unfold load. rewrite Sr.
      simpl in Nr. lia. }
  pose proof (wf_mem _ _ W). pose proof (total_nonneg xs).
  rewrite (myfree_of_free_closed st hd t) by (trivial; lia).
  pose proof (alloc_wf st t xs t ys W Ht Ht) as W'.
  unfold alloc_state, alloc_layout in W'. fold hd in W'.
  destruct (t + 16 <=? t) eqn:E; [lia|].
  split.
  - pose proof (wf_has_blocks _ _ W') as B'.
    change (mem (taken_state st hd t)) with (mem st) in B'.
    change (xs ++ [- t] ++ ys) with (xs ++ - t :: ys) in B'.
    rewrite blocks_from_middle in B'. fold hd in B'.
    replace (hd + Z.abs (- t)) with (hd + Z.abs t) in B' by lia. exact B'.
  - unfold taken_state. loads. reflexivity.
Qed.

Lemma free_of_free_block_allocates_witness :
  has_blocks (myfree (alloc_in (pool 128) 2 20) (4124 + sizeof_int))
    [(4096, -28); (4124, -100)] /\
  load (myfree (alloc_in (pool 128) 2 20) (4124 + sizeof_int)) 4124 = -100.
Proof.
  apply (free_of_free_block_allocates (pool 128) (alloc_in (pool 128) 2 20) [4100]
           [(4096, -28)] 4124 100 []).
  - apply pool_initial. unfold INT_MAX. lia.
  - apply reach_pool128_alloc20.
  - intros fuel Hf. simpl in Hf.
    destruct fuel as [|[|[|fuel]]]; try lia.
    apply (walk_fuel _ 3); [vm_compute; reflexivity|lia].
  - lia.
Defined.

(** ** The two merges *)

(** X14.  [back_coalesce] on a free block at [header], of size [s], that
    follows a free block of size [l]: it returns the header of the left
    block, writes [l + s] into that header and into the footer of the right
    block, which is the footer of the merged block, and writes nothing
    else. *)
Theorem back_coalesce_merges st header s l :
  load st header = s -> load st (get_footer st header) = s -> 8 <= s ->
  load st (header - sizeof_int) = l -> load st (header - l) = l -> 8 <= l ->
  l + s <= INT_MAX ->
  snd (back_coalesce st header) = header - l /\
  load (fst (back_coalesce st header)) (header - l) = l + s /\
  get_footer (fst (back_coalesce st header)) (header - l) = get_footer st header /\
  load (fst (back_coalesce st header)) (get_footer st header) = l + s /\
  forall a,
    ~ header - l <= a < header - l + sizeof_int ->
    ~ get_footer st header <= a < get_footer st header + sizeof_int ->
    heap (fst (back_coalesce st header)) a = heap st a.
Proof.
  unfold sizeof_int. intros Hh Hf Hs Hlf Hlh Hl Hm.
  rewrite (get_footer_tag st header s) in * by (trivial; int_range).
  rewrite Z.abs_eq in * by lia.
  rewrite (back_coalesce_closed st header s l) by assumption.
  cbn [fst snd]. unfold merged_left.
  split; [reflexivity|]. split; [loads; lia|]. split; [|split].
  - rewrite (get_footer_tag _ (header - l) (l + s)); [lia| |int_range].
    loads. reflexivity.
  - loads. lia.
  - intros a H1 H2. rewrite !heap_store by lia. reflexivity.
Qed.

(** X15.  [fwd_coalesce] on a free block at [header], of size [m], that is
    followed inside the pool by a free block of size [r]: it writes [m + r]
    into the header and into the footer of the right block, which is the
    footer of the merged block, and writes nothing else. *)
Theorem fwd_coalesce_merges st header m r :
  load st header = m -> load st (get_footer st header) = m -> 8 <= m ->
  get_next_header st header <> 0 ->
  load st (get_next_header st header) = r ->
  load st (get_footer st (get_next_header st header)) = r -> 8 <= r ->
  m + r <= INT_MAX ->
  load (fwd_coalesce st header) header = m + r /\
  get_footer (fwd_coalesce st header) header
  = get_footer st (get_next_header st header) /\
  load (fwd_coalesce st header) (get_footer st (get_next_header st header)) = m + r /\
  forall a,
    ~ header <= a < header + sizeof_int ->
    ~ get_footer st (get_next_header st header) <= a
      < get_footer st (get_next_header st header) + sizeof_int ->
    heap (fwd_coalesce st header) a = heap st a.
Proof.
  unfold sizeof_int. intros Hh Hf Hm Hn Hrh Hrf Hr Hmax.
  rewrite (get_footer_tag st header m) in * by (trivial; int_range).
  assert (N : get_next_header st header = header + m /\ header + m < end_ st).
  { unfold get_next_header in *. rewrite Hh, c_abs_tag, Z.abs_eq in * by int_range.
    destruct (header + m >=? end_ st) eqn:E; [congruence|]. split; [reflexivity|lia]. }
  destruct N as (N & Ne). rewrite N in *.
  rewrite (get_footer_tag st (header + m) r) in * by (trivial; int_range).
  rewrite Z.abs_eq in * by lia.
  rewrite (fwd_coalesce_closed st header m r) by assumption.
  unfold merged_right.
  split; [loads; lia|]. split; [|split].
  - rewrite (get_footer_tag _ header (m + r)); [lia| |int_range].
    loads. reflexivity.
  - loads. lia.
  - intros a H1 H2. rewrite !heap_store by lia. reflexivity.
Qed.

(** ** The first call *)

(** X17.  What a new pool can serve: on the state after [init_myalloc], for a
    request whose padded size is an [int], [myalloc] returns the first payload
    address when [size + 2 * sizeof(int)] is at most the capacity, and null
    otherwise. *)
Theorem new_pool_capacity st0 size fuel :
  initial st0 -> 0 < size -> size + 2 * sizeof_int <= INT_MAX -> (1 < fuel)%nat ->
  exists st' p,
    myalloc fuel st0 size = Some (st', p) /\
    (size + 2 * sizeof_int <= MEMORY_SIZE st0 -> p = mem st0 + sizeof_int) /\
    (MEMORY_SIZE st0 < size + 2 * sizeof_int -> p = 0).
Proof.
  unfold sizeof_int. intros (C & base & h & HC & Hb & Hi) Hs Hm Hf.
  destruct (init_wf _ _ _ _ HC Hb Hi) as (W & _ & Es & _). rewrite Es.
  assert (Hs' : 0 < size <= INT_MAX) by int_range.
  destruct (myalloc_wf st0 [C] size fuel W ltac:(simpl; lia) Hs')
    as [(E & Hall)|(xs & t & ys & Ebs & Ht & _ & E & _ & Et & _)].
  - rewrite E. eexists. eexists. split; [reflexivity|]. split; [|reflexivity].
    intros Hfit. exfalso. specialize (Hall C ltac:(now left)).
    assert (T : takes (add_int size 8) C = true).
    { apply takes_eligible; try lia. unfold eligible, sizeof_int. lia. }
    congruence.
  - rewrite E. eexists. eexists. split; [reflexivity|].
    destruct xs as [|x xs]; [|destruct xs; discriminate].
    simpl in Ebs. injection Ebs as <- <-. simpl.
    split; [intros _; lia|]. intros Hbig. exfalso.
    apply takes_eligible in Et; try lia. unfold eligible, sizeof_int in Et. lia.
Qed.

Lemma new_pool_capacity_witness :
  exists st' p,
    myalloc 2 (pool 128) 120 = Some (st', p) /\
    (120 + 2 * sizeof_int <= MEMORY_SIZE (pool 128) -> p = mem (pool 128) + sizeof_int) /\
    (MEMORY_SIZE (pool 128) < 120 + 2 * sizeof_int -> p = 0).
Proof.
  apply (new_pool_capacity (pool 128) 120 2).
  - apply pool_initial. unfold INT_MAX. lia.
  - lia.
  - unfold sizeof_int, INT_MAX. lia.
  - lia.
Defined.

(** X18.  A smaller request is served where a larger one is: if [myalloc]
    returns a pointer for [size], whose padded size is an [int], it returns a
    pointer for every smaller positive size, on the same state. *)
Theorem smaller_request_is_served st0 st live size size' fuel st1 p :
  initial st0 -> reach st0 st live ->
  0 < size' <= size -> size + 2 * sizeof_int <= INT_MAX ->
  myalloc fuel st size = Some (st1, p) -> p <> 0 ->
  exists bl,
    has_blocks st bl /\
    forall fuel', (List.length bl < fuel')%nat ->
      exists st2 q, myalloc fuel' st size' = Some (st2, q) /\ q <> 0.
Proof.
  unfold sizeof_int. intros I R Hs Hm Ha Hp.
  destruct (reach_inv _ _ _ I R) as (bs & [W _ _ _]).
  exists (blocks_from (mem st) bs). split; [now apply wf_has_blocks|].
  intros fuel' Hf. rewrite blocks_from_length in Hf.
  assert (Hs1 : 0 < size <= INT_MAX) by int_range.
  assert (Hs2 : 0 < size' <= INT_MAX) by int_range.
  destruct (myalloc_cases _ _ _ _ _ _ W Hs1 Ha)
    as [(-> & _)|(xs & t & ys & -> & Ht & _ & _ & _ & _ & Et)]; [congruence|].
  apply takes_eligible in Et; try lia. unfold eligible, sizeof_int in Et.
  destruct (myalloc_wf st _ size' fuel' W Hf Hs2)
    as [(_ & Hall)|(xs' & t' & ys' & _ & _ & _ & E & _)].
  - exfalso. specialize (Hall t ltac:(apply in_or_app; right; now left)).
    assert (T : takes (add_int size' 8) t = true).
    { apply takes_eligible; try lia. unfold eligible, sizeof_int. lia. }
    congruence.
  - rewrite E. eexists. eexists. split; [reflexivity|].
    pose proof (wf_mem _ _ W). pose proof (total_nonneg xs'). lia.
Qed.

Lemma smaller_request_is_served_witness :
  exists bl,
    has_blocks fragmented bl /\
    forall fuel', (List.length bl < fuel')%nat ->
      exists st2 q, myalloc fuel' fragmented 10 = Some (st2, q) /\ q <> 0.
Proof.
  apply (smaller_request_is_served (pool 240) fragmented [4308; 4228] 50 10 6
           (alloc_in fragmented 6 50) 4244).
  - apply pool_initial. unfold INT_MAX. lia.
  - apply reach_fragmented.
  - lia.
  - unfold sizeof_int, INT_MAX. lia.
  - apply myalloc_alloc_in. vm_compute. reflexivity.
  - lia.
Defined.

Lemma back_coalesce_merges_witness :
  snd (back_coalesce two_free 4124) = 4124 - 28 /\
  load (fst (back_coalesce two_free 4124)) (4124 - 28) = 28 + 100 /\
  get_footer (fst (back_coalesce two_free 4124)) (4124 - 28) = get_footer two_free 4124 /\
  load (fst (back_coalesce two_free 4124)) (get_footer two_free 4124) = 28 + 100 /\
  forall a,
    ~ 4124 - 28 <= a < 4124 - 28 + sizeof_int ->
    ~ get_footer two_free 4124 <= a < get_footer two_free 4124 + sizeof_int ->
    heap (fst (back_coalesce two_free 4124)) a = heap two_free a.
Proof.
  apply (back_coalesce_merges two_free 4124 100 28).
  - vm_compute. reflexivity.
  - vm_compute. reflexivity.
  - lia.
  - vm_compute. reflexivity.
  - vm_compute. reflexivity.
  - lia.
  - unfold INT_MAX. lia.
Defined.

Lemma fwd_coalesce_merges_witness :
  load (fwd_coalesce two_free 4096) 4096 = 28 + 100 /\
  get_footer (fwd_coalesce two_free 4096) 4096
  = get_footer two_free (get_next_header two_free 4096) /\
  load (fwd_coalesce two_free 4096) (get_footer two_free (get_next_header two_free 4096))
  = 28 + 100 /\
  forall a,
    ~ 4096 <= a < 4096 + sizeof_int ->
    ~ get_footer two_free (get_next_header two_free 4096) <= a
      < get_footer two_free (get_next_header two_free 4096) + sizeof_int ->
    heap (fwd_coalesce two_free 4096) a = heap two_free a.
Proof.
  apply (fwd_coalesce_merges two_free 4096 28 100).
  - vm_compute. reflexivity.
  - vm_compute. reflexivity.
  - lia.
  - vm_compute. discriminate.
  - vm_compute. reflexivity.
  - vm_compute. reflexivity.
  - lia.
  - unfold INT_MAX. lia.
Defined.

(** ** Word-sized requests *)

Lemma reach_words_reach st0 st live : reach_words st0 st live -> reach st0 st live.
Proof.
  induction 1 as [|st live fuel size st' p R IH Hs Hd Ha|st live p R IH Hp].
  - apply reach_init.
  - eapply reach_alloc; eassumption.
  - apply reach_free; assumption.
Qed.

(** A state has one layout. *)
Lemma wf_unique st bs1 bs2 : wf st bs1 -> wf st bs2 -> bs1 = bs2.
Proof.
  intros W1 W2. pose proof (wf_has_blocks _ _ W1) as B1.
  pose proof (wf_has_blocks _ _ W2 _ (Nat.lt_succ_diag_r _)) as B2.
  apply (has_blocks_unique _ _ _ _ B1) in B2.
  apply (f_equal (map snd)) in B2. now rewrite !blocks_from_tags in B2.
Qed.

Lemma divide_max0 l : (4 | l) -> (4 | Z.max 0 l).
Proof.
  intros H. destruct (Z.max_spec 0 l) as [(_ & ->)|(_ & ->)]; [assumption|].
  apply Z.divide_0_r.
Qed.

Lemma alloc_layout_words size xs t ys :
  (4 | size) -> Forall (fun b => (4 | b)) (xs ++ t :: ys) ->
  Forall (fun b => (4 | b)) (alloc_layout size xs t ys).
Proof.
  intros Hs F. apply Forall_app in F. destruct F as (Fx & F).
  inversion F as [|? ? Ft Fy]; subst.
  assert (D : (4 | size + 8)) by (apply Z.divide_add_r; [assumption|now exists 2]).
  unfold alloc_layout. apply Forall_app. split; [assumption|].
  apply Forall_app. split; [|assumption].
  destruct (size + 16 <=? t).
  - repeat constructor.
    + now apply Z.divide_opp_r.
    + now apply Z.divide_sub_r.
  - repeat constructor. now apply Z.divide_opp_r.
Qed.

Lemma free_layout_words xs s ys :
  Forall (fun b => (4 | b)) (xs ++ - s :: ys) ->
  Forall (fun b => (4 | b)) (free_layout xs s ys).
Proof.
  intros F. apply Forall_app in F. destruct F as (Fx & F).
  inversion F as [|? ? Fs Fy]; subst. apply Z.divide_opp_r in Fs.
  rewrite Z.opp_involutive in Fs.
  rewrite (keep_left_eq xs) in Fx. apply Forall_app in Fx. destruct Fx as (Fkl & Fl).
  rewrite (keep_right_eq ys) in Fy. apply Forall_app in Fy. destruct Fy as (Fr & Fkr).
  assert (Dl : (4 | Z.max 0 (last xs 0))).
  { destruct (0 <? last xs 0) eqn:E.
    - inversion Fl; subst. now apply divide_max0.
    - rewrite Z.max_l by lia. apply Z.divide_0_r. }
  assert (Dr : (4 | Z.max 0 (hd 0 ys))).
  { destruct (0 <? hd 0 ys) eqn:E.
    - inversion Fr; subst. now apply divide_max0.
    - rewrite Z.max_l by lia. apply Z.divide_0_r. }
  unfold free_layout. apply Forall_app. split; [assumption|].
  apply Forall_app. split; [|assumption].
  repeat constructor. apply Z.divide_add_r; [apply Z.divide_add_r|]; assumption.
Qed.

Lemma blocks_from_words bs : forall a q t,
  Forall (fun b => (4 | b)) bs -> In (q, t) (blocks_from a bs) ->
  (4 | t) /\ (4 | q - a).
Proof.
  induction bs as [|b bs IH]; intros a q t F Hin; [contradiction|].
  inversion F as [|? ? Fb Fbs]; subst. destruct Hin as [[= <- <-]|Hin].
  - split; [assumption|]. rewrite Z.sub_diag. apply Z.divide_0_r.
  - destruct (IH _ _ _ Fbs Hin) as (Dt & Dq). split; [assumption|].
    replace (q - a) with (q - (a + Z.abs b) + Z.abs b) by lia.
    apply Z.divide_add_r; [assumption|]. now apply Z.divide_abs_r.
Qed.

Lemma reach_words_layout st0 st live :
  initial st0 -> (4 | MEMORY_SIZE st0) -> reach_words st0 st live ->
  forall bs, wf st bs -> Forall (fun b => (4 | b)) bs.
Proof.
  intros I D R.
  induction R as [|st live fuel size st' p R IH Hs Hd Ha|st live p R IH Hp];
    intros bs' W'.
  - destruct I as (C & base & h & HC & Hb & Hi).
    destruct (init_wf _ _ _ _ HC Hb Hi) as (W & _ & Es & _).
    rewrite (wf_unique _ _ _ W' W). repeat constructor. now rewrite <- Es.
  - destruct (reach_inv _ _ _ I (reach_words_reach _ _ _ R)) as (bs & [W _ _ _]).
    specialize (IH _ W).
    destruct (myalloc_cases _ _ _ _ _ _ W Hs Ha)
      as [(_ & -> & _)|(xs & t & ys & -> & _ & _ & _ & _ & W2 & _)].
    + rewrite (wf_unique _ _ _ W' (log_wf _ _ _ W)). assumption.
    + rewrite (wf_unique _ _ _ W' W2). now apply alloc_layout_words.
  - destruct (myfree_reach _ _ _ _ I (reach_words_reach _ _ _ R) Hp)
      as (xs & s & ys & W & _ & _ & _ & _ & _ & W2).
    specialize (IH _ W). rewrite (wf_unique _ _ _ W' W2). now apply free_layout_words.
Qed.

(** X16.  Word-sized requests keep the pool in words: when the capacity and
    every requested size are multiples of [sizeof(int)], every block starts a
    multiple of [sizeof(int)] after the start of the pool and has such a
    size, and so has every pointer that [myalloc] returned. *)
Theorem word_sized_requests_stay_aligned st0 st live :
  initial st0 -> (sizeof_int | MEMORY_SIZE st0) -> reach_words st0 st live ->
  exists bl,
    has_blocks st bl /\
    (forall q t, In (q, t) bl -> (sizeof_int | t) /\ (sizeof_int | q - mem st)) /\
    (forall p, In p live -> (sizeof_int | p - mem st)).
Proof.
  unfold sizeof_int. intros I D R.
  destruct (reach_inv _ _ _ I (reach_words_reach _ _ _ R)) as (bs & [W L _ _]).
  pose proof (reach_words_layout _ _ _ I D R _ W) as F.
  exists (blocks_from (mem st) bs). split; [now apply wf_has_blocks|]. split.
  - intros q t Hin. eapply blocks_from_words; eassumption.
  - intros p Hp. apply L in Hp. apply payloads_In in Hp.
    destruct Hp as (xs & b & ys & -> & _ & ->).
    assert (Hin : In (mem st + total xs, b) (blocks_from (mem st) (xs ++ b :: ys))).
    { rewrite blocks_from_middle. apply in_or_app. right. now left. }
    destruct (blocks_from_words _ _ _ _ F Hin) as (_ & Dq).
    replace (mem st + total xs + 4 - mem st) with (mem st + total xs - mem st + 4) by lia.
    apply Z.divide_add_r; [assumption|now exists 1].
Qed.

Lemma reach_words_pool128_alloc20 :
  reach_words (pool 128) (alloc_in (pool 128) 2 20) [4100].
Proof.
  apply (words_alloc (pool 128) (pool 128) [] 2 20 (alloc_in (pool 128) 2 20) 4100).
  - apply words_init.
  - unfold INT_MAX. lia.
  - exists 5. reflexivity.
  - apply myalloc_alloc_in. vm_compute. reflexivity.
Defined.

Lemma word_sized_requests_stay_aligned_witness :
  exists bl,
    has_blocks (alloc_in (pool 128) 2 20) bl /\
    (forall q t, In (q, t) bl ->
       (sizeof_int | t) /\ (sizeof_int | q - mem (alloc_in (pool 128) 2 20))) /\
    (forall p, In p [4100] -> (sizeof_int | p - mem (alloc_in (pool 128) 2 20))).
Proof.
  apply (word_sized_requests_stay_aligned (pool 128) (alloc_in (pool 128) 2 20) [4100]).
  - apply pool_initial. unfold INT_MAX. lia.
  - exists 32. reflexivity.
  - apply reach_words_pool128_alloc20.
Defined.

(** ** The layout is a function of the allocated blocks *)

Lemma allocs_app xs : forall a ys,
  allocs a (xs ++ ys) = allocs a xs ++ allocs (a + total xs) ys.
Proof.
  induction xs as [|x xs IH]; intros a ys; simpl.
  - now rewrite Z.add_0_r.
  - rewrite IH, <- app_assoc, Z.add_assoc. reflexivity.
Qed.

Lemma allocs_bounds bs : forall a q t,
  In (q, t) (allocs a bs) -> a <= q < a + total bs.
Proof.
  induction bs as [|b bs IH]; intros a q t H; [contradiction|].
  cbn [allocs total] in *. pose proof (total_nonneg bs).
  apply in_app_or in H. destruct H as [H|H].
  - destruct (b <? 0) eqn:E; [|contradiction]. destruct H as [[= <- <-]|[]]. lia.
  - apply IH in H. lia.
Qed.

Lemma total_zero bs : Forall (fun b => 0 < Z.abs b) bs -> total bs = 0 -> bs = [].
Proof.
  intros F T. destruct bs as [|b bs]; [reflexivity|].
  inversion F; subst. simpl in T. pose proof (total_nonneg bs). lia.
Qed.

(** Two layouts without neighbouring free blocks, of the same total size and
    with the same allocated blocks, are the same layout. *)
Lemma layout_determined bs1 : forall bs2 a,
  Forall (fun b => 0 < Z.abs b) bs1 -> Forall (fun b => 0 < Z.abs b) bs2 ->
  no_adjacent_free bs1 -> no_adjacent_free bs2 ->
  total bs1 = total bs2 -> allocs a bs1 = allocs a bs2 -> bs1 = bs2.
Proof.
  induction bs1 as [|b1 r1 IH]; intros bs2 a F1 F2 N1 N2 T A.
  - symmetry. apply total_zero; [assumption|]. simpl in T. lia.
  - destruct bs2 as [|b2 r2].
    { apply total_zero in F1; [discriminate|]. simpl in T |- *. lia. }
    inversion F1 as [|? ? P1 F1']; subst. inversion F2 as [|? ? P2 F2']; subst.
    apply naf_cons in N1. destruct N1 as (H1 & N1).
    apply naf_cons in N2. destruct N2 as (H2 & N2).
    cbn [allocs total] in A, T.
    destruct (b1 <? 0) eqn:E1; destruct (b2 <? 0) eqn:E2; cbn [app] in A.
    + injection A as -> A. f_equal. apply (IH r2 (a + Z.abs b2)); trivial. lia.
    + exfalso. assert (Hin : In (a, b1) (allocs (a + Z.abs b2) r2))
        by (rewrite <- A; now left).
      apply allocs_bounds in Hin. lia.
    + exfalso. assert (Hin : In (a, b2) (allocs (a + Z.abs b1) r1))
        by (rewrite A; now left).
      apply allocs_bounds in Hin. lia.
    + assert (E : b1 = b2).
      { destruct r1 as [|c1 r1']; destruct r2 as [|c2 r2']; cbn [hd] in *.
        - simpl in T. lia.
        - exfalso. inversion F2' as [|? ? Pc _]; subst.
          cbn [allocs] in A. destruct (c2 <? 0) eqn:Ec; [discriminate|]. lia.
        - exfalso. inversion F1' as [|? ? Pc _]; subst.
          cbn [allocs] in A. destruct (c1 <? 0) eqn:Ec; [discriminate|]. lia.
        - inversion F1' as [|? ? Pc1 _]; subst. inversion F2' as [|? ? Pc2 _]; subst.
          cbn [allocs] in A.
          destruct (c1 <? 0) eqn:Ec1; [|lia]. destruct (c2 <? 0) eqn:Ec2; [|lia].
          cbn [app] in A. injection A as A _ _. lia. }
      subst b2. f_equal. apply (IH r2 (a + Z.abs b1)); trivial. lia.
Qed.

Lemma seg_positive h bs : forall a, seg h a bs -> Forall (fun b => 0 < Z.abs b) bs.
Proof.
  induction bs as [|b bs IH]; intros a S; [constructor|].
  cbn [seg] in S. destruct S as (H8 & _ & _ & S). constructor; [lia|eauto].
Qed.

Lemma filter_all {A} (f : A -> bool) l :
  (forall x, In x l -> f x = true) -> filter f l = l.
Proof.
  induction l as [|x l IH]; intros H; [reflexivity|]. simpl.
  rewrite (H x) by now left. f_equal. apply IH. intros y Hy. apply H. now right.
Qed.

Lemma filter_comm {A} (f g : A -> bool) l :
  filter f (filter g l) = filter g (filter f l).
Proof.
  induction l as [|x l IH]; [reflexivity|]. simpl.
  destruct (f x) eqn:Ef; destruct (g x) eqn:Eg; simpl; rewrite ?Ef, ?Eg, IH; reflexivity.
Qed.

Lemma allocs_keep_left a xs : allocs a (keep_left xs) = allocs a xs.
Proof.
  pose proof (keep_left_eq xs) as E. unfold keep_left in *.
  destruct (0 <? last xs 0) eqn:El; [|reflexivity].
  transitivity (allocs a (removelast xs ++ [last xs 0])); [|now rewrite <- E].
  rewrite allocs_app. cbn [allocs].
  destruct (last xs 0 <? 0) eqn:El'; [lia|]. now rewrite !app_nil_r.
Qed.

Lemma allocs_keep_right a ys :
  allocs (a + Z.max 0 (hd 0 ys)) (keep_right ys) = allocs a ys.
Proof.
  unfold keep_right. destruct (0 <? hd 0 ys) eqn:Er.
  - destruct ys as [|r ys]; [discriminate|]. cbn [hd tl allocs] in *.
    destruct (r <? 0) eqn:Er'; [lia|]. cbn [app]. f_equal. lia.
  - f_equal. lia.
Qed.

(** [myfree] takes the freed block out of the allocated blocks and leaves the
    others. *)
Lemma free_allocs st0 st live p bs :
  initial st0 -> reach st0 st live -> In p live -> wf st bs ->
  exists bs',
    wf (myfree st p) bs' /\
    allocs (mem st) bs'
    = filter (fun e => negb (fst e =? p - 4)) (allocs (mem st) bs).
Proof.
  intros I R Hp W.
  destruct (myfree_reach _ _ _ _ I R Hp) as (xs & s & ys & W1 & Hs & -> & _ & _ & _ & W2).
  rewrite (wf_unique _ _ _ W W1). exists (free_layout xs s ys). split; [assumption|].
  replace (mem st + total xs + 4 - 4) with (mem st + total xs) by lia.
  set (a := mem st). set (hd0 := a + total xs).
  assert (A1 : allocs a (xs ++ - s :: ys)
               = allocs a xs ++ (hd0, - s) :: allocs (hd0 + s) ys).
  { rewrite allocs_app. cbn [allocs]. destruct (- s <? 0) eqn:E; [|lia].
    replace (Z.abs (- s)) with s by lia. reflexivity. }
  assert (A2 : allocs a (free_layout xs s ys) = allocs a xs ++ allocs (hd0 + s) ys).
  { unfold free_layout.
    rewrite allocs_app, keep_left_total, allocs_keep_left. cbn [app allocs].
    destruct (Z.max 0 (last xs 0) + s + Z.max 0 (hd 0 ys) <? 0) eqn:E; [lia|].
    cbn [app]. f_equal. rewrite <- (allocs_keep_right (hd0 + s) ys).
    f_equal. subst hd0. lia. }
  rewrite A1, A2, filter_app. cbn [filter fst].
  rewrite Z.eqb_refl. cbn [negb].
  rewrite !filter_all; trivial.
  - intros [q t] Hin. apply allocs_bounds in Hin. cbn [fst].
    destruct (q =? hd0) eqn:E; [lia|reflexivity].
  - intros [q t] Hin. apply allocs_bounds in Hin. cbn [fst]. subst hd0.
    destruct (q =? a + total xs) eqn:E; [lia|reflexivity].
Qed.

(** X19.  The order of two frees does not matter for the blocks: freeing two
    live pointers in one order or the other leaves the same blocks in the
    pool. *)
Theorem frees_commute st0 st live p q :
  initial st0 -> reach st0 st live -> In p live -> In q live -> p <> q ->
  exists bl,
    has_blocks (myfree (myfree st p) q) bl /\
    has_blocks (myfree (myfree st q) p) bl.
Proof.
  intros I R Hp Hq Hne.
  destruct (reach_inv _ _ _ I R) as (bs & [W _ _ _]).
  assert (Step : forall p q, In p live -> In q live -> p <> q ->
            exists bs2,
              wf (myfree (myfree st p) q) bs2 /\
              allocs (mem st) bs2
              = filter (fun e => negb (fst e =? q - 4))
                  (filter (fun e => negb (fst e =? p - 4)) (allocs (mem st) bs))).
  { intros p' q' Hp' Hq' Hne'.
    destruct (free_allocs _ _ _ _ _ I R Hp' W) as (bs1 & W1 & A1).
    assert (R1 : reach st0 (myfree st p') (remove Z.eq_dec p' live))
      by (apply reach_free; assumption).
    assert (Hq1 : In q' (remove Z.eq_dec p' live))
      by (apply in_in_remove; [congruence|assumption]).
    destruct (free_allocs _ _ _ _ _ I R1 Hq1 W1) as (bs2 & W2 & A2).
    rewrite (proj1 (myfree_globals st p')) in A2.
    exists bs2. split; [assumption|]. now rewrite A2, A1. }
  destruct (Step p q Hp Hq Hne) as (bA & WA & AA).
  destruct (Step q p Hq Hp (not_eq_sym Hne)) as (bB & WB & AB).
  assert (MA : mem (myfree (myfree st p) q) = mem st)
    by (rewrite !(proj1 (myfree_globals _ _)); reflexivity).
  assert (MB : mem (myfree (myfree st q) p) = mem st)
    by (rewrite !(proj1 (myfree_globals _ _)); reflexivity).
  assert (SA : MEMORY_SIZE (myfree (myfree st p) q) = MEMORY_SIZE st).
  { destruct (myfree_globals (myfree st p) q) as (_ & _ & -> & _).
    apply myfree_globals. }
  assert (SB : MEMORY_SIZE (myfree (myfree st q) p) = MEMORY_SIZE st).
  { destruct (myfree_globals (myfree st q) p) as (_ & _ & -> & _).
    apply myfree_globals. }
  assert (E : bA = bB).
  { apply (layout_determined bA bB (mem st)).
    - eapply seg_positive. apply WA.
    - eapply seg_positive. apply WB.
    - apply WA.
    - apply WB.
    - rewrite (wf_total _ _ WA), (wf_total _ _ WB). congruence.
    - rewrite AA, AB. apply filter_comm. }
  exists (blocks_from (mem st) bA). split.
  - rewrite <- MA. now apply wf_has_blocks.
  - rewrite E, <- MB. now apply wf_has_blocks.
Qed.

Lemma frees_commute_witness :
  exists bl,
    has_blocks (myfree (myfree fragmented 4308) 4228) bl /\
    has_blocks (myfree (myfree fragmented 4228) 4308) bl.
Proof.
  apply (frees_commute (pool 240) fragmented [4308; 4228] 4308 4228).
  - apply pool_initial. unfold INT_MAX. lia.
  - apply reach_fragmented.
  - simpl. auto.
  - simpl. auto.
  - lia.
Defined.

(** ** A request of zero bytes *)

Lemma myalloc_zero_found st fuel hd t :
  best_fit_block fuel st 0 = Some hd -> hd <> 0 ->
  load st hd = t -> load st (hd + t - 4) = t -> 8 <= t ->
  myalloc fuel st 0 = Some (alloc_state st 0 hd t, hd + 4).
Proof.
  intros Hb Hnz Hh Hf Ht. pose proof (load_range st hd) as Hr. rewrite Hh in Hr.
  unfold myalloc. rewrite Hb. destruct (hd =? 0) eqn:E0; [lia|].
  assert (Sp : splits st 0 hd = (0 + 16 <=? t)).
  { unfold splits. rewrite Hh, c_abs_tag, Z.abs_eq, to_size_t_id by int_range.
    change (size_add (to_size_t 0) (4 * sizeof_int)) with 16.
    destruct (t >=? 16) eqn:E1; destruct (0 + 16 <=? t) eqn:E2; trivial; lia. }
  rewrite Sp. unfold alloc_state.
  destruct (0 + 16 <=? t) eqn:Esp.
  - cbv zeta. unfold split_state.
    rewrite Hh, (c_abs_tag t), (Z.abs_eq t) by int_range.
    change (wrap_int (size_mul (padded 0) (to_size_t (-1)))) with (- (0 + 8)).
    change (padded 0) with 8.
    assert (Rest : wrap_int (size_sub (to_size_t t) 8) = t - (0 + 8)).
    { unfold size_sub. rewrite (to_size_t_id t) by int_range.
      rewrite to_size_t_id by int_range. apply wrap_int_id. int_range. }
    rewrite Rest.
    rewrite (get_footer_tag _ hd (- (0 + 8))) by (try apply load_store; int_range).
    replace (hd + Z.abs (- (0 + 8)) - 4) with (hd + 0 + 4) by lia.
    unfold sizeof_int.
    replace (hd + 0 + 4 + 4) with (hd + 0 + 8) by lia.
    rewrite (get_footer_tag _ (hd + 0 + 8) (t - (0 + 8)))
      by (try apply load_store; int_range).
    replace (hd + 0 + 8 + Z.abs (t - (0 + 8)) - 4) with (hd + t - 4) by lia.
    reflexivity.
  - cbv zeta. unfold taken_state, sizeof_int.
    rewrite Hh. unfold mul_int.
    replace (t * -1) with (- t) by lia. rewrite (wrap_int_id (- t)) by int_range.
    rewrite (get_footer_tag _ hd (- t)) by (try apply load_store; int_range).
    replace (hd + Z.abs (- t) - 4) with (hd + t - 4) by lia.
    rewrite load_store_far by lia. rewrite Hf.
    replace (t * -1) with (- t) by lia. rewrite (wrap_int_id (- t)) by int_range.
    reflexivity.
Qed.

Lemma alloc_zero_wf st xs t ys :
  wf st (xs ++ t :: ys) -> 0 < t ->
  wf (alloc_state st 0 (mem st + total xs) t) (alloc_layout 0 xs t ys).
Proof.
  intros W Ht. set (hd := mem st + total xs).
  assert (Hin : 8 <= Z.abs t <= total (xs ++ t :: ys)).
  { apply (seg_In (heap st) _ (mem st)); [apply W|]. apply in_or_app. right. now left. }
  assert (Hmax : t <= INT_MAX) by (destruct W; lia).
  pose proof (proj1 (naf_middle xs t ys) (wf_naf _ _ W)) as (Nx & Nl & Nr & Ny).
  destruct (alloc_state_globals st 0 hd t) as (Em & Ee & Ez & _).
  unfold alloc_layout.
  apply (wf_replace st _ xs [t]); trivial.
  - destruct (0 + 16 <=? t) eqn:E; cbn [total]; lia.
  - destruct (0 + 16 <=? t); discriminate.
  - intros a Ha. cbn [total] in Ha. unfold alloc_state, split_state, taken_state.
    destruct (0 + 16 <=? t) eqn:E; rewrite !heap_store by lia; reflexivity.
  - fold hd. unfold alloc_state. destruct (0 + 16 <=? t) eqn:E.
    + unfold split_state. cbn [seg]. fold_load.
      replace (hd + Z.abs (- (0 + 8)) - 4) with (hd + 0 + 4) by lia.
      replace (hd + Z.abs (- (0 + 8))) with (hd + 0 + 8) by lia.
      replace (hd + 0 + 8 + Z.abs (t - (0 + 8)) - 4) with (hd + t - 4) by lia.
      repeat split; try lia; loads; reflexivity.
    + unfold taken_state. cbn [seg]. fold_load.
      replace (hd + Z.abs (- t) - 4) with (hd + t - 4) by lia.
      repeat split; try lia; loads; reflexivity.
  - destruct (0 + 16 <=? t) eqn:E.
    + change (xs ++ [- (0 + 8); t - (0 + 8)] ++ ys)
        with (xs ++ - (0 + 8) :: (t - (0 + 8)) :: ys).
      rewrite naf_middle, naf_cons. cbn [hd]. intuition lia.
    + change (xs ++ [- t] ++ ys) with (xs ++ - t :: ys).
      rewrite naf_middle. intuition lia.
Qed.

(** X20.  [myalloc(0)] on a reachable state: it returns null only when the
    pool has no free block; otherwise it allocates the smallest free block,
    the pool stays well formed, and when the block is split the allocated
    block is two tags without payload: the pointer returned is the address
    of the block's own footer. *)
Theorem zero_size_request st0 st live fuel st' p :
  initial st0 -> reach st0 st live ->
  myalloc fuel st 0 = Some (st', p) ->
  exists bl,
    has_blocks st bl /\
    (p = 0 <-> forall q t, In (q, t) bl -> t < 0) /\
    (p <> 0 ->
     (exists t, In (p - sizeof_int, t) bl /\ 0 < t /\
                forall q u, In (q, u) bl -> 0 < u -> t <= u) /\
     load st' (p - sizeof_int) < 0 /\
     (4 * sizeof_int <= load st (p - sizeof_int) -> get_footer st' (p - sizeof_int) = p) /\
     exists bl',
       has_blocks st' bl' /\ no_adjacent_free (map snd bl') /\
       tiles (mem st) bl' (end_ st)).
Proof.
  unfold sizeof_int. intros I R Ha.
  destruct (reach_inv _ _ _ I R) as (bs & [W _ _ _]).
  exists (blocks_from (mem st) bs). split; [now apply wf_has_blocks|].
  set (big := Nat.max fuel (S (List.length bs))).
  apply (myalloc_fuel _ _ _ big) in Ha; [|lia].
  destruct (best_fit_block_cases st bs 0 big W ltac:(lia))
    as [(Eb & Hall)|(xs & t & ys & -> & Eb & Et & H1 & H2)].
  - rewrite (myalloc_none _ _ _ Eb) in Ha. injection Ha as <- <-.
    split; [|congruence]. split; [|reflexivity].
    intros _ q t Hin. destruct (wf_block _ _ _ _ W Hin) as (_ & _ & Hr & Ht & _).
    specialize (Hall _ Ht). unfold takes in Hall. change (add_int 0 8) with 8 in Hall.
    apply andb_false_iff in Hall. destruct Hall as [Hall|Hall]; lia.
  - change (add_int 0 8) with 8 in *.
    assert (Ht : 0 < t) by (unfold takes in Et; apply andb_prop in Et; lia).
    set (hd := mem st + total xs) in *.
    assert (Hin : In (hd, t) (blocks_from (mem st) (xs ++ t :: ys))).
    { rewrite blocks_from_middle. apply in_or_app. right. now left. }
    destruct (wf_block _ _ _ _ W Hin) as (Hh & Hf & Hr & _).
    rewrite Z.abs_eq in Hf, Hr by lia.
    pose proof (wf_mem _ _ W). pose proof (total_nonneg xs).
    rewrite (myalloc_zero_found st big hd t) in Ha by (trivial; lia).
    injection Ha as <- <-. replace (hd + 4 - 4) with hd by lia.
    split; [|intros _; split; [|split; [|split]]].
    + split; [lia|]. intros Hno. specialize (Hno _ _ Hin). lia.
    + exists t. split; [assumption|]. split; [assumption|].
      intros q u Hq Hu. destruct (wf_block _ _ _ _ W Hq) as (_ & _ & Hur & Hut & _).
      assert (Tu : takes 8 u = true) by (unfold takes; apply andb_true_intro; lia).
      apply in_app_or in Hut. destruct Hut as [Hut|[<-|Hut]]; [|lia|].
      * specialize (H1 _ Hut Tu). lia.
      * specialize (H2 _ Hut Tu). lia.
    + unfold alloc_state. destruct (0 + 16 <=? t).
      * unfold split_state. loads. lia.
      * unfold taken_state. loads. lia.
    + rewrite Hh. intros Hsp. unfold alloc_state.
      destruct (0 + 16 <=? t) eqn:E; [|lia].
      rewrite (get_footer_tag _ hd (- (0 + 8))); [lia| |int_range].
      unfold split_state. loads. reflexivity.
    + pose proof (alloc_zero_wf st xs t ys W Ht) as W'. fold hd in W'.
      exists (blocks_from (mem (alloc_state st 0 hd t)) (alloc_layout 0 xs t ys)).
      split; [now apply wf_has_blocks|]. split.
      * rewrite blocks_from_tags. apply W'.
      * destruct (alloc_state_globals st 0 hd t) as (Gm & Ge & _).
        rewrite <- Gm at 1. rewrite <- Ge.
        rewrite (wf_end _ _ W'), <- (wf_total _ _ W').
        apply (blocks_from_tiles (heap (alloc_state st 0 hd t))). apply W'.
Qed.

Lemma zero_size_request_witness :
  exists bl,
    has_blocks (alloc_in (pool 128) 2 20) bl /\
    (4128 = 0 <-> forall q t, In (q, t) bl -> t < 0) /\
    (4128 <> 0 ->
     (exists t, In (4128 - sizeof_int, t) bl /\ 0 < t /\
                forall q u, In (q, u) bl -> 0 < u -> t <= u) /\
     load (alloc_in (alloc_in (pool 128) 2 20) 3 0) (4128 - sizeof_int) < 0 /\
     (4 * sizeof_int <= load (alloc_in (pool 128) 2 20) (4128 - sizeof_int) ->
      get_footer (alloc_in (alloc_in (pool 128) 2 20) 3 0) (4128 - sizeof_int) = 4128) /\
     exists bl',
       has_blocks (alloc_in (alloc_in (pool 128) 2 20) 3 0) bl' /\
       no_adjacent_free (map snd bl') /\
       tiles (mem (alloc_in (pool 128) 2 20)) bl' (end_ (alloc_in (pool 128) 2 20))).
Proof.
  apply (zero_size_request (pool 128) (alloc_in (pool 128) 2 20) [4100] 3).
  - apply pool_initial. unfold INT_MAX. lia.
  - apply reach_pool128_alloc20.
  - apply myalloc_alloc_in. vm_compute. reflexivity.
Defined.
